(** * Limited draft analysis: sealed-deck construction and its statistics

    A shallow embedding of [DraftSimulator] (src/mtg_draft_analysis.py):
    pool generation, archetype resolution, card scoring, card
    selection, mana base, the draft runner and the analysis of a batch.

    Conventions.
    - A Python number is a [number]: an [Int] (unbounded) or a [Float]
      (binary64, Rocq's primitive floats, so that products, quotients and
      comparisons evaluate as they do in Python).
    - A Python call that can raise returns an [outcome]; a [while] loop
      that can spin forever returns [Diverges] where it would.
    - The random module is an explicit stream of draws threaded through
      the calls. *)

From Stdlib Require Import ZArith List String Ascii Floats Lia Permutation Bool Sorted.
From stdpp Require Import gmap strings.
Import ListNotations.

Set Warnings "-inexact-float".
Local Open Scope string_scope.
Local Open Scope list_scope.
Local Open Scope nat_scope.

(** ** Outcomes of a call *)

Inductive exn :=
| KeyError (key : string)
| ValueError (msg : string)
| IndexError
| TypeError
| ZeroDivisionError.

Inductive outcome (A : Type) :=
| Returns (a : A)
| Raises (e : exn)
| Diverges.
Arguments Returns {A} a.
Arguments Raises {A} e.
Arguments Diverges {A}.

Definition bind {A B} (x : outcome A) (f : A -> outcome B) : outcome B :=
  match x with
  | Returns a => f a
  | Raises e => Raises e
  | Diverges => Diverges
  end.

Notation "x <- e1 ;; e2" := (bind e1 (fun x => e2))
  (at level 100, e1 at next level, right associativity).

(** [for x in xs: acc = body(acc, x)] with a body that can raise. *)
Fixpoint for_each {A S} (body : S -> A -> outcome S) (xs : list A) (acc : S)
  : outcome S :=
  match xs with
  | [] => Returns acc
  | x :: xs' => acc' <- body acc x ;; for_each body xs' acc'
  end.

(** A computation over a state [S] (the random generator, the object
    store) that can raise. *)
Definition comp (S A : Type) : Type := S -> outcome (A * S).

Definition cret {S A} (a : A) : comp S A := fun st => Returns (a, st).

Definition cbind {S A B} (m : comp S A) (f : A -> comp S B) : comp S B :=
  fun st =>
    match m st with
    | Returns (a, st') => f a st'
    | Raises e => Raises e
    | Diverges => Diverges
    end.

Definition lift {S A} (o : outcome A) : comp S A :=
  fun st =>
    match o with
    | Returns a => Returns (a, st)
    | Raises e => Raises e
    | Diverges => Diverges
    end.

Notation "x <~ e1 ;; e2" := (cbind e1 (fun x => e2))
  (at level 100, e1 at next level, right associativity).

(** [[f(x) for x in xs]] with an [f] that acts on the state. *)
Fixpoint map_comp {S A B} (f : A -> comp S B) (xs : list A) : comp S (list B) :=
  match xs with
  | [] => cret []
  | x :: xs' => y <~ f x ;; ys <~ map_comp f xs' ;; cret (y :: ys)
  end.

(** ** Numbers *)

Inductive number :=
| Int (z : Z)
| Float (f : float).

(** [float(z)]; exact for |z| <= 2^53, which covers every integer the
    program converts (scores, land counts, symbol counts). *)
Definition float_of_Z (z : Z) : float :=
  if (z <? 0)%Z then PrimFloat.opp (PrimFloat.of_uint63 (Uint63.of_Z (- z)))
  else PrimFloat.of_uint63 (Uint63.of_Z z).

Definition to_float (n : number) : float :=
  match n with
  | Int z => float_of_Z z
  | Float f => f
  end.

(** [int(x)] of a finite float: truncation toward zero. *)
Definition float_trunc (x : float) : Z :=
  match Prim2SF x with
  | S754_finite s m e =>
      let v := if (0 <=? e)%Z then (Z.pos m * 2 ^ e)%Z
               else (Z.pos m / 2 ^ (- e))%Z in
      if s then (- v)%Z else v
  | _ => 0%Z
  end.

Definition num_add (a b : number) : number :=
  match a, b with
  | Int x, Int y => Int (x + y)
  | _, _ => Float (PrimFloat.add (to_float a) (to_float b))
  end.

Definition num_mul (a b : number) : number :=
  match a, b with
  | Int x, Int y => Int (x * y)
  | _, _ => Float (PrimFloat.mul (to_float a) (to_float b))
  end.

(** True division [a / b]; the caller checks [b] for zero. *)
Definition num_div (a b : number) : number :=
  Float (PrimFloat.div (to_float a) (to_float b)).

Definition num_ltb (a b : number) : bool :=
  match a, b with
  | Int x, Int y => (x <? y)%Z
  | _, _ => PrimFloat.ltb (to_float a) (to_float b)
  end.

Definition num_leb (a b : number) : bool :=
  match a, b with
  | Int x, Int y => (x <=? y)%Z
  | _, _ => PrimFloat.leb (to_float a) (to_float b)
  end.

Definition num_eqb (a b : number) : bool :=
  match a, b with
  | Int x, Int y => (x =? y)%Z
  | _, _ => PrimFloat.eqb (to_float a) (to_float b)
  end.

(** ** Strings *)

(** [sub in s] *)
Fixpoint str_in (sub s : string) : bool :=
  String.prefix sub s ||
  match s with
  | EmptyString => false
  | String _ s' => str_in sub s'
  end.

Definition lower_ascii (c : ascii) : ascii :=
  let n := nat_of_ascii c in
  if (65 <=? n) && (n <=? 90) then ascii_of_nat (n + 32) else c.

(** [s.lower()] on the ASCII letters. *)
Fixpoint lower (s : string) : string :=
  match s with
  | EmptyString => EmptyString
  | String c s' => String (lower_ascii c) (lower s')
  end.

Fixpoint count_from (sub : string) (skip : nat) (s : string) : nat :=
  match s with
  | EmptyString => 0
  | String _ s' =>
      match skip with
      | S k => count_from sub k s'
      | O => if String.prefix sub s
             then S (count_from sub (String.length sub - 1) s')
             else count_from sub 0 s'
      end
  end.

(** [s.count(sub)]: non-overlapping occurrences. *)
Definition str_count (s sub : string) : nat :=
  match sub with
  | EmptyString => S (String.length s)
  | _ => count_from sub 0 s
  end.

(** [list(s)]: the characters as one-character strings. *)
Fixpoint chars (s : string) : list string :=
  match s with
  | EmptyString => []
  | String c s' => String c EmptyString :: chars s'
  end.

(** [s[-1]] of a non-empty string. *)
Fixpoint last_char (s : string) : string :=
  match s with
  | EmptyString => EmptyString
  | String c EmptyString => String c EmptyString
  | String _ s' => last_char s'
  end.

(** [x in xs] for a list of strings. *)
Definition mem (x : string) (xs : list string) : bool :=
  existsb (String.eqb x) xs.

(** [set(xs) == set(ys)] *)
Definition set_eqb (xs ys : list string) : bool :=
  forallb (fun x => mem x ys) xs && forallb (fun y => mem y xs) ys.

Fixpoint list_eqb (xs ys : list string) : bool :=
  match xs, ys with
  | [], [] => true
  | x :: xs', y :: ys' => String.eqb x y && list_eqb xs' ys'
  | _, _ => false
  end.

(** ** Sorting, as [list.sort] and [sorted] do it: stable *)

Section Sorting.
Context {A K : Type} (ltb : K -> K -> bool) (key : A -> K).

(** ascending: [x] goes before the first element that is not below it *)
Fixpoint insert_asc (x : A) (l : list A) : list A :=
  match l with
  | [] => [x]
  | y :: l' => if ltb (key y) (key x) then y :: insert_asc x l'
               else x :: y :: l'
  end.

(** [reverse=True]: [x] goes before the first element that is not
    above it, so equal keys keep their order *)
Fixpoint insert_desc (x : A) (l : list A) : list A :=
  match l with
  | [] => [x]
  | y :: l' => if ltb (key x) (key y) then y :: insert_desc x l'
               else x :: y :: l'
  end.

Definition sort_asc (l : list A) : list A := fold_right insert_asc [] l.
Definition sort_desc (l : list A) : list A := fold_right insert_desc [] l.
End Sorting.

(** ** Data model *)

(** A card record after the [.get] defaults of [build_deck] are applied
    (missing colors are [[]], a missing mana value is [0], missing
    strings are empty). *)
Record card := mk_card {
  name : string;
  colors : list string;
  cmc : number;
  type_line : string;
  rarity : string;
  oracle_text : string;
  mana_cost : string
}.

(** An entry of [pool_data]: the per-build copy with its score. *)
Record scored := mk_scored {
  sc_card : card;
  score : number
}.

(** A deck entry: a scored copy, or a basic land
    [{"name": ..., "type_line": "Basic Land"}]. *)
Inductive entry :=
| Picked (p : scored)
| Basic (land : string).

Definition entry_name (e : entry) : string :=
  match e with
  | Picked p => name (sc_card p)
  | Basic land => land
  end.

Definition entry_type_line (e : entry) : string :=
  match e with
  | Picked p => type_line (sc_card p)
  | Basic _ => "Basic Land"
  end.

(** An archetype's scoring profile, one value of [archetype_weights]. *)
Record profile := mk_profile {
  keywords : list string;
  creature_weight : float;
  noncreature_weight : float;
  min_creatures : nat
}.

(** [self.archetype_weights] (the commented-out entries are absent). *)
Definition archetype_weights : list (string * profile) :=
  [ ("WB", mk_profile ["drain"; "lifegain"; "sacrifice"; "afterlife"; "cleric";
                       "vampire"; "knight"; "extort"; "token"] 1.0 1.0 15);
    ("UR", mk_profile ["instant"; "sorcery"; "prowess"; "draw"; "wizard";
                       "phoenix"; "elemental"; "flash"; "copy"] 0.6 1.4 12);
    ("BG", mk_profile ["graveyard"; "deathtouch"; "dredge"; "scavenge"; "insect";
                       "fungus"; "elf"; "sacrifice"; "undergrowth"] 1.1 0.9 16);
    ("RW", mk_profile ["mentor"; "attack"; "equipment"; "first strike";
                       "double strike"; "soldier"; "warrior"; "samurai"; "haste"]
                      1.3 0.7 18);
    ("GU", mk_profile ["adapt"; "evolve"; "counter"; "flash"; "mutate"; "crab";
                       "merfolk"; "draw"; "clone"] 1.1 0.9 16);
    ("WBG", mk_profile ["outlast"; "abzan"; "lifelink"; "deathtouch"; "vigilance";
                        "counter"; "toughness"; "spirit"; "value"] 1.1 0.9 16);
    ("URW", mk_profile ["prowess"; "jeskai"; "monk"; "flying"; "first strike";
                        "noncreature"; "instant"; "sorcery"; "trigger"] 0.8 1.2 13);
    ("BGU", mk_profile ["delve"; "sultai"; "zombie"; "snake"; "naga"; "self-mill";
                        "graveyard"; "deathtouch"; "value"] 0.9 1.1 14);
    ("RWB", mk_profile ["dash"; "mardu"; "warrior"; "knight"; "goblin"; "haste";
                        "first strike"; "lifelink"; "raid"] 1.2 0.8 17);
    ("GUR", mk_profile ["ferocious"; "temur"; "flash"; "elemental"; "shaman";
                        "draw"; "power"; "trample"; "instants"] 1.0 1.0 15);
    ("MONO_W", mk_profile ["vigilance"; "lifelink"; "enchantment"; "soldier";
                           "knight"; "cleric"; "human"; "angel"; "equipment"]
                          1.2 0.8 18);
    ("MONO_U", mk_profile ["counter"; "draw"; "flash"; "flying"; "bounce";
                           "wizard"; "merfolk"; "illusion"; "artifact"]
                          0.7 1.3 12);
    ("MONO_B", mk_profile ["destroy"; "sacrifice"; "discard"; "zombie"; "vampire";
                           "demon"; "deathtouch"; "drain"; "removal"] 1.0 1.0 15);
    ("MONO_R", mk_profile ["damage"; "haste"; "goblin"; "elemental"; "dragon";
                           "devil"; "burn"; "sacrifice"; "attack"] 1.3 0.7 19);
    ("MONO_G", mk_profile ["trample"; "reach"; "elf"; "beast"; "hydra"; "wolf";
                           "mana"; "ramp"; "+1/+1"] 1.4 0.6 20);
    ("5C", mk_profile ["domain"; "converge"; "gate"; "fixng"; "ramp";
                       "multicolor"; "draw"; "removal"; "value"] 1.0 1.0 14) ].

(** [d.get(k)] on a dict written as its list of items. *)
Fixpoint assoc {V} (k : string) (d : list (string * V)) : option V :=
  match d with
  | [] => None
  | (k', v) :: d' => if String.eqb k k' then Some v else assoc k d'
  end.

(** ** build_deck, step by step *)

(** *** Counting the pool by color *)

Definition color_counts_init : gmap string nat :=
  list_to_map [("W", 0); ("U", 0); ("B", 0); ("R", 0); ("G", 0);
               ("colorless", 0); ("multicolor", 0)].

(** [d[k] += n] on a dict of counters. *)
Definition incr (n : nat) (d : gmap string nat) (k : string)
  : outcome (gmap string nat) :=
  match d !! k with
  | Some v => Returns (<[k := v + n]> d)
  | None => Raises (KeyError k)
  end.

Definition count_card (cc : gmap string nat) (c : card)
  : outcome (gmap string nat) :=
  match colors c with
  | [] => incr 1 cc "colorless"
  | [color] => incr 1 cc color
  | cs => cc' <- incr 1 cc "multicolor" ;; for_each (incr 1) cs cc'
  end.

Definition count_colors (pool : list card) : outcome (gmap string nat) :=
  for_each count_card pool color_counts_init.

(** *** Primary colors *)

(** [d[k]] for a key that the callers below know to be present. *)
Definition get_count (d : gmap string nat) (k : string) : nat :=
  default 0 (d !! k).

(** The keys of [color_counts] other than "colorless" and "multicolor",
    in insertion order. *)
Definition single_colors : list string := ["W"; "U"; "B"; "R"; "G"].

Definition auto_colors (cc : gmap string nat) : list string :=
  firstn 2 (sort_desc Nat.ltb (get_count cc) single_colors).

Definition two_color_codes : list string :=
  ["WU"; "UB"; "BR"; "RG"; "GW"; "WB"; "UR"; "BG"; "RW"; "GU"].

Definition three_color_codes : list string :=
  ["WUB"; "UBR"; "BRG"; "RGW"; "GWU"; "WBG"; "URW"; "BGU"; "RWB"; "GUR"].

Definition resolve_primary_colors (cc : gmap string nat) (archetype : string)
  : list string :=
  if String.eqb archetype "auto" then auto_colors cc
  else if mem archetype two_color_codes then chars archetype
  else if mem archetype three_color_codes then chars archetype
  else if String.prefix "MONO_" archetype then [last_char archetype]
  else if String.eqb archetype "5C" then ["W"; "U"; "B"; "R"; "G"]
  else auto_colors cc.

(** *** Scoring *)

Definition is_land (type_line : string) : bool := str_in "Land" type_line.
Definition is_creature (type_line : string) : bool := str_in "Creature" type_line.

(** [rarity_bonus.get(rarity, 0)] *)
Definition rarity_bonus (r : string) : Z :=
  default 0%Z (assoc r [("common", 0%Z); ("uncommon", 1%Z); ("rare", 2%Z);
                         ("mythic", 3%Z)]).

Definition removal_terms : list string :=
  ["destroy"; "exile"; "damage"; "-"; "fight"].

(** The body of the scoring loop: the successive updates of
    [card["score"]]. [prof] is [archetype_weights.get(archetype)]. *)
Definition score_card (prof : option profile) (primary_colors : list string)
    (c : card) : number :=
  let s := Int 0 in
  let s := if existsb (fun color => mem color primary_colors) (colors c)
           then num_add s (Int 5) else s in
  let s := if set_eqb (colors c) primary_colors
           then num_add s (Int 3) else s in
  let s := if (length (colors c) =? 0) && negb (is_land (type_line c))
           then num_add s (Int 3) else s in
  let s := num_add s (Int (rarity_bonus (rarity c))) in
  let s := if num_leb (cmc c) (Int 3) then num_add s (Int 2)
           else if num_leb (cmc c) (Int 5) then num_add s (Int 1)
           else s in
  let s := if is_creature (type_line c) then num_add s (Int 1) else s in
  let s := if str_in "Removal" (type_line c)
              || existsb (fun term => str_in term (lower (oracle_text c)))
                         removal_terms
           then num_add s (Int 2) else s in
  match prof with
  | Some p =>
      let text := lower (oracle_text c) in
      let s := fold_left (fun s keyword =>
                            if str_in keyword text then num_add s (Int 1) else s)
                         (keywords p) s in
      if is_creature (type_line c)
      then num_mul s (Float (creature_weight p))
      else num_mul s (Float (noncreature_weight p))
  | None => s
  end.

Definition score_pool (prof : option profile) (primary_colors : list string)
    (pool : list card) : list scored :=
  map (fun c => mk_scored c (score_card prof primary_colors c)) pool.

(** *** Playable cards and the selection of 23

    The lists of this part hold references to the entries of [pool_data].
    The steps are written once, over any type [A] of references with a
    [view] of the entry behind a reference and the test [same a b] for
    [a == b]; the value-level build takes the entries themselves, the
    store-level build of the last part takes locations. *)

Definition creature (p : scored) : bool := is_creature (type_line (sc_card p)).

Definition playable (primary_colors : list string) (p : scored) : bool :=
  let c := sc_card p in
  if is_land (type_line c) then true
  else (length (colors c) =? 0)
       || existsb (fun color => mem color primary_colors) (colors c)
       || forallb (fun color => mem color primary_colors) (colors c).

(** [a == b] on two entries of [pool_data]: same keys, equal values.
    (Python tries identity before equality; an entry is equal to itself
    by this test too unless one of its numbers is a NaN, and the store
    part below has the identity test.) *)
Definition scored_eqb (a b : scored) : bool :=
  let x := sc_card a in
  let y := sc_card b in
  String.eqb (name x) (name y)
  && list_eqb (colors x) (colors y)
  && num_eqb (cmc x) (cmc y)
  && String.eqb (type_line x) (type_line y)
  && String.eqb (rarity x) (rarity y)
  && String.eqb (oracle_text x) (oracle_text y)
  && String.eqb (mana_cost x) (mana_cost y)
  && num_eqb (score a) (score b).

(** [l[:23] if len(l) > 23 else l] *)
Definition top23 {A} (l : list A) : list A :=
  if 23 <? length l then firstn 23 l else l.

Section Selection.
Context {A : Type} (view : A -> scored) (same : A -> A -> bool).

Definition playable_cards (primary_colors : list string) (pool_data : list A)
  : list A :=
  sort_desc num_ltb (fun a => score (view a))
            (List.filter (fun a => playable primary_colors (view a)) pool_data).

(** [l.remove(x)]: drops the first element equal to [x]; [None] stands
    for the ValueError raised when there is none. *)
Fixpoint list_remove (x : A) (l : list A) : option (list A) :=
  match l with
  | [] => None
  | y :: l' => if same y x then Some l'
               else option_map (cons y) (list_remove x l')
  end.

(** [for _ in range(n): potential_cards.remove(non_creatures.pop(0))] *)
Fixpoint evict (n : nat) (non_creatures potential_cards : list A)
  : outcome (list A) :=
  match n with
  | O => Returns potential_cards
  | S n' =>
      match non_creatures with
      | [] => Raises IndexError
      | x :: rest =>
          match list_remove x potential_cards with
          | Some potential_cards' => evict n' rest potential_cards'
          | None => Raises (ValueError "list.remove(x): x not in list")
          end
      end
  end.

Definition select_cards (min_creatures : nat) (playable_cards : list A)
  : outcome (list A) :=
  let potential_cards := top23 playable_cards in
  let creature_count :=
    length (List.filter (fun a => creature (view a)) potential_cards) in
  potential_cards <-
    (if creature_count <? min_creatures then
       let needed_creatures := min_creatures - creature_count in
       let additional_creatures :=
         firstn needed_creatures
                (List.filter (fun a => creature (view a))
                             (skipn 23 playable_cards)) in
       let non_creatures :=
         sort_asc num_ltb (fun a => score (view a))
                  (List.filter (fun a => negb (creature (view a)))
                               potential_cards) in
       potential_cards <-
         evict (Nat.min (length additional_creatures) (length non_creatures))
               non_creatures potential_cards ;;
       Returns (potential_cards ++ additional_creatures)
     else Returns potential_cards) ;;
  Returns (top23 potential_cards).
End Selection.

(** *** The mana base *)

Definition basic_land_name (color : string) : string :=
  if String.eqb color "W" then "Plains"
  else if String.eqb color "U" then "Island"
  else if String.eqb color "B" then "Swamp"
  else if String.eqb color "R" then "Mountain"
  else if String.eqb color "G" then "Forest"
  else "Wastes".

Definition mana_symbols_init : gmap string nat :=
  list_to_map [("W", 0); ("U", 0); ("B", 0); ("R", 0); ("G", 0)].

(** The double loop that fills [mana_symbols]. *)
Definition count_symbols (primary_colors : list string) (selected_cards : list scored)
  : outcome (gmap string nat) :=
  for_each
    (fun ms p =>
       for_each (fun ms color =>
                   incr (str_count (mana_cost (sc_card p)) color) ms color)
                primary_colors ms)
    selected_cards mana_symbols_init.

(** [sum(mana_symbols[color] for color in primary_colors)] *)
Definition total_symbols (ms : gmap string nat) (primary_colors : list string)
  : outcome nat :=
  for_each (fun acc color =>
              match ms !! color with
              | Some v => Returns (acc + v)
              | None => Raises (KeyError color)
              end)
           primary_colors 0.

(** [int(lands_needed * (symbols / total))], in binary64 as Python
    evaluates it. *)
Definition land_count (lands_needed symbols total : nat) : nat :=
  Z.to_nat
    (float_trunc
       (PrimFloat.mul (float_of_Z (Z.of_nat lands_needed))
          (PrimFloat.div (float_of_Z (Z.of_nat symbols))
                         (float_of_Z (Z.of_nat total))))).

(** The lands laid out before the two correcting loops. *)
Definition initial_lands (primary_colors : list string) (ms : gmap string nat)
    (total lands_needed : nat) : outcome (list string) :=
  if total =? 0 then
    match primary_colors with
    | [color] => Returns (repeat (basic_land_name color) lands_needed)
    | [] => Raises ZeroDivisionError
    | _ =>
        let lands_per_color := lands_needed / length primary_colors in
        Returns (flat_map (fun color => repeat (basic_land_name color) lands_per_color)
                          primary_colors)
    end
  else
    Returns (flat_map
               (fun color =>
                  repeat (basic_land_name color)
                         (land_count lands_needed (get_count ms color) total))
               primary_colors).

(** [max(xs, key=...)] and [min(xs, key=...)]: the first extremum. *)
Fixpoint arg_max (key : string -> nat) (best : string) (xs : list string) : string :=
  match xs with
  | [] => best
  | x :: xs' => arg_max key (if key best <? key x then x else best) xs'
  end.

Fixpoint arg_min (key : string -> nat) (best : string) (xs : list string) : string :=
  match xs with
  | [] => best
  | x :: xs' => arg_min key (if key x <? key best then x else best) xs'
  end.

Definition py_max (key : string -> nat) (xs : list string) : outcome string :=
  match xs with
  | [] => Raises (ValueError "max() arg is an empty sequence")
  | x :: xs' => Returns (arg_max key x xs')
  end.

Definition py_min (key : string -> nat) (xs : list string) : outcome string :=
  match xs with
  | [] => Raises (ValueError "min() arg is an empty sequence")
  | x :: xs' => Returns (arg_min key x xs')
  end.

(** [while len(lands) < lands_needed: lands.append(...)]; every turn adds
    one land, so [lands_needed] turns are enough fuel. *)
Fixpoint top_up (fuel : nat) (primary_colors : list string) (ms : gmap string nat)
    (lands_needed : nat) (lands : list string) : outcome (list string) :=
  if length lands <? lands_needed then
    match fuel with
    | O => Diverges
    | S fuel' =>
        most_demanding_color <- py_max (get_count ms) primary_colors ;;
        top_up fuel' primary_colors ms lands_needed
               (lands ++ [basic_land_name most_demanding_color])
    end
  else Returns lands.

(** The inner [for i, land in enumerate(lands)] with its [pop] and
    [break]: [None] when no land has that name. *)
Fixpoint pop_first (land_name : string) (lands : list string) : option (list string) :=
  match lands with
  | [] => None
  | land :: lands' =>
      if String.eqb land land_name then Some lands'
      else option_map (cons land) (pop_first land_name lands')
  end.

(** [while len(lands) > lands_needed: ...]; a turn that finds no land of
    the least demanding color changes nothing, and the loop spins. A turn
    that finds one shortens [lands], so [len(lands)] turns are enough
    fuel. *)
Fixpoint trim (fuel : nat) (primary_colors : list string) (ms : gmap string nat)
    (lands_needed : nat) (lands : list string) : outcome (list string) :=
  if lands_needed <? length lands then
    match fuel with
    | O => Diverges
    | S fuel' =>
        least_demanding_color <- py_min (get_count ms) primary_colors ;;
        match pop_first (basic_land_name least_demanding_color) lands with
        | Some lands' => trim fuel' primary_colors ms lands_needed lands'
        | None => Diverges
        end
    end
  else Returns lands.

Definition mana_base (primary_colors : list string) (selected_cards : list scored)
  : outcome (list string) :=
  let lands_needed := 40 - length selected_cards in
  ms <- count_symbols primary_colors selected_cards ;;
  total <- total_symbols ms primary_colors ;;
  lands <- initial_lands primary_colors ms total lands_needed ;;
  lands <- top_up lands_needed primary_colors ms lands_needed lands ;;
  trim (length lands) primary_colors ms lands_needed lands.

(** *** The whole build *)

Definition default_min_creatures : nat := 14.

Definition min_creatures_of (archetype : string) : nat :=
  match assoc archetype archetype_weights with
  | Some p => min_creatures p
  | None => default_min_creatures
  end.

(** [playable_cards] after its sort, given the color counts of the pool. *)
Definition playable_of (color_counts : gmap string nat) (sealed_pool : list card)
    (archetype : string) : list scored :=
  let primary_colors := resolve_primary_colors color_counts archetype in
  let pool_data :=
    score_pool (assoc archetype archetype_weights) primary_colors sealed_pool in
  playable_cards (fun p => p) primary_colors pool_data.

(** [build_deck] up to its last line: the selected cards and the lands. *)
Definition build_parts (sealed_pool : list card) (archetype : string)
  : outcome (list scored * list string) :=
  color_counts <- count_colors sealed_pool ;;
  let primary_colors := resolve_primary_colors color_counts archetype in
  let playable := playable_of color_counts sealed_pool archetype in
  selected_cards <-
    select_cards (fun p => p) scored_eqb (min_creatures_of archetype) playable ;;
  lands <- mana_base primary_colors selected_cards ;;
  Returns (selected_cards, lands).

Definition build_deck (sealed_pool : list card) (archetype : string)
  : outcome (list entry) :=
  parts <- build_parts sealed_pool archetype ;;
  Returns (map Picked (fst parts) ++ map Basic (snd parts)).

(** ** The scoring rule in the words of the specification *)

Definition bonus (b : bool) (points : Z) : Z := if b then points else 0%Z.

Definition shares_color (primary_colors : list string) (c : card) : bool :=
  existsb (fun color => mem color primary_colors) (colors c).

Definition signals_removal (c : card) : bool :=
  str_in "Removal" (type_line c)
  || existsb (fun term => str_in term (lower (oracle_text c))) removal_terms.

Definition cost_bonus (mana_value : number) : Z :=
  if num_leb mana_value (Int 3) then 2%Z
  else if num_leb mana_value (Int 5) then 1%Z
  else 0%Z.

Definition keyword_hits (p : profile) (c : card) : Z :=
  Z.of_nat (length (List.filter (fun keyword => str_in keyword (lower (oracle_text c)))
                                (keywords p))).

Definition base_points (primary_colors : list string) (c : card) : Z :=
  (0
   + bonus (shares_color primary_colors c) 5
   + bonus (set_eqb (colors c) primary_colors) 3
   + bonus ((length (colors c) =? 0)%nat && negb (is_land (type_line c))) 3
   + rarity_bonus (rarity c)
   + cost_bonus (cmc c)
   + bonus (is_creature (type_line c)) 1
   + bonus (signals_removal c) 2)%Z.

Definition reference_score (prof : option profile) (primary_colors : list string)
    (c : card) : number :=
  match prof with
  | None => Int (base_points primary_colors c)
  | Some p =>
      let running_total := (base_points primary_colors c + keyword_hits p c)%Z in
      let weight := if is_creature (type_line c) then creature_weight p
                    else noncreature_weight p in
      Float (PrimFloat.mul (float_of_Z running_total) weight)
  end.

(** ** The random module *)

(** The generator: an unbounded stream of draws and a cursor into it. *)
Record rng := mk_rng {
  draws : nat -> N;
  cursor : nat
}.

Definition rand (A : Type) : Type := comp rng A.

Definition next_draw : rand N :=
  fun g => Returns (draws g (cursor g), mk_rng (draws g) (S (cursor g))).

(** A draw below [n]. *)
Definition randbelow (n : nat) : rand nat :=
  d <~ next_draw ;; cret (N.to_nat (d mod N.of_nat n)).

(** [l] without its element at position [i]. *)
Fixpoint drop_nth {A} (i : nat) (l : list A) : list A :=
  match l, i with
  | [], _ => []
  | _ :: l', O => l'
  | x :: l', S i' => x :: drop_nth i' l'
  end.

(** [k] positions drawn one after the other from those that remain. *)
Fixpoint sample_positions (k : nat) (remaining : list nat) : rand (list nat) :=
  match k with
  | O => cret []
  | S k' =>
      j <~ randbelow (length remaining) ;;
      rest <~ sample_positions k' (drop_nth j remaining) ;;
      cret (nth j remaining 0 :: rest)
  end.

(** The elements of [population] at the given positions. *)
Definition at_positions {A} (population : list A) (positions : list nat) : list A :=
  flat_map (fun i => match nth_error population i with
                     | Some x => [x]
                     | None => []
                     end) positions.

(** [random.sample(population, k)]: [k] elements at distinct positions. *)
Definition random_sample {A} (population : list A) (k : nat) : rand (list A) :=
  if length population <? k
  then lift (Raises (ValueError "Sample larger than population or is negative"))
  else positions <~ sample_positions k (seq 0 (length population)) ;;
       cret (at_positions population positions).

(** [random.choice(seq)] *)
Definition random_choice {A} (population : list A) : rand A :=
  i <~ randbelow (length population) ;;
  match nth_error population i with
  | Some x => cret x
  | None => lift (Raises IndexError)
  end.

(** [random.random()]: a 53-bit draw scaled into [0, 1). *)
Definition random_random : rand number :=
  d <~ next_draw ;;
  cret (Float (PrimFloat.div (float_of_Z (Z.of_N d mod 2 ^ 53))
                             (float_of_Z (2 ^ 53)))).

(** ** generate_sealed_pool

    Written over any type [A] of references to the records of
    [cards_in_set], with the rarity read behind a reference. *)

Section Pool.
Context {A : Type} (rarity_of : A -> string).

Definition has_rarity (rarities : list string) (a : A) : bool :=
  mem (rarity_of a) rarities.

(** One turn of the loop: a booster pack. *)
Definition generate_pack (cards_in_set : list A) : rand (list A) :=
  let commons := List.filter (has_rarity ["common"]) cards_in_set in
  let uncommons := List.filter (has_rarity ["uncommon"]) cards_in_set in
  let rares := List.filter (has_rarity ["rare"; "mythic"]) cards_in_set in
  picked_commons <~ random_sample commons 10 ;;
  picked_uncommons <~ random_sample uncommons 3 ;;
  picked_rares <~ random_sample rares 1 ;;
  land_slot <~ random_choice cards_in_set ;;
  cret (picked_commons ++ picked_uncommons ++ picked_rares ++ [land_slot]).

Fixpoint generate_packs (n : nat) (cards_in_set : list A) : rand (list (list A)) :=
  match n with
  | O => cret []
  | S n' =>
      pack <~ generate_pack cards_in_set ;;
      packs <~ generate_packs n' cards_in_set ;;
      cret (pack :: packs)
  end.

Definition generate_sealed_pool (cards_in_set : list A) : rand (list A) :=
  match cards_in_set with
  | [] => lift (Raises (ValueError "No cards loaded. Please load set data first."))
  | _ => packs <~ generate_packs 6 cards_in_set ;; cret (concat packs)
  end.
End Pool.

(** ** simulate_drafts *)

(** A card of a deck as [simulate_drafts] returns it, with the two keys
    it adds; a deck straight from [build_deck] has neither. *)
Record deck_card := mk_deck_card {
  dc_entry : entry;
  dc_archetype : option string;
  dc_draft_number : option nat
}.

Definition tag (archetype : string) (draft_number : nat) (e : entry) : deck_card :=
  mk_deck_card e (Some archetype) (Some draft_number).

(** [sum(archetype_distribution.values())] *)
Definition distribution_total (distribution : list (string * number)) : number :=
  fold_left num_add (map snd distribution) (Int 0).

(** The check of the distribution before the runs, with its
    normalization. *)
Definition validate_distribution (distribution : list (string * number))
  : outcome (list (string * number)) :=
  let total := distribution_total distribution in
  if negb (num_leb (Float 0.99) total && num_leb total (Float 1.01)) then
    if num_eqb total (Int 0) then Raises ZeroDivisionError
    else Returns (map (fun kv => (fst kv, num_div (snd kv) total)) distribution)
  else Returns distribution.

(** The loop over the distribution with its [break]; [current] is what
    [current_archetype] holds when no weight is reached. *)
Fixpoint choose_archetype (r cumulative : number)
    (distribution : list (string * number)) (current : string) : string :=
  match distribution with
  | [] => current
  | (arch, prob) :: rest =>
      let cumulative := num_add cumulative prob in
      if num_leb r cumulative then arch
      else choose_archetype r cumulative rest current
  end.

(** [if archetype_distribution:] is false for [None] and for [{}]. *)
Definition truthy (archetype_distribution : option (list (string * number)))
  : option (list (string * number)) :=
  match archetype_distribution with
  | Some (item :: items) => Some (item :: items)
  | _ => None
  end.

Fixpoint run_drafts (cards_in_set : list card) (runs first : nat)
    (archetype : string) (distribution : option (list (string * number)))
  : rand (list (list deck_card)) :=
  match runs with
  | O => cret []
  | S runs' =>
      sealed_pool <~ generate_sealed_pool rarity cards_in_set ;;
      current_archetype <~
        match distribution with
        | Some items =>
            r <~ random_random ;;
            cret (choose_archetype r (Int 0) items archetype)
        | None => cret archetype
        end ;;
      deck <~ lift (build_deck sealed_pool current_archetype) ;;
      all_decks <~ run_drafts cards_in_set runs' (S first) archetype distribution ;;
      cret (map (tag current_archetype first) deck :: all_decks)
  end.

Definition simulate_drafts (cards_in_set : list card) (num_drafts : nat)
    (archetype : string) (archetype_distribution : option (list (string * number)))
  : rand (list (list deck_card)) :=
  distribution <~
    match truthy archetype_distribution with
    | Some items => items' <~ lift (validate_distribution items) ;; cret (Some items')
    | None => cret None
    end ;;
  run_drafts cards_in_set num_drafts 0 archetype distribution.

(** ** analyze_drafts *)

Definition basic_land_names : list string :=
  ["Plains"; "Island"; "Swamp"; "Mountain"; "Forest"; "Wastes"].

(** [sep.join(xs)] *)
Fixpoint join (sep : string) (xs : list string) : string :=
  match xs with
  | [] => ""
  | [x] => x
  | x :: xs' => String.append x (String.append sep (join sep xs'))
  end.

(** A flattened record; the last three keys are set only when the card
    has them. *)
Record record := mk_record {
  deck_id : nat;
  card_name : string;
  record_type_line : string;
  record_archetype : string;
  draft_number : nat;
  record_colors : string;
  color_count : nat;
  record_cmc : option number;
  record_rarity : option string;
  record_score : option number
}.

Definition make_record (deck_index : nat) (card : deck_card) : record :=
  let archetype := default "auto" (dc_archetype card) in
  let draft := default 0 (dc_draft_number card) in
  match dc_entry card with
  | Picked p =>
      let c := sc_card p in
      mk_record deck_index (name c) (type_line c) archetype draft
                (match colors c with
                 | [] => "Colorless"
                 | cs => join "," cs
                 end)
                (length (colors c))
                (Some (cmc c)) (Some (rarity c)) (Some (score p))
  | Basic land =>
      mk_record deck_index land "Basic Land" archetype draft
                (if is_land "Basic Land" then "Basic Land" else "Unknown") 0
                None None None
  end.

(** The records of one deck: the basic lands are skipped by name. *)
Definition deck_records (deck_index : nat) (deck : list deck_card) : list record :=
  map (make_record deck_index)
      (List.filter (fun card => negb (mem (entry_name (dc_entry card)) basic_land_names))
                   deck).

Fixpoint records_from (deck_index : nat) (decks : list (list deck_card)) : list record :=
  match decks with
  | [] => []
  | deck :: decks' => deck_records deck_index deck ++ records_from (S deck_index) decks'
  end.

Definition card_records (decks : list (list deck_card)) : list record :=
  records_from 0 decks.

Section Counting.
Context {K : Type} (eqb : K -> K -> bool).

Fixpoint tally (k : K) (counts : list (K * nat)) : list (K * nat) :=
  match counts with
  | [] => [(k, 1)]
  | (k', n) :: counts' =>
      if eqb k' k then (k', S n) :: counts'
      else (k', n) :: tally k counts'
  end.

(** The distinct values in order of first appearance, with their
    numbers of occurrences. *)
Definition occurrences (ks : list K) : list (K * nat) :=
  fold_left (fun counts k => tally k counts) ks [].

(** [Series.value_counts()]: most frequent first. (Among equal counts
    the order here is that of first appearance; pandas promises none,
    and a dict comparison ignores it.) *)
Definition value_counts (ks : list K) : list (K * nat) :=
  sort_desc Nat.ltb snd (occurrences ks).
End Counting.

(** The values that are present and are not NaN: what [value_counts] and
    [groupby] keep of a column. *)
Definition present {K} (column : list (option K)) : list K :=
  flat_map (fun v => match v with Some k => [k] | None => [] end) column.

Definition not_nan (n : number) : bool := num_eqb n n.

(** [df.groupby("cmc").size()]: the sizes of the groups, by rising key. *)
Definition group_sizes (ks : list number) : list (number * nat) :=
  sort_asc num_ltb fst (occurrences num_eqb (List.filter not_nan ks)).

(** The metrics of the summary that the claims read. (The color and type
    distributions and the per-archetype replicas are further tallies of
    the same records.) A metric guarded by ["col" in df.columns] is
    [None] when no record has the key. *)
Record analysis := mk_analysis {
  most_common_cards : list (string * nat);
  color_distribution : list (string * nat);
  mana_curve : option (list (number * nat));
  rarity_distribution : option (list (string * nat))
}.

Definition has_column {K} (column : list (option K)) : bool :=
  existsb (fun v => match v with Some _ => true | None => false end) column.

(** A frame built from no record has no column, and [df["card_name"]]
    raises. *)
Definition analyze_drafts (decks : list (list deck_card))
  : outcome (list record * analysis) :=
  let df := card_records decks in
  match df with
  | [] => Raises (KeyError "card_name")
  | _ =>
      let cmcs := map record_cmc df in
      let rarities := map record_rarity df in
      Returns
        (df,
         mk_analysis
           (firstn 20 (value_counts String.eqb (map card_name df)))
           (value_counts String.eqb (map record_colors df))
           (if has_column cmcs then Some (group_sizes (present cmcs)) else None)
           (if has_column rarities
            then Some (value_counts String.eqb (present rarities)) else None))
  end.

(** ** The object store

    Card records are dict objects and their color lists are list objects;
    [cards_in_set], the sealed pool, [pool_data] and the deck are lists
    of references to them. The same build as above, run over references:
    each [{...}] allocates, each [card["score"] = ...] writes. *)

Definition loc := nat.

Inductive value :=
| VStr (s : string)
| VNum (n : number)
| VRef (l : loc).

Inductive object :=
| ODict (fields : gmap string value)
| OList (items : list value).

Abbreviation store := (gmap loc object).

Definition get_store : comp store store := fun h => Returns (h, h).

(** A new object, at a location that holds none. *)
Definition alloc (o : object) : comp store loc :=
  fun h => let l := fresh (dom h) in Returns (l, <[l := o]> h).

(** [d[k]] *)
Definition get_item (l : loc) (k : string) : comp store value :=
  fun h =>
    match h !! l with
    | Some (ODict d) =>
        match d !! k with
        | Some v => Returns (v, h)
        | None => Raises (KeyError k)
        end
    | _ => Raises TypeError
    end.

(** [d.get(k, default)] *)
Definition get_or (l : loc) (k : string) (default : comp store value)
  : comp store value :=
  fun h =>
    match h !! l with
    | Some (ODict d) =>
        match d !! k with
        | Some v => Returns (v, h)
        | None => default h
        end
    | _ => Raises TypeError
    end.

(** [d[k] = v] *)
Definition set_item (l : loc) (k : string) (v : value) : comp store unit :=
  fun h =>
    match h !! l with
    | Some (ODict d) => Returns (tt, <[l := ODict (<[k := v]> d)]> h)
    | _ => Raises TypeError
    end.

(** *** Reading a record behind a reference *)

Definition fields_at (h : store) (l : loc) : gmap string value :=
  match h !! l with
  | Some (ODict d) => d
  | _ => ∅
  end.

Definition str_of (v : option value) : string :=
  match v with
  | Some (VStr s) => s
  | _ => ""
  end.

Definition num_of (v : option value) : number :=
  match v with
  | Some (VNum n) => n
  | _ => Int 0
  end.

Definition strs_of (h : store) (v : option value) : list string :=
  match v with
  | Some (VRef l) =>
      match h !! l with
      | Some (OList items) => map (fun item => str_of (Some item)) items
      | _ => []
      end
  | _ => []
  end.

(** The card that the dict at [l] describes, with the defaults of
    [build_deck] for the keys it lacks. *)
Definition card_at (h : store) (l : loc) : card :=
  let d := fields_at h l in
  mk_card (str_of (d !! "name")) (strs_of h (d !! "colors")) (num_of (d !! "cmc"))
          (str_of (d !! "type_line")) (str_of (d !! "rarity"))
          (str_of (d !! "oracle_text")) (str_of (d !! "mana_cost")).

Definition scored_at (h : store) (l : loc) : scored :=
  mk_scored (card_at h l) (num_of (fields_at h l !! "score")).

(** [a == b] on two references: the same object, or equal contents. *)
Definition same_object (h : store) (a b : loc) : bool :=
  (a =? b) || scored_eqb (scored_at h a) (scored_at h b).

(** *** build_deck over the store *)

(** One element of the comprehension that builds [pool_data]. *)
Definition copy_card (card : loc) : comp store loc :=
  name <~ get_item card "name" ;;
  colors <~ get_or card "colors" (l <~ alloc (OList []) ;; cret (VRef l)) ;;
  cmc <~ get_or card "cmc" (cret (VNum (Int 0))) ;;
  type_line <~ get_or card "type_line" (cret (VStr "")) ;;
  rarity <~ get_or card "rarity" (cret (VStr "")) ;;
  oracle_text <~ get_or card "oracle_text" (cret (VStr "")) ;;
  mana_cost <~ get_or card "mana_cost" (cret (VStr "")) ;;
  alloc (ODict (list_to_map
                  [("name", name); ("colors", colors); ("cmc", cmc);
                   ("type_line", type_line); ("rarity", rarity);
                   ("oracle_text", oracle_text); ("mana_cost", mana_cost)])).

(** [card["score"] = f(card["score"])] *)
Definition update_score (card : loc) (f : number -> number) : comp store unit :=
  s <~ get_item card "score" ;;
  set_item card "score" (VNum (f (num_of (Some s)))).

Definition when (b : bool) (m : comp store unit) : comp store unit :=
  if b then m else cret tt.

Fixpoint each {A} (f : A -> comp store unit) (xs : list A) : comp store unit :=
  match xs with
  | [] => cret tt
  | x :: xs' => _ <~ f x ;; each f xs'
  end.

(** The body of the scoring loop, write by write. *)
Definition score_in_place (prof : option profile) (primary_colors : list string)
    (card : loc) : comp store unit :=
  h <~ get_store ;;
  let c := card_at h card in
  let add points := update_score card (fun s => num_add s (Int points)) in
  _ <~ set_item card "score" (VNum (Int 0)) ;;
  _ <~ when (existsb (fun color => mem color primary_colors) (colors c)) (add 5%Z) ;;
  _ <~ when (set_eqb (colors c) primary_colors) (add 3%Z) ;;
  _ <~ when ((length (colors c) =? 0) && negb (is_land (type_line c))) (add 3%Z) ;;
  _ <~ add (rarity_bonus (rarity c)) ;;
  _ <~ (if num_leb (cmc c) (Int 3) then add 2%Z
        else if num_leb (cmc c) (Int 5) then add 1%Z
        else cret tt) ;;
  _ <~ when (is_creature (type_line c)) (add 1%Z) ;;
  _ <~ when (str_in "Removal" (type_line c)
             || existsb (fun term => str_in term (lower (oracle_text c)))
                        removal_terms) (add 2%Z) ;;
  match prof with
  | Some p =>
      let text := lower (oracle_text c) in
      _ <~ each (fun keyword => when (str_in keyword text) (add 1%Z)) (keywords p) ;;
      if is_creature (type_line c)
      then update_score card (fun s => num_mul s (Float (creature_weight p)))
      else update_score card (fun s => num_mul s (Float (noncreature_weight p)))
  | None => cret tt
  end.

Definition land_object (land : string) : object :=
  ODict (list_to_map [("name", VStr land); ("type_line", VStr "Basic Land")]).

(** [build_deck] over references. The selection reads the store and
    moves references only. (Each land gets an object of its own here; the
    source shares one among the lands of a [[land] * n], which no write
    of the build can tell apart.) *)
Definition build_deck_store (sealed_pool : list loc) (archetype : string)
  : comp store (list loc) :=
  pool_data <~ map_comp copy_card sealed_pool ;;
  h <~ get_store ;;
  color_counts <~ lift (count_colors (map (card_at h) pool_data)) ;;
  let primary_colors := resolve_primary_colors color_counts archetype in
  let prof := assoc archetype archetype_weights in
  _ <~ each (score_in_place prof primary_colors) pool_data ;;
  h <~ get_store ;;
  let playable := playable_cards (scored_at h) primary_colors pool_data in
  selected_cards <~ lift (select_cards (scored_at h) (same_object h)
                                       (min_creatures_of archetype) playable) ;;
  lands <~ lift (mana_base primary_colors (map (scored_at h) selected_cards)) ;;
  land_refs <~ map_comp (fun land => alloc (land_object land)) lands ;;
  cret (selected_cards ++ land_refs).

(** The deck entry behind a reference of the returned deck. *)
Definition entry_at (h : store) (l : loc) : entry :=
  match fields_at h l !! "score" with
  | Some _ => Picked (scored_at h l)
  | None => Basic (str_of (fields_at h l !! "name"))
  end.

(** [generate_sealed_pool] over references: the pool holds references
    into [cards_in_set] themselves. *)
Definition generate_sealed_pool_store (h : store) (cards_in_set : list loc)
  : rand (list loc) :=
  generate_sealed_pool (fun l => str_of (fields_at h l !! "rarity")) cards_in_set.

(** ** Vocabulary of the statements *)

(** A deck entry that is not a land, by the test the build applies to a
    type line. *)
Definition non_land (e : entry) : bool := negb (is_land (entry_type_line e)).

(** A deck entry that bears the name of a basic land, the test of
    [analyze_drafts]. *)
Definition basic_land (e : entry) : bool := mem (entry_name e) basic_land_names.

Definition creature_entry (e : entry) : bool := is_creature (entry_type_line e).

(** The value of a call that returns ([dflt] stands in where it does
    not). *)
Definition returned {A} (dflt : A) (o : outcome A) : A :=
  match o with
  | Returns a => a
  | _ => dflt
  end.

(** Sample cards. *)
Definition card_x : card :=
  mk_card "X" ["R"] (Int 2) "Creature" "common" "" "{1}{R}".

Definition evolving_wilds : card :=
  mk_card "Evolving Wilds" [] (Int 0) "Land" "common" "" "".

Definition lightning_bolt : card :=
  mk_card "Lightning Bolt" ["R"] (Int 1) "Instant" "rare"
          "Lightning Bolt deals 3 damage to any target." "{R}".

Definition ornithopter : card :=
  mk_card "Ornithopter" [] (Int 0) "Artifact Creature" "common" "Flying" "{0}".

Definition dryad_arbor : card :=
  mk_card "Dryad Arbor" ["G"] (Int 0) "Land Creature" "uncommon" "" "".

(** The occurrences of a color's symbol over the cost strings of the
    selected cards: [mana_symbols[color]] at the end of the counting. *)
Definition symbols (color : string) (selected : list scored) : nat :=
  list_sum (map (fun p => str_count (mana_cost (sc_card p)) color) selected).

(** The lands of one color in a mana base. *)
Definition lands_of (color : string) (lands : list string) : nat :=
  length (List.filter (String.eqb (basic_land_name color)) lands).

(** [floor(lands_needed * symbols / total)], the share in exact
    arithmetic. *)
Definition exact_share (lands_needed symbols total : nat) : nat :=
  (lands_needed * symbols) / total.

(** What binary64 does to a share: [land_count] is the exact share, or,
    when the exact quotient is a whole number, possibly one below it
    (the quotient [symbols / total] is rounded before it is multiplied
    back, as in [int(22 * (15 / 22)) = 14]). *)
Definition truncation_accurate (lands_needed symbols total : nat) : Prop :=
  land_count lands_needed symbols total = exact_share lands_needed symbols total
  \/ ((lands_needed * symbols) mod total = 0
      /\ S (land_count lands_needed symbols total)
         = exact_share lands_needed symbols total).

(** The same as a test, computed on binary numbers. *)
Definition truncation_accurate_b (lands_needed symbols total : nat) : bool :=
  let product := (N.of_nat lands_needed * N.of_nat symbols)%N in
  let share := (product / N.of_nat total)%N in
  let count := N.of_nat (land_count lands_needed symbols total) in
  (count =? share)%N
  || ((product mod N.of_nat total =? 0)%N && (N.succ count =? share)%N).

(** [round(n / d)] for a positive [d]: to the nearest integer, a tie to
    the even one. *)
Definition py_round (n d : Z) : Z :=
  let q := (n / d)%Z in
  let r := (n mod d)%Z in
  if (2 * r <? d)%Z then q
  else if (d <? 2 * r)%Z then (q + 1)%Z
  else if Z.even q then q else (q + 1)%Z.

Definition azorius_charm : card :=
  mk_card "Azorius Charm" ["W"; "U"] (Int 3) "Instant" "uncommon" "" "{W}{U}{U}".

Definition gravedigger : card :=
  mk_card "Gravedigger" ["B"] (Int 4) "Creature" "common" "" "{3}{B}".

Definition grizzly_bears : card :=
  mk_card "Grizzly Bears" ["G"] (Int 2) "Creature" "common" "" "{1}{G}".

(** [xs] is [population] read at [k] positions, no position twice. *)
Definition distinct_sample {A} (population xs : list A) (k : nat) : Prop :=
  exists positions,
    List.NoDup positions /\
    length positions = k /\
    Forall (fun i => i < length population) positions /\
    xs = at_positions population positions.

(** A booster pack over a set: 10 commons, 3 uncommons and 1 rare or
    mythic, each group read at distinct positions of its tier, then one
    card of the whole set. *)
Definition is_pack {A} (rarity_of : A -> string) (cards_in_set pack : list A) : Prop :=
  exists commons uncommons rares land_slot,
    pack = commons ++ uncommons ++ rares ++ [land_slot] /\
    distinct_sample (List.filter (has_rarity rarity_of ["common"]) cards_in_set)
                    commons 10 /\
    distinct_sample (List.filter (has_rarity rarity_of ["uncommon"]) cards_in_set)
                    uncommons 3 /\
    distinct_sample (List.filter (has_rarity rarity_of ["rare"; "mythic"]) cards_in_set)
                    rares 1 /\
    In land_slot cards_in_set.

(** A small set: ten commons, three uncommons, one rare. *)
Definition sample_set : list card :=
  [card_x; gravedigger; grizzly_bears; evolving_wilds]
  ++ map (fun n => mk_card n ["R"] (Int 1) "Creature" "common" "" "{R}")
         ["Goblin Arsonist"; "Goblin Piker"; "Goblin Raider"; "Goblin Hero";
          "Goblin Glider"; "Goblin Tunneler"]
  ++ [dryad_arbor; azorius_charm;
      mk_card "Serra Angel" ["W"] (Int 5) "Creature" "uncommon" "flying, vigilance"
              "{3}{W}{W}";
      mk_card "Shivan Dragon" ["R"] (Int 6) "Creature" "rare" "flying" "{4}{R}{R}"].

(** A generator whose draws are all zero. *)
Definition zero_rng : rng := mk_rng (fun _ => 0%N) 0.

(** A distribution that falls short of 1 by less than the tolerance, and
    a generator whose draw for the first run's [random.random()] (the 91st
    draw, after the 90 of the pool) is the largest one. *)
Definition short_distribution : list (string * number) := [("WB", Float 0.995)].

Definition high_draw_rng : rng :=
  mk_rng (fun i => if i =? 90 then (2 ^ 53 - 1)%N else 0%N) 0.

(** A land card that bears the name of a basic land. *)
Definition basic_land_card (c : card) : Prop :=
  is_land (type_line c) = true /\ mem (name c) basic_land_names = true.

Definition mountain : card :=
  mk_card "Mountain" [] (Int 0) "Basic Land" "common" "({T}: Add {R}.)" "".

(** A computation that leaves every object but the one at [l] as it
    is. *)
Definition only_writes {A} (l : loc) (m : comp (gmap loc object) A) : Prop :=
  forall h a h', m h = Returns (a, h') ->
                 forall l0, l0 <> l -> h' !! l0 = h !! l0.

(** A computation that removes no object from the store. *)
Definition keeps_objects {A} (m : comp (gmap loc object) A) : Prop :=
  forall h a h', m h = Returns (a, h') ->
                 forall l, is_Some (h !! l) -> is_Some (h' !! l).

(** A record of the set as an object of the store, with its color list
    an object of its own. *)
Definition load_card (c : card) : comp (gmap loc object) loc :=
  color_list <~ alloc (OList (map VStr (colors c))) ;;
  alloc (ODict (list_to_map
                  [("name", VStr (name c)); ("colors", VRef color_list);
                   ("cmc", VNum (cmc c)); ("type_line", VStr (type_line c));
                   ("rarity", VStr (rarity c));
                   ("oracle_text", VStr (oracle_text c));
                   ("mana_cost", VStr (mana_cost c))])).

(** The sample set loaded into an empty store: the references to its
    records, and the store. *)
Definition sample_store : list loc * gmap loc object :=
  returned ([], ∅) (map_comp load_card sample_set ∅).
(** ** Vocabulary of the further properties *)

(** *** The order of binary64

    A float that is not a NaN has a place on a line: its class
    (infinities outermost, the zeros in the middle), then its exponent,
    then its mantissa, the last two reversed below zero. *)
Definition sf_rank (f : spec_float) : Z * (Z * Z) :=
  match f with
  | S754_nan => (0, (0, 0))%Z
  | S754_infinity s => if s then (-2, (0, 0))%Z else (2, (0, 0))%Z
  | S754_zero _ => (0, (0, 0))%Z
  | S754_finite s m e =>
      if s then (-1, (- e, - Z.pos m))%Z else (1, (e, Z.pos m))%Z
  end.

Definition rank_compare (a b : Z * (Z * Z)) : comparison :=
  match (fst a ?= fst b)%Z with
  | Eq => match (fst (snd a) ?= fst (snd b))%Z with
          | Eq => (snd (snd a) ?= snd (snd b))%Z
          | c => c
          end
  | c => c
  end.

Definition float_rank (f : float) : Z * (Z * Z) := sf_rank (Prim2SF f).

(** The two kinds of number, and a number of a kind that compares as a
    number should: an integer, or a float other than NaN. *)
Inductive kind := KInt | KFloat.

Definition of_kind (k : kind) (n : number) : Prop :=
  match k, n with
  | KInt, Int _ => True
  | KFloat, Float f => PrimFloat.eqb f f = true
  | _, _ => False
  end.

Definition num_rank (n : number) : Z * (Z * Z) :=
  match n with
  | Int z => (z, (0, 0))%Z
  | Float f => float_rank f
  end.

(** *** Scores *)

(** The kind of the scores of one build: integers without a profile,
    floats with one (the last update multiplies by a float weight). *)
Definition score_kind (prof : option profile) : kind :=
  match prof with
  | None => KInt
  | Some _ => KFloat
  end.

(** A running total [z] of a profile, weighted: between 0 and 35. *)
Definition weighted_in_range (p : profile) (z : Z) : bool :=
  forallb (fun w =>
             let s := Float (PrimFloat.mul (float_of_Z z) w) in
             num_leb (Int 0) s && num_leb s (Int 35))
          [creature_weight p; noncreature_weight p].

Definition profile_in_range (p : profile) : bool :=
  (length (keywords p) <=? 9)
  && forallb (weighted_in_range p) (map Z.of_nat (seq 0 26)).

(** A pool of one color: fifteen creatures and nine burn spells. *)
Definition red_pool : list card := repeat card_x 15 ++ repeat lightning_bolt 9.

(** An entry of [pool_data] whose mana value and score are of the given
    kinds, so that [==] on such entries is an equivalence. *)
Definition plain_entry (kc ks : kind) (p : scored) : Prop :=
  of_kind kc (cmc (sc_card p)) /\ of_kind ks (score p).

(** A pool without a colored symbol: a colorless creature and a card of
    each of two colors that costs nothing. *)
Definition free_pool : list card :=
  [ornithopter; dryad_arbor;
   mk_card "Ancestral Vision" ["U"] (Int 0) "Sorcery" "rare" "" ""].

(** *** The shares of the lands *)

(** [int(x)] by shifts, the same value as [float_trunc] and quicker to
    evaluate. *)
Definition float_trunc_shift (x : float) : Z :=
  match Prim2SF x with
  | S754_finite s m e =>
      let v := if (0 <=? e)%Z then Z.shiftl (Z.pos m) e
               else Z.shiftr (Z.pos m) (- e) in
      if s then (- v)%Z else v
  | _ => 0%Z
  end.

(** [land_count] on binary integers. *)
Definition land_count_Z (lands_needed symbols total : Z) : Z :=
  float_trunc_shift
    (PrimFloat.mul (float_of_Z lands_needed)
       (PrimFloat.div (float_of_Z symbols) (float_of_Z total))).

(** The share that binary64 gives does not exceed the exact one. *)
Definition share_fits (lands_needed symbols total : Z) : bool :=
  (land_count_Z lands_needed symbols total * total <=? lands_needed * symbols)%Z.

(** [f] holds of [count] integers from [from] on. *)
Fixpoint all_between (count : nat) (from : Z) (f : Z -> bool) : bool :=
  match count with
  | O => true
  | S k => f from && all_between k (from + 1) f
  end.

(** The symbols of the five colors in a cost string. *)
Definition colored_symbols (cost : string) : nat :=
  list_sum (map (str_count cost) single_colors).

(** *** The outcome of a build *)

(** The keys of [color_counts]. *)
Definition color_keys : list string := single_colors ++ ["colorless"; "multicolor"].

(** A dict of counters with exactly these keys. *)
Definition has_keys (keys : list string) (d : gmap string nat) : Prop :=
  forall k, is_Some (d !! k) <-> In k keys.

(** A card of a color that the build does not know. *)
Definition purple_card : card :=
  mk_card "Purple Hippo" ["P"] (Int 4) "Creature" "common" "" "{3}{P}".

(** A pool of three colors, four symbols in all. *)
Definition abzan_pool : list card :=
  [mk_card "Abzan Falconer" ["W"] (Float 2) "Creature" "uncommon" "" "{W}{W}";
   mk_card "Disowned Ancestor" ["B"] (Float 1) "Creature" "common" "" "{B}";
   mk_card "Longshot Squad" ["G"] (Float 3) "Creature" "common" "" "{2}{G}"].

(** A code that starts like a mono-color code and names no color. *)
Definition mono_purple : string := "MONO_P".

(** *** The counts of the pool *)

(** The times a color is listed by a card. *)
Definition listed (color : string) (c : card) : nat :=
  length (List.filter (String.eqb color) (colors c)).

(** What a card adds to the count under a key. *)
Definition credit (key : string) (c : card) : nat :=
  match colors c with
  | [] => if String.eqb key "colorless" then 1 else 0
  | [color] => if String.eqb key color then 1 else 0
  | cs => (if String.eqb key "multicolor" then 1 else 0)
          + length (List.filter (String.eqb key) cs)
  end.

(** *** Tallies *)

(** The times a value occurs in a column. *)
Definition times (k : string) (ks : list string) : nat :=
  length (List.filter (String.eqb k) ks).

(** A tally that is exact for a column: one entry for each value that
    occurs, with the number of its occurrences. *)
Definition tallied (counts : list (string * nat)) (column : list string) : Prop :=
  List.NoDup (map fst counts) /\
  (forall k n, In (k, n) counts -> n = times k column /\ 0 < n) /\
  (forall k, In k column -> In k (map fst counts)) /\
  list_sum (map snd counts) = length column.

(** Two simulated drafts over the sample set. *)
Definition sample_batch : list (list deck_card) :=
  fst (returned ([], zero_rng) (simulate_drafts sample_set 2 "RW" None zero_rng)).

(** A pool with fewer creatures than any archetype asks for: thirty
    burn spells and three creatures. *)
Definition burn_pool : list card := repeat lightning_bolt 30 ++ repeat card_x 3.

(** *** The lands as objects, and the runs over the store

    [build_deck] once more over references, now with the lands as the
    source makes them: [[{...}] * n] is one new dict referenced [n]
    times, and each [lands.append({...})] of the filling loop makes a
    dict of its own. *)

(** [[{"name": land, "type_line": "Basic Land"}] * n] *)
Definition repeat_land (land : string) (n : nat) : comp store (list loc) :=
  l <~ alloc (land_object land) ;; cret (repeat l n).

Definition initial_lands_store (primary_colors : list string) (ms : gmap string nat)
    (total lands_needed : nat) : comp store (list loc) :=
  if total =? 0 then
    match primary_colors with
    | [color] => repeat_land (basic_land_name color) lands_needed
    | [] => lift (Raises ZeroDivisionError)
    | _ =>
        let lands_per_color := lands_needed / length primary_colors in
        groups <~ map_comp (fun color =>
                              repeat_land (basic_land_name color) lands_per_color)
                           primary_colors ;;
        cret (concat groups)
    end
  else
    groups <~ map_comp
                (fun color =>
                   repeat_land (basic_land_name color)
                               (land_count lands_needed (get_count ms color) total))
                primary_colors ;;
    cret (concat groups).

Fixpoint top_up_store (fuel : nat) (primary_colors : list string)
    (ms : gmap string nat) (lands_needed : nat) (lands : list loc)
  : comp store (list loc) :=
  if length lands <? lands_needed then
    match fuel with
    | O => lift Diverges
    | S fuel' =>
        most_demanding_color <~ lift (py_max (get_count ms) primary_colors) ;;
        land <~ alloc (land_object (basic_land_name most_demanding_color)) ;;
        top_up_store fuel' primary_colors ms lands_needed (lands ++ [land])
    end
  else cret lands.

(** [v == s] for a value read from a dict. *)
Definition is_str (v : value) (s : string) : bool :=
  match v with
  | VStr s' => String.eqb s' s
  | _ => false
  end.

(** The inner [for] of the removing loop, reading [land["name"]]. *)
Fixpoint pop_first_store (land_name : string) (lands : list loc)
  : comp store (option (list loc)) :=
  match lands with
  | [] => cret None
  | land :: lands' =>
      v <~ get_item land "name" ;;
      if is_str v land_name then cret (Some lands')
      else rest <~ pop_first_store land_name lands' ;;
           cret (option_map (cons land) rest)
  end.

Fixpoint trim_store (fuel : nat) (primary_colors : list string)
    (ms : gmap string nat) (lands_needed : nat) (lands : list loc)
  : comp store (list loc) :=
  if lands_needed <? length lands then
    match fuel with
    | O => lift Diverges
    | S fuel' =>
        least_demanding_color <~ lift (py_min (get_count ms) primary_colors) ;;
        popped <~ pop_first_store (basic_land_name least_demanding_color) lands ;;
        match popped with
        | Some lands' => trim_store fuel' primary_colors ms lands_needed lands'
        | None => lift Diverges
        end
    end
  else cret lands.

Definition mana_base_store (primary_colors : list string)
    (selected_cards : list scored) : comp store (list loc) :=
  let lands_needed := 40 - length selected_cards in
  ms <~ lift (count_symbols primary_colors selected_cards) ;;
  total <~ lift (total_symbols ms primary_colors) ;;
  lands <~ initial_lands_store primary_colors ms total lands_needed ;;
  lands <~ top_up_store lands_needed primary_colors ms lands_needed lands ;;
  trim_store (length lands) primary_colors ms lands_needed lands.

Definition build_deck_shared (sealed_pool : list loc) (archetype : string)
  : comp store (list loc) :=
  pool_data <~ map_comp copy_card sealed_pool ;;
  h <~ get_store ;;
  color_counts <~ lift (count_colors (map (card_at h) pool_data)) ;;
  let primary_colors := resolve_primary_colors color_counts archetype in
  let prof := assoc archetype archetype_weights in
  _ <~ each (score_in_place prof primary_colors) pool_data ;;
  h <~ get_store ;;
  let playable := playable_cards (scored_at h) primary_colors pool_data in
  selected_cards <~ lift (select_cards (scored_at h) (same_object h)
                                       (min_creatures_of archetype) playable) ;;
  lands <~ mana_base_store primary_colors (map (scored_at h) selected_cards) ;;
  cret (selected_cards ++ lands).

(** [card["archetype"] = ...; card["draft_number"] = i] *)
Definition tag_card (archetype : string) (draft_number : nat) (card : loc)
  : comp store unit :=
  _ <~ set_item card "archetype" (VStr archetype) ;;
  set_item card "draft_number" (VNum (Int (Z.of_nat draft_number))).

(** The generator and the store together. *)
Definition world : Type := rng * store.

Definition with_rng {A} (m : rand A) : comp world A :=
  fun w =>
    match m (fst w) with
    | Returns (a, g) => Returns (a, (g, snd w))
    | Raises e => Raises e
    | Diverges => Diverges
    end.

Definition with_store {A} (m : comp store A) : comp world A :=
  fun w =>
    match m (snd w) with
    | Returns (a, h) => Returns (a, (fst w, h))
    | Raises e => Raises e
    | Diverges => Diverges
    end.

Fixpoint run_drafts_store (cards_in_set : list loc) (runs first : nat)
    (archetype : string) (distribution : option (list (string * number)))
  : comp world (list (list loc)) :=
  match runs with
  | O => cret []
  | S runs' =>
      h <~ with_store get_store ;;
      sealed_pool <~ with_rng (generate_sealed_pool_store h cards_in_set) ;;
      current_archetype <~
        match distribution with
        | Some items =>
            r <~ with_rng random_random ;;
            cret (choose_archetype r (Int 0) items archetype)
        | None => cret archetype
        end ;;
      deck <~ with_store (build_deck_shared sealed_pool current_archetype) ;;
      _ <~ with_store (each (tag_card current_archetype first) deck) ;;
      all_decks <~
        run_drafts_store cards_in_set runs' (S first) archetype distribution ;;
      cret (deck :: all_decks)
  end.

Definition simulate_drafts_store (cards_in_set : list loc) (num_drafts : nat)
    (archetype : string) (archetype_distribution : option (list (string * number)))
  : comp world (list (list loc)) :=
  distribution <~
    match truthy archetype_distribution with
    | Some items => items' <~ lift (validate_distribution items) ;; cret (Some items')
    | None => cret None
    end ;;
  run_drafts_store cards_in_set num_drafts 0 archetype distribution.


(** The land objects [refs], made since the store was [h0], are in [h]
    and bear the [names]. *)
Definition lands_in (h0 h : store) (refs : list loc) (names : list string) : Prop :=
  h0 ⊆ h /\
  Forall (fun l => h0 !! l = None) refs /\
  Forall2 (fun l name => h !! l = Some (land_object name)) refs names.

(** The card behind [l] carries the tags of run [i] with [archetype]. *)
Definition tagged (h : store) (archetype : string) (i : nat) (l : loc) : Prop :=
  fields_at h l !! "archetype" = Some (VStr archetype) /\
  fields_at h l !! "draft_number" = Some (VNum (Int (Z.of_nat i))).

(** * Properties *)

(** ** Outcomes *)

Lemma bind_returns {A B} (x : outcome A) (f : A -> outcome B) (b : B) :
  bind x f = Returns b -> exists a, x = Returns a /\ f a = Returns b.
Proof. destruct x; simpl; intros H; try discriminate. eauto. Qed.

Lemma cbind_returns {S A B} (m : comp S A) (f : A -> comp S B) st b st' :
  cbind m f st = Returns (b, st') ->
  exists a st1, m st = Returns (a, st1) /\ f a st1 = Returns (b, st').
Proof.
  unfold cbind. destruct (m st) as [[a st1]| |]; intros H; try discriminate.
  eauto.
Qed.

Lemma lift_returns {S A} (o : outcome A) (st : S) a st' :
  lift o st = Returns (a, st') -> o = Returns a /\ st' = st.
Proof. destruct o; simpl; intros H; inversion H; auto. Qed.

Ltac bind_inv H :=
  let a := fresh "a" in
  let Ha := fresh "Ha" in
  apply bind_returns in H; destruct H as (a & Ha & H).

(** ** Sorting keeps the elements *)

Section SortingFacts.
Context {A K : Type} (ltb : K -> K -> bool) (key : A -> K).

Lemma insert_asc_perm x l : Permutation (insert_asc ltb key x l) (x :: l).
Proof.
  induction l as [|y l IH]; simpl; [reflexivity|].
  destruct (ltb (key y) (key x)); [|reflexivity].
  rewrite IH. apply perm_swap.
Qed.

Lemma insert_desc_perm x l : Permutation (insert_desc ltb key x l) (x :: l).
Proof.
  induction l as [|y l IH]; simpl; [reflexivity|].
  destruct (ltb (key x) (key y)); [|reflexivity].
  rewrite IH. apply perm_swap.
Qed.

Lemma sort_asc_perm l : Permutation (sort_asc ltb key l) l.
Proof.
  induction l as [|x l IH]; simpl; [reflexivity|].
  rewrite insert_asc_perm. now constructor.
Qed.

Lemma sort_desc_perm l : Permutation (sort_desc ltb key l) l.
Proof.
  induction l as [|x l IH]; simpl; [reflexivity|].
  rewrite insert_desc_perm. now constructor.
Qed.
End SortingFacts.

Lemma filter_perm_length {A} (f : A -> bool) l l' :
  Permutation l l' -> length (List.filter f l) = length (List.filter f l').
Proof.
  induction 1; simpl; try congruence.
  - destruct (f x); simpl; congruence.
  - destruct (f x), (f y); simpl; reflexivity.
Qed.

(** ** The cut at 23 *)

Lemma top23_length {A} (l : list A) : length (top23 l) <= 23.
Proof.
  unfold top23. destruct (23 <? length l) eqn:E.
  - rewrite length_firstn. lia.
  - apply Nat.ltb_ge in E. exact E.
Qed.

Lemma top23_short {A} (l : list A) : length l <= 23 -> top23 l = l.
Proof.
  intros H. unfold top23. destruct (23 <? length l) eqn:E; [|reflexivity].
  apply Nat.ltb_lt in E. lia.
Qed.

Lemma in_firstn {A} n (l : list A) x : In x (firstn n l) -> In x l.
Proof.
  intros H. rewrite <- (firstn_skipn n l). apply in_or_app. now left.
Qed.

Lemma in_skipn {A} n (l : list A) x : In x (skipn n l) -> In x l.
Proof.
  intros H. rewrite <- (firstn_skipn n l). apply in_or_app. now right.
Qed.

Lemma top23_firstn {A} (l : list A) : top23 l = firstn 23 l.
Proof.
  unfold top23. destruct (23 <? length l) eqn:E; [reflexivity|].
  apply Nat.ltb_ge in E. symmetry. now apply firstn_all2.
Qed.

(** ** Selection *)

Section SelectionFacts.
Context {A : Type} (view : A -> scored) (same : A -> A -> bool).

Lemma list_remove_some x l l' :
  list_remove same x l = Some l' ->
  exists y, same y x = true /\ Permutation l (y :: l').
Proof.
  revert l'. induction l as [|y l IH]; simpl; intros l' H; [discriminate|].
  destruct (same y x) eqn:E.
  - inversion H; subst. exists y. split; [exact E|reflexivity].
  - destruct (list_remove same x l) as [r|] eqn:R; simpl in H; [|discriminate].
    inversion H; subst. destruct (IH r eq_refl) as (z & Hz & Hp).
    exists z. split; [exact Hz|]. rewrite Hp. apply perm_swap.
Qed.

Lemma evict_length n ncs p p' :
  evict same n ncs p = Returns p' -> length p' + n = length p.
Proof.
  revert ncs p. induction n as [|n IH]; simpl; intros ncs p H.
  - inversion H; subst. lia.
  - destruct ncs as [|x rest]; [discriminate|].
    destruct (list_remove same x p) as [q|] eqn:R; [|discriminate].
    apply IH in H. apply list_remove_some in R as (y & _ & Hp).
    apply Permutation_length in Hp. simpl in Hp. lia.
Qed.

Lemma select_cards_length m playable sel :
  select_cards view same m playable = Returns sel -> length sel <= 23.
Proof.
  unfold select_cards. intros H. bind_inv H. inversion H; subst.
  apply top23_length.
Qed.
End SelectionFacts.

(** ** The mana base *)

Lemma basic_land_name_basic color : In (basic_land_name color) basic_land_names.
Proof.
  unfold basic_land_name, basic_land_names.
  repeat match goal with
         | |- context [String.eqb ?a ?b] => destruct (String.eqb a b)
         end; simpl; auto 10.
Qed.

Lemma pop_first_length land lands lands' :
  pop_first land lands = Some lands' -> length lands = S (length lands').
Proof.
  revert lands'. induction lands as [|x l IH]; simpl; intros l' H; [discriminate|].
  destruct (String.eqb x land).
  - inversion H; subst. reflexivity.
  - destruct (pop_first land l) as [r|]; simpl in H; [|discriminate].
    inversion H; subst. simpl. f_equal. now apply IH.
Qed.

Lemma pop_first_incl land lands lands' :
  pop_first land lands = Some lands' -> incl lands' lands.
Proof.
  revert lands'. induction lands as [|x l IH]; simpl; intros l' H; [discriminate|].
  destruct (String.eqb x land).
  - inversion H; subst. apply incl_tl, incl_refl.
  - destruct (pop_first land l) as [r|]; simpl in H; [|discriminate].
    inversion H; subst. specialize (IH r eq_refl).
    intros y [->|Hy]; [now left|right; now apply IH].
Qed.

Lemma top_up_spec fuel primary ms needed lands lands' :
  top_up fuel primary ms needed lands = Returns lands' ->
  needed <= length lands' /\
  (length lands <= needed -> length lands' = needed) /\
  (needed <= length lands -> lands' = lands) /\
  (Forall (fun n => In n basic_land_names) lands ->
   Forall (fun n => In n basic_land_names) lands').
Proof.
  revert lands. induction fuel as [|fuel IH]; intros lands H; simpl in H.
  - destruct (length lands <? needed) eqn:E; [discriminate|].
    inversion H; subst. apply Nat.ltb_ge in E. repeat split; auto; lia.
  - destruct (length lands <? needed) eqn:E.
    + apply Nat.ltb_lt in E. bind_inv H. apply IH in H.
      rewrite length_app in H. simpl in H.
      destruct H as (H1 & H2 & H3 & H4). repeat split.
      * exact H1.
      * intros _. apply H2. lia.
      * intros Hle. lia.
      * intros Hb. apply H4. apply Forall_app. split; [exact Hb|].
        constructor; [apply basic_land_name_basic|constructor].
    + inversion H; subst. apply Nat.ltb_ge in E. repeat split; auto; lia.
Qed.

Lemma trim_spec fuel primary ms needed lands lands' :
  trim fuel primary ms needed lands = Returns lands' ->
  length lands' <= needed /\
  (needed <= length lands -> length lands' = needed) /\
  (length lands <= needed -> lands' = lands) /\
  incl lands' lands.
Proof.
  revert lands. induction fuel as [|fuel IH]; intros lands H; simpl in H.
  - destruct (needed <? length lands) eqn:E; [discriminate|].
    inversion H; subst. apply Nat.ltb_ge in E.
    repeat split; auto using incl_refl; lia.
  - destruct (needed <? length lands) eqn:E.
    + apply Nat.ltb_lt in E. bind_inv H.
      destruct (pop_first (basic_land_name a) lands) as [l1|] eqn:P; [|discriminate].
      apply IH in H. pose proof (pop_first_length _ _ _ P) as Hl.
      pose proof (pop_first_incl _ _ _ P) as Hi.
      destruct H as (H1 & H2 & H3 & H4). repeat split.
      * exact H1.
      * intros _. apply H2. lia.
      * intros Hle. lia.
      * eapply incl_tran; eassumption.
    + inversion H; subst. apply Nat.ltb_ge in E.
      repeat split; auto using incl_refl; lia.
Qed.

Lemma initial_lands_basic primary ms total needed lands :
  initial_lands primary ms total needed = Returns lands ->
  Forall (fun n => In n basic_land_names) lands.
Proof.
  unfold initial_lands. intros H.
  assert (G : forall (f : string -> nat) cs,
             Forall (fun n => In n basic_land_names)
                    (flat_map (fun color => repeat (basic_land_name color) (f color)) cs)).
  { intros f cs. induction cs as [|c cs IH]; simpl; [constructor|].
    apply Forall_app. split; [|exact IH].
    apply List.Forall_forall. intros x Hx. apply repeat_spec in Hx. subst.
    apply basic_land_name_basic. }
  destruct (total =? 0).
  - destruct primary as [|c [|c' cs]]; [discriminate| |]; injection H as <-.
    + apply List.Forall_forall. intros x Hx. apply repeat_spec in Hx. subst.
      apply basic_land_name_basic.
    + exact (G (fun _ => needed / length (c :: c' :: cs)) (c :: c' :: cs)).
  - injection H as <-. apply G.
Qed.

Lemma mana_base_spec primary selected lands :
  mana_base primary selected = Returns lands ->
  length lands = 40 - length selected /\
  Forall (fun n => In n basic_land_names) lands.
Proof.
  unfold mana_base. intros H.
  bind_inv H. bind_inv H. bind_inv H. bind_inv H.
  apply initial_lands_basic in Ha1.
  apply top_up_spec in Ha2 as (T1 & _ & _ & T4).
  apply trim_spec in H as (_ & R2 & _ & R4). split.
  - apply R2. exact T1.
  - specialize (T4 Ha1). rewrite !List.Forall_forall in *. intros x Hx.
    apply T4. now apply R4.
Qed.

(** ** The build as a whole *)

Lemma build_parts_inv pool arch selected lands :
  build_parts pool arch = Returns (selected, lands) ->
  exists cc,
    count_colors pool = Returns cc /\
    select_cards (fun p => p) scored_eqb (min_creatures_of arch)
                 (playable_of cc pool arch) = Returns selected /\
    mana_base (resolve_primary_colors cc arch) selected = Returns lands.
Proof.
  unfold build_parts. intros H. bind_inv H. bind_inv H. bind_inv H.
  injection H as <- <-. eauto.
Qed.

Lemma build_deck_inv pool arch deck :
  build_deck pool arch = Returns deck ->
  exists selected lands,
    build_parts pool arch = Returns (selected, lands) /\
    deck = map Picked selected ++ map Basic lands.
Proof.
  unfold build_deck. intros H. bind_inv H. destruct a as [selected lands].
  injection H as <-. eauto.
Qed.

Lemma filter_picked_le (f : entry -> bool) selected :
  length (List.filter f (map Picked selected)) <= length selected.
Proof.
  pose proof (List.filter_length_le f (map Picked selected)) as H.
  now rewrite length_map in H.
Qed.

Lemma non_land_basic lands : List.filter non_land (map Basic lands) = [].
Proof. induction lands as [|x l IH]; simpl; [reflexivity|exact IH]. Qed.

Lemma basic_land_basic lands :
  Forall (fun n => In n basic_land_names) lands ->
  List.filter basic_land (map Basic lands) = map Basic lands.
Proof.
  induction 1 as [|x l Hx _ IH]; [reflexivity|].
  assert (E : basic_land (Basic x) = true).
  { unfold basic_land, mem. apply existsb_exists. exists x.
    split; [exact Hx|apply String.eqb_refl]. }
  cbn [map List.filter]. rewrite E. now f_equal.
Qed.

(** What every returned deck looks like. *)
Lemma build_deck_shape pool arch deck :
  build_deck pool arch = Returns deck ->
  exists selected lands,
    deck = map Picked selected ++ map Basic lands /\
    length selected <= 23 /\
    length lands = 40 - length selected /\
    Forall (fun n => In n basic_land_names) lands.
Proof.
  intros H. apply build_deck_inv in H as (selected & lands & H & ->).
  apply build_parts_inv in H as (cc & _ & Hsel & Hbase).
  apply select_cards_length in Hsel. apply mana_base_spec in Hbase as (Hlen & Hbasic).
  exists selected, lands. auto.
Qed.

(** C1, the claim as stated fails: a land card of the pool is selected
    like any other card, so with the single card Evolving Wilds the deck
    holds 39 basic lands and no non-land entry, and 39 is not 40 - 0. *)
Lemma basic_lands_short_of_forty :
  exists deck,
    build_deck [evolving_wilds] "MONO_R" = Returns deck /\
    length (List.filter basic_land deck) <> 40 - length (List.filter non_land deck).
Proof.
  exists (returned [] (build_deck [evolving_wilds] "MONO_R")).
  split; [vm_compute; reflexivity|]. vm_compute. discriminate.
Qed.

(** C1, amended: a returned deck has exactly 40 entries, of which at
    most 23 are not lands; it is the cards selected from the pool (at
    most 23, lands of the pool among them) followed by basic lands that
    number 40 minus the selected cards; when no selected card is a land
    or bears a basic land's name, the basic lands number 40 minus the
    non-land entries. *)
Theorem build_deck_forty pool arch deck :
  build_deck pool arch = Returns deck ->
  length deck = 40 /\
  length (List.filter non_land deck) <= 23 /\
  exists selected lands,
    deck = map Picked selected ++ map Basic lands /\
    length selected <= 23 /\
    length lands = 40 - length selected /\
    Forall (fun n => In n basic_land_names) lands /\
    (Forall (fun p => is_land (type_line (sc_card p)) = false /\
                      mem (name (sc_card p)) basic_land_names = false) selected ->
     length (List.filter basic_land deck)
     = 40 - length (List.filter non_land deck)).
Proof.
  intros H. apply build_deck_shape in H as (selected & lands & -> & Hsel & Hlen & Hbasic).
  split; [|split].
  - rewrite length_app, !length_map. lia.
  - rewrite List.filter_app, non_land_basic, app_nil_r.
    pose proof (filter_picked_le non_land selected). lia.
  - exists selected, lands. repeat split; auto.
    intros Hfree. rewrite !List.filter_app, non_land_basic, app_nil_r.
    rewrite (basic_land_basic _ Hbasic), length_app, length_map.
    assert (E1 : List.filter basic_land (map Picked selected) = []).
    { clear -Hfree. induction Hfree as [|p l [_ Hp] _ IH]; [reflexivity|].
      cbn [map List.filter]. unfold basic_land at 1. cbn [entry_name].
      now rewrite Hp. }
    assert (E2 : List.filter non_land (map Picked selected) = map Picked selected).
    { clear -Hfree. induction Hfree as [|p l [Hp _] _ IH]; [reflexivity|].
      cbn [map List.filter]. unfold non_land at 1. cbn [entry_type_line].
      rewrite Hp. cbn [negb]. now f_equal. }
    rewrite E1, E2, length_map. simpl. lia.
Qed.

Lemma build_deck_forty_witness :
  exists deck,
    build_deck [card_x] "MONO_R" = Returns deck /\ length deck = 40.
Proof.
  exists (returned [] (build_deck [card_x] "MONO_R")).
  split; [vm_compute; reflexivity|].
  apply (build_deck_forty [card_x] "MONO_R"). vm_compute. reflexivity.
Defined.

(** ** Primary colors are never missing *)

Lemma mem_In x xs : mem x xs = true <-> In x xs.
Proof.
  unfold mem. rewrite existsb_exists. split.
  - intros (y & Hy & E). apply String.eqb_eq in E. now subst.
  - intros H. exists x. split; [exact H|apply String.eqb_refl].
Qed.

Lemma auto_colors_length cc : length (auto_colors cc) = 2.
Proof.
  unfold auto_colors. rewrite length_firstn.
  rewrite (Permutation_length (sort_desc_perm Nat.ltb (get_count cc) single_colors)).
  reflexivity.
Qed.

Lemma resolve_primary_colors_length cc arch :
  In (length (resolve_primary_colors cc arch)) [1; 2; 3; 5].
Proof.
  unfold resolve_primary_colors.
  destruct (String.eqb arch "auto").
  { rewrite auto_colors_length. simpl; auto. }
  destruct (mem arch two_color_codes) eqn:E2.
  { apply mem_In in E2. simpl in E2.
    repeat (destruct E2 as [<-|E2]; [simpl; auto|]). destruct E2. }
  destruct (mem arch three_color_codes) eqn:E3.
  { apply mem_In in E3. simpl in E3.
    repeat (destruct E3 as [<-|E3]; [simpl; auto|]). destruct E3. }
  destruct (String.prefix "MONO_" arch); [simpl; auto|].
  destruct (String.eqb arch "5C"); [simpl; auto 6|].
  rewrite auto_colors_length. simpl; auto.
Qed.

Lemma resolve_primary_colors_nonempty cc arch : resolve_primary_colors cc arch <> [].
Proof.
  intros E. pose proof (resolve_primary_colors_length cc arch) as H.
  rewrite E in H. simpl in H. intuition discriminate.
Qed.

(** ** The mana base when no colored symbol is counted *)

Lemma flat_map_repeat_length {A B} (g : A -> B) k cs :
  length (flat_map (fun c => repeat (g c) k) cs) = length cs * k.
Proof.
  induction cs as [|c cs IH]; simpl; [reflexivity|].
  rewrite length_app, repeat_length, IH. reflexivity.
Qed.

Lemma top_up_returns fuel primary ms needed lands :
  primary <> [] -> needed - length lands <= fuel ->
  exists lands', top_up fuel primary ms needed lands = Returns lands'.
Proof.
  intros Hne. revert lands. induction fuel as [|fuel IH]; intros lands Hf; simpl.
  - destruct (length lands <? needed) eqn:E; [|eauto].
    apply Nat.ltb_lt in E. lia.
  - destruct (length lands <? needed) eqn:E; [|eauto].
    apply Nat.ltb_lt in E. destruct primary as [|c cs]; [congruence|]. simpl.
    apply IH. rewrite length_app. simpl. lia.
Qed.

Lemma trim_noop fuel primary ms needed lands :
  length lands <= needed -> trim fuel primary ms needed lands = Returns lands.
Proof.
  intros H. apply Nat.ltb_ge in H. destruct fuel; simpl; now rewrite H.
Qed.

Lemma initial_lands_even primary ms needed :
  primary <> [] ->
  exists lands, initial_lands primary ms 0 needed = Returns lands /\
                length lands <= needed.
Proof.
  intros Hne. unfold initial_lands. simpl.
  destruct primary as [|c [|c' cs]]; [congruence| |].
  - eexists. split; [reflexivity|]. rewrite repeat_length. lia.
  - eexists. split; [reflexivity|].
    rewrite (flat_map_repeat_length basic_land_name). 
    apply Nat.Div0.mul_div_le.
Qed.

(** The two correcting loops end whenever the lands laid out first do
    not exceed the lands needed: the first loop fills up, the second has
    nothing to remove. *)
Lemma mana_base_returns primary selected ms total lands0 :
  primary <> [] ->
  count_symbols primary selected = Returns ms ->
  total_symbols ms primary = Returns total ->
  initial_lands primary ms total (40 - length selected) = Returns lands0 ->
  length lands0 <= 40 - length selected ->
  exists lands, mana_base primary selected = Returns lands.
Proof.
  intros Hne Hms Htot Hinit Hfit. unfold mana_base.
  rewrite Hms. simpl. rewrite Htot. simpl. rewrite Hinit. simpl.
  destruct (top_up_returns (40 - length selected) primary ms (40 - length selected)
                           lands0 Hne)
    as (lands1 & E1); [lia|].
  rewrite E1. simpl. apply top_up_spec in E1 as (_ & E1 & _).
  exists lands1. apply trim_noop. rewrite E1; [lia|exact Hfit].
Qed.

Lemma mana_base_even primary selected ms :
  primary <> [] ->
  count_symbols primary selected = Returns ms ->
  total_symbols ms primary = Returns 0 ->
  exists lands, mana_base primary selected = Returns lands.
Proof.
  intros Hne Hms Htot.
  destruct (initial_lands_even primary ms (40 - length selected) Hne) as (l0 & E0 & Hl0).
  now apply (mana_base_returns primary selected ms 0 l0).
Qed.

Lemma mana_symbols_init_lookup c :
  In c single_colors -> mana_symbols_init !! c = Some 0.
Proof.
  intros H. simpl in H.
  repeat (destruct H as [<-|H]; [reflexivity|]). destruct H.
Qed.

Lemma total_symbols_init primary :
  Forall (fun c => In c single_colors) primary ->
  total_symbols mana_symbols_init primary = Returns 0.
Proof.
  unfold total_symbols. intros H. generalize 0 as acc.
  induction H as [|c cs Hc _ IH]; intros acc; simpl; [reflexivity|].
  rewrite (mana_symbols_init_lookup c Hc). simpl. rewrite Nat.add_0_r. apply IH.
Qed.

Lemma select_cards_nil {A} (view : A -> scored) same m :
  select_cards view same m [] = Returns [].
Proof.
  unfold select_cards. simpl. destruct (0 <? m); [|reflexivity].
  rewrite firstn_nil. reflexivity.
Qed.

Lemma build_deck_empty_pool arch :
  Forall (fun c => In c single_colors)
         (resolve_primary_colors color_counts_init arch) ->
  exists lands,
    build_deck [] arch = Returns (map Basic lands) /\
    length lands = 40 /\
    Forall (fun n => In n basic_land_names) lands.
Proof.
  intros Hc.
  destruct (mana_base_even (resolve_primary_colors color_counts_init arch) []
                           mana_symbols_init)
    as (lands & Hl).
  - apply resolve_primary_colors_nonempty.
  - reflexivity.
  - now apply total_symbols_init.
  - exists lands. pose proof (mana_base_spec _ _ _ Hl) as (Hlen & Hb).
    split; [|split; [exact Hlen|exact Hb]].
    unfold build_deck, build_parts. cbn [count_colors for_each bind].
    unfold playable_of. cbn [score_pool map]. unfold playable_cards.
    cbn [List.filter sort_desc fold_right]. rewrite select_cards_nil.
    cbn [bind]. rewrite Hl. reflexivity.
Qed.

(** C2, the claim as stated fails: on the empty pool the build does not
    raise, it returns forty Mountains. *)
Lemma empty_pool_builds :
  build_deck [] "MONO_R" = Returns (repeat (Basic "Mountain") 40) /\
  ~ (exists e, build_deck [] "MONO_R" = Raises e).
Proof.
  assert (E : build_deck [] "MONO_R" = Returns (repeat (Basic "Mountain") 40))
    by (vm_compute; reflexivity).
  split; [exact E|]. intros (e & He). rewrite E in He. discriminate.
Qed.

(** C2, amended: the build has neither failure. Primary-color resolution
    yields 1, 2, 3 or 5 colors, never none; on the empty pool, for an
    archetype whose primary colors are among W, U, B, R and G, the build
    returns forty basic lands; and a deck that is returned always has
    exactly 40 entries. *)
Theorem build_deck_never_partial :
  (forall cc arch, In (length (resolve_primary_colors cc arch)) [1; 2; 3; 5]) /\
  (forall arch,
      Forall (fun c => In c single_colors)
             (resolve_primary_colors color_counts_init arch) ->
      exists lands,
        build_deck [] arch = Returns (map Basic lands) /\
        length lands = 40 /\
        Forall (fun n => In n basic_land_names) lands) /\
  (forall pool arch deck, build_deck pool arch = Returns deck -> length deck = 40).
Proof.
  split; [|split].
  - apply resolve_primary_colors_length.
  - apply build_deck_empty_pool.
  - intros pool arch deck H.
    apply build_deck_shape in H as (selected & lands & -> & Hsel & Hlen & _).
    rewrite length_app, !length_map. lia.
Qed.

Lemma build_deck_never_partial_witness :
  (exists lands, build_deck [] "WBG" = Returns (map Basic lands) /\ length lands = 40) /\
  (exists deck, build_deck [card_x; evolving_wilds] "5C" = Returns deck /\
                length deck = 40).
Proof.
  destruct build_deck_never_partial as (_ & Hempty & Hforty). split.
  - destruct (Hempty "WBG") as (lands & H1 & H2 & _).
    + vm_compute. repeat (apply List.Forall_cons; [auto 10|]). apply List.Forall_nil.
    + exists lands. auto.
  - exists (returned [] (build_deck [card_x; evolving_wilds] "5C")).
    split; [vm_compute; reflexivity|].
    apply (Hforty [card_x; evolving_wilds] "5C"). vm_compute. reflexivity.
Defined.

(** ** The score *)

Lemma keyword_fold text kws z :
  fold_left (fun s keyword => if str_in keyword text then num_add s (Int 1) else s)
            kws (Int z)
  = Int (z + Z.of_nat (length (List.filter (fun keyword => str_in keyword text) kws))).
Proof.
  revert z. induction kws as [|k kws IH]; intros z; simpl.
  - f_equal. lia.
  - destruct (str_in k text); simpl; rewrite IH; f_equal; lia.
Qed.

Lemma score_card_reference prof primary c :
  score_card prof primary c = reference_score prof primary c.
Proof.
  unfold score_card, reference_score, base_points, shares_color, signals_removal,
    cost_bonus, keyword_hits.
  generalize (existsb (fun color => mem color primary) (colors c)) as b1.
  generalize (set_eqb (colors c) primary) as b2.
  generalize ((length (colors c) =? 0) && negb (is_land (type_line c))) as b3.
  generalize (rarity_bonus (rarity c)) as r.
  generalize (num_leb (cmc c) (Int 3)) as b4.
  generalize (num_leb (cmc c) (Int 5)) as b5.
  generalize (str_in "Removal" (type_line c)
              || existsb (fun term => str_in term (lower (oracle_text c)))
                         removal_terms) as b7.
  generalize (is_creature (type_line c)) as b6.
  intros b6 b7 b5 b4 r b3 b2 b1.
  assert (E : forall z,
             match prof with
             | Some p =>
                 let text := lower (oracle_text c) in
                 let s := fold_left
                            (fun s keyword =>
                               if str_in keyword text then num_add s (Int 1) else s)
                            (keywords p) (Int z) in
                 if b6 then num_mul s (Float (creature_weight p))
                 else num_mul s (Float (noncreature_weight p))
             | None => Int z
             end
             = match prof with
               | None => Int z
               | Some p =>
                   Float (PrimFloat.mul
                            (float_of_Z (z + Z.of_nat (length (List.filter
                                 (fun keyword => str_in keyword (lower (oracle_text c)))
                                 (keywords p)))))
                            (if b6 then creature_weight p else noncreature_weight p))
               end).
  { intros z. destruct prof as [p|]; [|reflexivity]. cbv zeta.
    rewrite keyword_fold. destruct b6; reflexivity. }
  destruct b1, b2, b3, b4, b5, b6, b7; cbn [num_add bonus];
    rewrite E; destruct prof;
    match goal with
    | |- Int ?a = Int ?b => f_equal; lia
    | |- Float (PrimFloat.mul (float_of_Z ?a) _)
         = Float (PrimFloat.mul (float_of_Z ?b) _) =>
        replace a with b by lia; reflexivity
    end.
Qed.




(** ** Where the selected cards come from *)

Section SelectionOrigin.
Context {A : Type} (view : A -> scored) (same : A -> A -> bool).

Lemma evict_incl n ncs p p' :
  evict same n ncs p = Returns p' -> incl p' p.
Proof.
  revert ncs p. induction n as [|n IH]; simpl; intros ncs p H.
  - injection H as <-. apply incl_refl.
  - destruct ncs as [|x rest]; [discriminate|].
    destruct (list_remove same x p) as [q|] eqn:R; [|discriminate].
    apply IH in H. apply list_remove_some in R as (y & _ & Hp).
    intros z Hz. apply H in Hz. apply Permutation_in with (l := y :: q).
    + now symmetry.
    + now right.
Qed.

Lemma top23_incl (l : list A) : incl (top23 l) l.
Proof.
  rewrite top23_firstn. intros x Hx. now apply in_firstn in Hx.
Qed.

Lemma select_cards_incl m playable sel :
  select_cards view same m playable = Returns sel -> incl sel playable.
Proof.
  unfold select_cards. intros H. bind_inv H. injection H as <-.
  eapply incl_tran; [apply top23_incl|].
  destruct (_ <? m).
  - bind_inv Ha. injection Ha as <-. apply evict_incl in Ha0.
    apply incl_app.
    + eapply incl_tran; [exact Ha0|apply top23_incl].
    + intros x Hx. apply in_firstn in Hx.
      apply filter_In in Hx as [Hx _]. now apply in_skipn in Hx.
  - injection Ha as <-. apply top23_incl.
Qed.

Lemma playable_cards_incl primary pool_data :
  incl (playable_cards view primary pool_data) pool_data.
Proof.
  unfold playable_cards. intros x Hx.
  eapply Permutation_in in Hx; [|apply sort_desc_perm].
  now apply filter_In in Hx as [Hx _].
Qed.
End SelectionOrigin.






(** ** The creature quota *)

Lemma min_creatures_of_le arch : min_creatures_of arch <= 20.
Proof.
  unfold min_creatures_of, archetype_weights, default_min_creatures. simpl.
  repeat match goal with
         | |- context [String.eqb arch ?k] => destruct (String.eqb arch k)
         end; simpl; lia.
Qed.

Section Quota.
Context {A : Type} (view : A -> scored) (same : A -> A -> bool).
Hypothesis same_creature :
  forall a b, same a b = true -> creature (view a) = creature (view b).

Let is_cr (a : A) : bool := creature (view a).
Let creatures (l : list A) : nat := length (List.filter is_cr l).

Lemma evict_keeps_creatures n ncs p p' :
  Forall (fun a => is_cr a = false) ncs ->
  evict same n ncs p = Returns p' -> creatures p' = creatures p.
Proof.
  revert ncs p. induction n as [|n IH]; simpl; intros ncs p Hnc H.
  - now injection H as <-.
  - destruct ncs as [|x rest]; [discriminate|].
    destruct (list_remove same x p) as [q|] eqn:R; [|discriminate].
    inversion Hnc as [|? ? Hx Hrest]; subst.
    apply (IH _ _ Hrest) in H. rewrite H.
    apply list_remove_some in R as (y & Hy & Hp).
    unfold creatures. rewrite (filter_perm_length is_cr _ _ Hp). simpl.
    apply same_creature in Hy. unfold is_cr in Hx |- *. rewrite Hy, Hx.
    reflexivity.
Qed.

Lemma creatures_app l l' : creatures (l ++ l') = creatures l + creatures l'.
Proof. unfold creatures. now rewrite List.filter_app, length_app. Qed.

Lemma filter_split (f : A -> bool) l :
  length (List.filter f l) + length (List.filter (fun a => negb (f a)) l)
  = length l.
Proof.
  induction l as [|x l IH]; simpl; [reflexivity|].
  destruct (f x); simpl; lia.
Qed.

Lemma all_creatures l :
  Forall (fun a => is_cr a = true) l -> creatures l = length l.
Proof.
  unfold creatures. induction 1 as [|x l Hx _ IH]; simpl; [reflexivity|].
  rewrite Hx. simpl. now f_equal.
Qed.

Lemma select_cards_quota m playable sel :
  m <= 23 ->
  select_cards view same m playable = Returns sel ->
  m <= creatures playable ->
  m <= creatures sel.
Proof.
  intros Hm H Hpl. unfold select_cards in H. bind_inv H. injection H as <-.
  change (fun a => creature (view a)) with is_cr in Ha.
  change (length (List.filter is_cr (top23 playable)))
    with (creatures (top23 playable)) in Ha.
  assert (Hsplit : creatures playable
                   = creatures (top23 playable) + creatures (skipn 23 playable)).
  { rewrite <- (firstn_skipn 23 playable) at 1.
    rewrite creatures_app, top23_firstn. reflexivity. }
  destruct (creatures (top23 playable) <? m) eqn:E.
  - apply Nat.ltb_lt in E. bind_inv Ha. injection Ha as <-.
    set (c := creatures (top23 playable)) in *.
    match type of Ha0 with
    | evict _ (Nat.min (length ?e) (length ?n)) _ _ = _ =>
        set (extra := e) in *; set (ncs := n) in *
    end.
    assert (Hextra : length extra = m - c).
    { unfold extra. rewrite length_firstn. fold (creatures (skipn 23 playable)). lia. }
    assert (Hlong : 23 < length playable).
    { destruct (Nat.le_gt_cases (length playable) 23) as [Hle|Hgt]; [|exact Hgt].
      rewrite (skipn_all2 _ Hle) in Hsplit.
      assert (creatures [] = 0) by reflexivity. lia. }
    assert (Htop : length (top23 playable) = 23).
    { rewrite top23_firstn, length_firstn. lia. }
    assert (Hncs : length ncs = 23 - c).
    { unfold ncs. rewrite (Permutation_length (sort_asc_perm _ _ _)).
      pose proof (filter_split is_cr (top23 playable)) as Hs.
      fold (creatures (top23 playable)) in Hs. fold c in Hs.
      unfold is_cr in Hs. lia. }
    assert (Hnc : Forall (fun a => is_cr a = false) ncs).
    { apply List.Forall_forall. intros x Hx. unfold ncs in Hx.
      eapply Permutation_in in Hx; [|apply sort_asc_perm].
      apply filter_In in Hx as [_ Hx]. now apply negb_true_iff in Hx. }
    pose proof (evict_keeps_creatures _ _ _ _ Hnc Ha0) as Hkeep.
    pose proof (evict_length same _ _ _ _ Ha0) as Hlen.
    rewrite Hextra, Hncs in Hlen.
    assert (Hcr : creatures extra = length extra).
    { apply all_creatures. apply List.Forall_forall. intros x Hx.
      unfold extra in Hx. apply in_firstn in Hx.
      now apply filter_In in Hx as [_ Hx]. }
    rewrite top23_short; [|rewrite length_app; lia].
    rewrite creatures_app, Hkeep, Hcr, Hextra. fold c. lia.
  - apply Nat.ltb_ge in E. injection Ha as <-.
    rewrite top23_short; [exact E|apply top23_length].
Qed.
End Quota.

Lemma scored_eqb_type_line a b :
  scored_eqb a b = true -> type_line (sc_card a) = type_line (sc_card b).
Proof.
  unfold scored_eqb. intros H. repeat (apply andb_prop in H as [H ?]).
  now apply String.eqb_eq.
Qed.

Lemma scored_eqb_creature a b : scored_eqb a b = true -> creature a = creature b.
Proof. intros H. unfold creature. now rewrite (scored_eqb_type_line a b H). Qed.

Lemma creature_entries selected lands :
  length (List.filter creature_entry (map Picked selected ++ map Basic lands))
  = length (List.filter creature selected).
Proof.
  rewrite List.filter_app, length_app.
  assert (E : List.filter creature_entry (map Basic lands) = []).
  { induction lands as [|x l IH]; simpl; [reflexivity|exact IH]. }
  rewrite E. simpl. rewrite Nat.add_0_r.
  induction selected as [|p l IH]; simpl; [reflexivity|].
  unfold creature_entry at 1. simpl. fold (creature p).
  destruct (creature p); simpl; now rewrite IH.
Qed.

(** C4, the claim as stated fails: a card that is both a land and a
    creature counts toward the quota of the build, yet is no non-land
    entry. Fourteen copies of Dryad Arbor are fourteen playable
    creatures, and the deck has no creature among its non-land entries. *)
Lemma land_creatures_fill_the_quota :
  let pool := repeat dryad_arbor 14 in
  exists cc deck,
    count_colors pool = Returns cc /\
    build_deck pool "auto" = Returns deck /\
    min_creatures_of "auto" <= length (List.filter creature (playable_of cc pool "auto")) /\
    length (List.filter (fun e => creature_entry e && non_land e) deck)
    < min_creatures_of "auto".
Proof.
  intros pool.
  exists (returned ∅ (count_colors pool)), (returned [] (build_deck pool "auto")).
  split; [vm_compute; reflexivity|].
  split; [vm_compute; reflexivity|].
  split; vm_compute; lia.
Qed.

(** C4, amended: when the playable cards of the pool hold at least
    [min_creatures] creatures (cards whose type line contains
    "Creature", a land creature included), a returned deck holds at
    least [min_creatures] such cards among its entries. *)
Theorem build_deck_creature_quota pool arch cc deck :
  count_colors pool = Returns cc ->
  build_deck pool arch = Returns deck ->
  min_creatures_of arch <= length (List.filter creature (playable_of cc pool arch)) ->
  min_creatures_of arch <= length (List.filter creature_entry deck).
Proof.
  intros Hcc H Hq. apply build_deck_inv in H as (selected & lands & H & ->).
  apply build_parts_inv in H as (cc' & Hcc' & Hsel & _).
  rewrite Hcc in Hcc'. injection Hcc' as <-.
  rewrite creature_entries.
  apply (select_cards_quota (fun p => p) scored_eqb scored_eqb_creature
                            (min_creatures_of arch) (playable_of cc pool arch)).
  - pose proof (min_creatures_of_le arch). lia.
  - exact Hsel.
  - exact Hq.
Qed.

(** Twenty instants outscore fourteen creatures: eleven instants are
    evicted for eleven creatures of the remainder. *)
Lemma build_deck_creature_quota_witness :
  let pool := repeat lightning_bolt 20 ++ repeat ornithopter 14 in
  let deck := returned [] (build_deck pool "auto") in
  build_deck pool "auto" = Returns deck /\
  length (List.filter creature_entry (firstn 23 deck)) = 14 /\
  14 <= length (List.filter creature_entry deck).
Proof.
  intros pool deck.
  split; [vm_compute; reflexivity|]. split; [vm_compute; reflexivity|].
  apply (build_deck_creature_quota pool "auto" (returned ∅ (count_colors pool))).
  - vm_compute. reflexivity.
  - vm_compute. reflexivity.
  - vm_compute. lia.
Defined.

(** ** The mana base of two colors *)

Lemma top_up_closed fuel primary ms needed lands mx :
  py_max (get_count ms) primary = Returns mx ->
  needed - length lands <= fuel ->
  top_up fuel primary ms needed lands
  = Returns (lands ++ repeat (basic_land_name mx) (needed - length lands)).
Proof.
  intros Hmx. revert lands. induction fuel as [|fuel IH]; intros lands Hf; simpl.
  - destruct (length lands <? needed) eqn:E.
    + apply Nat.ltb_lt in E. lia.
    + apply Nat.ltb_ge in E. replace (needed - length lands) with 0 by lia.
      simpl. now rewrite app_nil_r.
  - destruct (length lands <? needed) eqn:E.
    + apply Nat.ltb_lt in E. rewrite Hmx. simpl. rewrite IH.
      * rewrite length_app. simpl.
        replace (needed - length lands) with (S (needed - (length lands + 1))) by lia.
        simpl. now rewrite <- app_assoc.
      * rewrite length_app. simpl. lia.
    + apply Nat.ltb_ge in E. replace (needed - length lands) with 0 by lia.
      simpl. now rewrite app_nil_r.
Qed.

Lemma incr_inv n (d d' : gmap string nat) k :
  incr n d k = Returns d' -> exists v, d !! k = Some v /\ d' = <[k := v + n]> d.
Proof.
  unfold incr. destruct (d !! k) as [v|] eqn:E; intros H; [|discriminate].
  injection H as <-. eauto.
Qed.

Lemma count_symbols_two c1 c2 selected (ms0 ms : gmap string nat) x y :
  c1 <> c2 ->
  ms0 !! c1 = Some x -> ms0 !! c2 = Some y ->
  for_each
    (fun ms p =>
       for_each (fun ms color => incr (str_count (mana_cost (sc_card p)) color) ms color)
                [c1; c2] ms)
    selected ms0 = Returns ms ->
  ms !! c1 = Some (x + symbols c1 selected) /\
  ms !! c2 = Some (y + symbols c2 selected).
Proof.
  intros Hne. revert ms0 x y. induction selected as [|p sel IH]; intros ms0 x y H1 H2 H.
  - simpl in H. injection H as <-. unfold symbols. simpl. rewrite !Nat.add_0_r. auto.
  - simpl in H. bind_inv H. bind_inv Ha. bind_inv Ha. injection Ha as <-.
    apply incr_inv in Ha0 as (v1 & E1 & ->). apply incr_inv in Ha1 as (v2 & E2 & ->).
    rewrite H1 in E1. injection E1 as <-.
    rewrite lookup_insert_ne in E2 by exact Hne. rewrite H2 in E2. injection E2 as <-.
    apply (IH _ (x + str_count (mana_cost (sc_card p)) c1)
              (y + str_count (mana_cost (sc_card p)) c2)) in H.
    + unfold symbols in *. simpl. rewrite !Nat.add_assoc. exact H.
    + rewrite lookup_insert_ne by congruence. apply lookup_insert_eq.
    + apply lookup_insert_eq.
Qed.

Lemma filter_repeat_eq (x : string) n :
  List.filter (String.eqb x) (repeat x n) = repeat x n.
Proof.
  induction n as [|n IH]; simpl; [reflexivity|].
  rewrite String.eqb_refl. now f_equal.
Qed.

Lemma filter_repeat_neq (x y : string) n :
  x <> y -> List.filter (String.eqb x) (repeat y n) = [].
Proof.
  intros H. apply String.eqb_neq in H.
  induction n as [|n IH]; simpl; [reflexivity|]. now rewrite H.
Qed.

Lemma basic_land_name_inj c1 c2 :
  In c1 single_colors -> In c2 single_colors ->
  basic_land_name c1 = basic_land_name c2 -> c1 = c2.
Proof.
  intros H1 H2. simpl in H1, H2.
  repeat (destruct H1 as [<-|H1]; [|]);
    repeat (destruct H2 as [<-|H2]; [|]);
    try contradiction; vm_compute; intros E; try reflexivity; discriminate.
Qed.

Lemma sorted_single_colors cc :
  List.NoDup (sort_desc Nat.ltb (get_count cc) single_colors) /\
  incl (sort_desc Nat.ltb (get_count cc) single_colors) single_colors.
Proof.
  pose proof (sort_desc_perm Nat.ltb (get_count cc) single_colors) as P. split.
  - eapply Permutation.Permutation_NoDup; [symmetry; exact P|].
    unfold single_colors. repeat constructor; simpl; intuition discriminate.
  - intros x Hx. eapply Permutation_in; eassumption.
Qed.

Lemma auto_colors_two cc c1 c2 :
  auto_colors cc = [c1; c2] ->
  c1 <> c2 /\ In c1 single_colors /\ In c2 single_colors.
Proof.
  unfold auto_colors. destruct (sorted_single_colors cc) as (Hnd & Hin).
  destruct (sort_desc Nat.ltb (get_count cc) single_colors) as [|x [|y l]];
    simpl; intros E; try discriminate.
  injection E as -> ->. repeat split.
  - inversion Hnd as [|? ? Hx _]; subst. intros ->. apply Hx. now left.
  - apply Hin. now left.
  - apply Hin. right. now left.
Qed.

Lemma resolve_two_colors cc arch c1 c2 :
  resolve_primary_colors cc arch = [c1; c2] ->
  c1 <> c2 /\ In c1 single_colors /\ In c2 single_colors.
Proof.
  unfold resolve_primary_colors.
  destruct (String.eqb arch "auto"); [apply auto_colors_two|].
  destruct (mem arch two_color_codes) eqn:E2.
  { apply mem_In in E2. simpl in E2. intros E.
    repeat (destruct E2 as [<-|E2];
            [simpl in E; injection E as <- <-;
             repeat split; simpl; auto 6; discriminate|]).
    destruct E2. }
  destruct (mem arch three_color_codes) eqn:E3.
  { apply mem_In in E3. simpl in E3. intros E.
    repeat (destruct E3 as [<-|E3]; [discriminate|]). destruct E3. }
  destruct (String.prefix "MONO_" arch); [discriminate|].
  destruct (String.eqb arch "5C"); [discriminate|].
  apply auto_colors_two.
Qed.

Lemma two_shares_arith (a b f1 f2 : nat) :
  0 < a + b ->
  (f1 = (17 * a) / (a + b) \/ ((17 * a) mod (a + b) = 0 /\ S f1 = (17 * a) / (a + b))) ->
  (f2 = (17 * b) / (a + b) \/ ((17 * b) mod (a + b) = 0 /\ S f2 = (17 * b) / (a + b))) ->
  f1 + f2 <= 17 /\
  (Z.abs (Z.of_nat (f1 + (if (a <? b)%nat then 0 else 17 - f1 - f2)%nat)
          - py_round (17 * Z.of_nat a) (Z.of_nat (a + b))) <= 1)%Z.
Proof.
  intros Ht H1 H2.
  pose proof (Nat.div_mod_eq (17 * a) (a + b)) as D1.
  pose proof (Nat.div_mod_eq (17 * b) (a + b)) as D2.
  pose proof (Nat.mod_upper_bound (17 * a) (a + b) ltac:(lia)) as B1.
  pose proof (Nat.mod_upper_bound (17 * b) (a + b) ltac:(lia)) as B2.
  unfold py_round.
  replace (17 * Z.of_nat a)%Z with (Z.of_nat (17 * a)) by lia.
  rewrite <- Nat2Z.inj_div, <- Nat2Z.inj_mod.
  set (e1 := (17 * a) / (a + b)) in *. set (r1 := (17 * a) mod (a + b)) in *.
  set (e2 := (17 * b) / (a + b)) in *. set (r2 := (17 * b) mod (a + b)) in *.
  set (t := a + b) in *.
  assert (Hsum : t * (e1 + e2) + (r1 + r2) = 17 * t) by (unfold t; lia).
  assert (Hcases : (e1 + e2 = 17 /\ r1 = 0 /\ r2 = 0) \/ (e1 + e2 = 16 /\ r1 + r2 = t)).
  { assert (e1 + e2 <= 17) by nia. assert (16 <= e1 + e2) by nia.
    destruct (Nat.eq_dec (e1 + e2) 17) as [E|E]; [left|right]; nia. }
  assert (Hr2 : r1 = 0 -> r2 = 0) by (intros; lia).
  assert (Hr1 : r2 = 0 -> r1 = 0) by (intros; lia).
  split.
  - lia.
  - destruct (a <? b) eqn:Eab;
      destruct (2 * Z.of_nat r1 <? Z.of_nat t)%Z eqn:Er;
      [|destruct (Z.of_nat t <? 2 * Z.of_nat r1)%Z eqn:Er'; [|destruct (Z.even (Z.of_nat e1))]
       | |destruct (Z.of_nat t <? 2 * Z.of_nat r1)%Z eqn:Er'; [|destruct (Z.even (Z.of_nat e1))]];
      try apply Z.ltb_lt in Er; try apply Z.ltb_ge in Er;
      try apply Z.ltb_lt in Er'; try apply Z.ltb_ge in Er'; lia.
Qed.

Lemma mana_base_two c1 c2 selected lands :
  c1 <> c2 -> In c1 single_colors -> In c2 single_colors ->
  0 < symbols c1 selected + symbols c2 selected ->
  land_count (40 - length selected) (symbols c1 selected)
             (symbols c1 selected + symbols c2 selected)
  + land_count (40 - length selected) (symbols c2 selected)
               (symbols c1 selected + symbols c2 selected)
  <= 40 - length selected ->
  mana_base [c1; c2] selected = Returns lands ->
  lands_of c1 lands
  = land_count (40 - length selected) (symbols c1 selected)
               (symbols c1 selected + symbols c2 selected)
    + (if symbols c1 selected <? symbols c2 selected then 0
       else 40 - length selected
            - land_count (40 - length selected) (symbols c1 selected)
                         (symbols c1 selected + symbols c2 selected)
            - land_count (40 - length selected) (symbols c2 selected)
                         (symbols c1 selected + symbols c2 selected)).
Proof.
  intros Hne H1 H2 Hpos Hfit H.
  set (a := symbols c1 selected) in *. set (b := symbols c2 selected) in *.
  set (L := 40 - length selected) in *.
  unfold mana_base in H. fold L in H. bind_inv H.
  rename a0 into ms. unfold count_symbols in Ha.
  apply (count_symbols_two c1 c2 selected _ _ 0 0 Hne
           (mana_symbols_init_lookup c1 H1) (mana_symbols_init_lookup c2 H2))
    in Ha as (M1 & M2).
  simpl in M1, M2. fold a in M1. fold b in M2.
  assert (G1 : get_count ms c1 = a) by (unfold get_count; now rewrite M1).
  assert (G2 : get_count ms c2 = b) by (unfold get_count; now rewrite M2).
  unfold total_symbols in H. simpl in H. rewrite M1 in H. simpl in H.
  rewrite M2 in H. simpl in H.
  unfold initial_lands in H.
  destruct (a + b =? 0) eqn:E0; [apply Nat.eqb_eq in E0; lia|].
  cbn [bind flat_map] in H. rewrite G1, G2, app_nil_r in H.
  set (f1 := land_count L a (a + b)) in *. set (f2 := land_count L b (a + b)) in *.
  set (mx := if a <? b then c2 else c1).
  assert (Hmx : py_max (get_count ms) [c1; c2] = Returns mx).
  { simpl. rewrite G1, G2. reflexivity. }
  rewrite (top_up_closed L [c1; c2] ms L _ mx Hmx) in H by lia.
  cbn [bind] in H. rewrite trim_noop in H.
  2:{ rewrite !length_app, !repeat_length. lia. }
  injection H as <-. unfold lands_of.
  assert (N12 : basic_land_name c1 <> basic_land_name c2).
  { intros E. apply Hne. now apply basic_land_name_inj. }
  rewrite !List.filter_app, !length_app, filter_repeat_eq, (filter_repeat_neq _ _ f2 N12).
  rewrite !repeat_length. simpl. rewrite Nat.add_0_r.
  unfold mx. destruct (a <? b).
  - rewrite filter_repeat_neq by exact N12. simpl. lia.
  - rewrite filter_repeat_eq, repeat_length. lia.
Qed.



(** The premise on binary64, checked by evaluation for every pair of
    counts up to 400 symbols. *)
Lemma truncation_accurate_b_true lands_needed s t :
  truncation_accurate_b lands_needed s t = true ->
  truncation_accurate lands_needed s t.
Proof.
  unfold truncation_accurate_b, truncation_accurate, exact_share. intros H.
  rewrite <- Nat2N.inj_mul, <- Nat2N.inj_div, <- Nat2N.inj_mod in H.
  rewrite <- Nat2N.inj_succ in H.
  apply orb_prop in H as [H|H].
  - left. apply N.eqb_eq in H. now apply Nat2N.inj.
  - right. apply andb_prop in H as [H1 H2].
    apply N.eqb_eq in H1, H2. change 0%N with (N.of_nat 0) in H1.
    split; now apply Nat2N.inj.
Qed.

Lemma truncation_checked :
  forallb (fun t => forallb (fun s => truncation_accurate_b 17 s t) (seq 0 (S t)))
          (seq 1 400) = true.
Proof. vm_compute. reflexivity. Qed.

Lemma truncation_accurate_small s t :
  0 < t <= 400 -> s <= t -> truncation_accurate 17 s t.
Proof.
  intros Ht Hs. apply truncation_accurate_b_true.
  pose proof truncation_checked as H.
  rewrite forallb_forall in H. specialize (H t).
  rewrite forallb_forall in H. apply H.
  - apply in_seq. lia.
  - apply in_seq. lia.
Qed.

(** C5 without the premise on binary64, for builds whose selected cards
    hold at most 400 symbols of the two colors. *)
Lemma two_color_lands_near_share_small pool arch cc selected lands c1 c2 :
  count_colors pool = Returns cc ->
  resolve_primary_colors cc arch = [c1; c2] ->
  build_parts pool arch = Returns (selected, lands) ->
  length selected = 23 ->
  0 < symbols c1 selected + symbols c2 selected <= 400 ->
  (Z.abs (Z.of_nat (lands_of c1 lands)
          - py_round (17 * Z.of_nat (symbols c1 selected))
                     (Z.of_nat (symbols c1 selected + symbols c2 selected)))
   <= 1)%Z.
Proof.
  intros Hcc Hres H H23 Hsym.
  apply build_parts_inv in H as (cc' & Hcc' & _ & Hbase).
  rewrite Hcc in Hcc'. injection Hcc' as <-. rewrite Hres in Hbase.
  destruct (resolve_two_colors _ _ _ _ Hres) as (Hne & H1 & H2).
  set (a := symbols c1 selected) in *. set (b := symbols c2 selected) in *.
  pose proof (truncation_accurate_small a (a + b) ltac:(lia) ltac:(lia)) as A1.
  pose proof (truncation_accurate_small b (a + b) ltac:(lia) ltac:(lia)) as A2.
  destruct (two_shares_arith a b _ _ ltac:(lia) A1 A2) as (Hfit & Hnear).
  pose proof (mana_base_two c1 c2 selected lands Hne H1 H2 ltac:(fold a b; lia)) as Hcount.
  rewrite H23 in Hcount. change (40 - 23) with 17 in Hcount. fold a b in Hcount.
  rewrite (Hcount Hfit Hbase). exact Hnear.
Qed.

(** ** Resolving the archetype code *)

Section DescendingOrder.
Context {A : Type} (key : A -> nat).

Let above (x y : A) : Prop := key y <= key x.

Lemma insert_desc_sorted x l :
  StronglySorted above l -> StronglySorted above (insert_desc Nat.ltb key x l).
Proof.
  induction 1 as [|y l Hs IH Hy]; simpl.
  - repeat constructor.
  - destruct (key x <? key y) eqn:E.
    + apply Nat.ltb_lt in E. constructor; [exact IH|].
      apply List.Forall_forall. intros z Hz.
      eapply Permutation_in in Hz; [|apply insert_desc_perm].
      destruct Hz as [<-|Hz]; [unfold above; lia|].
      rewrite List.Forall_forall in Hy. now apply Hy.
    + apply Nat.ltb_ge in E. constructor; [now constructor|].
      constructor; [exact E|].
      rewrite List.Forall_forall in Hy |- *. intros z Hz.
      specialize (Hy z Hz). unfold above in *. lia.
Qed.

Lemma sort_desc_sorted l : StronglySorted above (sort_desc Nat.ltb key l).
Proof.
  induction l as [|x l IH]; simpl; [constructor|].
  now apply insert_desc_sorted.
Qed.

Lemma sort_desc_top_two l c1 c2 :
  firstn 2 (sort_desc Nat.ltb key l) = [c1; c2] ->
  key c2 <= key c1 /\
  forall c, In c l -> c <> c1 -> c <> c2 -> key c <= key c2.
Proof.
  pose proof (sort_desc_sorted l) as Hs.
  pose proof (sort_desc_perm Nat.ltb key l) as Hp.
  destruct (sort_desc Nat.ltb key l) as [|x [|y r]]; simpl; intros E; try discriminate.
  injection E as -> ->.
  inversion Hs as [|? ? Hs1 H1]; subst. inversion Hs1 as [|? ? _ H2]; subst.
  inversion H1 as [|? ? H12 _]; subst. split; [exact H12|].
  intros c Hc N1 N2. eapply Permutation_in in Hc; [|symmetry; exact Hp].
  destruct Hc as [->|[->|Hc]]; try congruence.
  rewrite List.Forall_forall in H2. now apply H2.
Qed.
End DescendingOrder.

Lemma auto_colors_top cc :
  exists c1 c2,
    auto_colors cc = [c1; c2] /\
    c1 <> c2 /\ In c1 single_colors /\ In c2 single_colors /\
    get_count cc c2 <= get_count cc c1 /\
    forall c, In c single_colors -> c <> c1 -> c <> c2 ->
              get_count cc c <= get_count cc c2.
Proof.
  pose proof (auto_colors_length cc) as Hl.
  destruct (auto_colors cc) as [|c1 [|c2 [|? ?]]] eqn:E; try discriminate.
  exists c1, c2. split; [reflexivity|].
  destruct (auto_colors_two cc c1 c2 E) as (Hne & H1 & H2).
  destruct (sort_desc_top_two (get_count cc) single_colors c1 c2 E) as (Hle & Hrest).
  auto 6.
Qed.

(** C6, the claim as stated fails: a two-letter code over the five
    letters that is not one of the ten listed ones is not read letter by
    letter. "UW" falls back to the count of the pool, here black and
    green. *)
Lemma unlisted_pair_falls_back :
  exists cc,
    count_colors [gravedigger; grizzly_bears] = Returns cc /\
    resolve_primary_colors cc "UW" = ["B"; "G"] /\
    resolve_primary_colors cc "UW" <> chars "UW".
Proof.
  exists (returned ∅ (count_colors [gravedigger; grizzly_bears])).
  split; [vm_compute; reflexivity|].
  split; [vm_compute; reflexivity|]. vm_compute. discriminate.
Qed.

(** C6, amended: the ten listed two-letter codes and the ten listed
    three-letter codes resolve to their letters, in order; "MONO_" and
    one more character resolve to that character; "5C" resolves to the
    five colors; "auto" and every code that is none of these (other
    orders or pairs of the five letters included) resolve to the two
    single colors with the highest counts in the pool. *)
Theorem primary_color_resolution cc arch :
  (In arch two_color_codes \/ In arch three_color_codes ->
   resolve_primary_colors cc arch = chars arch) /\
  (forall x, resolve_primary_colors cc (String.append "MONO_" (String x ""))
             = [String x ""]) /\
  resolve_primary_colors cc "5C" = ["W"; "U"; "B"; "R"; "G"] /\
  resolve_primary_colors cc "auto" = auto_colors cc /\
  (~ In arch two_color_codes -> ~ In arch three_color_codes ->
   String.prefix "MONO_" arch = false -> arch <> "5C" ->
   resolve_primary_colors cc arch = auto_colors cc) /\
  (exists c1 c2,
      auto_colors cc = [c1; c2] /\
      c1 <> c2 /\ In c1 single_colors /\ In c2 single_colors /\
      get_count cc c2 <= get_count cc c1 /\
      forall c, In c single_colors -> c <> c1 -> c <> c2 ->
                get_count cc c <= get_count cc c2).
Proof.
  split; [|split; [|split; [|split; [|split]]]].
  - intros [H|H]; simpl in H;
      repeat (destruct H as [<-|H]; [reflexivity|]); destruct H.
  - intros x. reflexivity.
  - reflexivity.
  - reflexivity.
  - intros N2 N3 Hp N5. unfold resolve_primary_colors.
    destruct (String.eqb arch "auto"); [reflexivity|].
    destruct (mem arch two_color_codes) eqn:E2; [apply mem_In in E2; contradiction|].
    destruct (mem arch three_color_codes) eqn:E3; [apply mem_In in E3; contradiction|].
    rewrite Hp. apply String.eqb_neq in N5. now rewrite N5.
  - apply auto_colors_top.
Qed.

Lemma primary_color_resolution_witness :
  resolve_primary_colors color_counts_init "RWB" = ["R"; "W"; "B"] /\
  resolve_primary_colors color_counts_init "WR" = auto_colors color_counts_init.
Proof.
  destruct (primary_color_resolution color_counts_init "RWB") as (H & _).
  destruct (primary_color_resolution color_counts_init "WR") as (_ & _ & _ & _ & G & _).
  split.
  - apply H. right. simpl. auto 10.
  - apply G.
    + simpl. intuition discriminate.
    + simpl. intuition discriminate.
    + reflexivity.
    + discriminate.
Defined.

(** ** Drawing the sealed pool *)

Lemma randbelow_spec n g :
  0 < n ->
  exists j, j < n /\
            randbelow n g = Returns (j, mk_rng (draws g) (S (cursor g))) /\
            j = N.to_nat (draws g (cursor g) mod N.of_nat n).
Proof.
  intros Hn. exists (N.to_nat (draws g (cursor g) mod N.of_nat n)).
  split; [|split; reflexivity].
  assert (N.of_nat n <> 0%N) by lia.
  pose proof (N.mod_lt (draws g (cursor g)) (N.of_nat n) H). lia.
Qed.

Lemma drop_nth_length {A} j (l : list A) :
  j < length l -> length (drop_nth j l) = length l - 1.
Proof.
  revert j. induction l as [|x l IH]; intros j Hj; simpl in *; [lia|].
  destruct j; simpl; [lia|]. rewrite IH by lia. lia.
Qed.

Lemma drop_nth_incl {A} j (l : list A) : incl (drop_nth j l) l.
Proof.
  revert j. induction l as [|x l IH]; intros j y Hy; [destruct j; exact Hy|].
  destruct j; simpl in Hy; [now right|].
  destruct Hy as [->|Hy]; [now left|right; now apply (IH j)].
Qed.

Lemma drop_nth_nodup j (l : list nat) :
  List.NoDup l -> j < length l ->
  List.NoDup (drop_nth j l) /\ ~ In (nth j l 0) (drop_nth j l).
Proof.
  intros Hnd. revert j. induction Hnd as [|x l Hx Hnd IH]; intros j Hj; simpl in *; [lia|].
  destruct j.
  - split; assumption.
  - destruct (IH j ltac:(lia)) as (H1 & H2). split.
    + constructor; [|exact H1]. intros Hin. apply Hx. now apply drop_nth_incl in Hin.
    + intros [E|Hin]; [|contradiction]. apply Hx. rewrite E. apply nth_In. lia.
Qed.

Lemma sample_positions_spec k remaining g :
  List.NoDup remaining -> k <= length remaining ->
  exists positions,
    sample_positions k remaining g
    = Returns (positions, mk_rng (draws g) (cursor g + k)) /\
    List.NoDup positions /\ length positions = k /\ incl positions remaining.
Proof.
  revert remaining g. induction k as [|k IH]; intros remaining g Hnd Hk.
  - exists []. simpl. unfold cret. rewrite Nat.add_0_r. destruct g.
    repeat split; [constructor|intros x []].
  - destruct (randbelow_spec (length remaining) g ltac:(lia)) as (j & Hj & Hr & _).
    destruct (drop_nth_nodup j remaining Hnd Hj) as (Hnd' & Hfresh).
    destruct (IH (drop_nth j remaining) (mk_rng (draws g) (S (cursor g))) Hnd')
      as (rest & Hrest & Hn & Hl & Hi).
    { rewrite drop_nth_length by exact Hj. lia. }
    exists (nth j remaining 0 :: rest). simpl in Hrest. split; [|split; [|split]].
    + cbn [sample_positions]. unfold cbind at 1. rewrite Hr.
      unfold cbind at 1. rewrite Hrest. unfold cret.
      repeat f_equal. lia.
    + constructor; [|exact Hn]. intros Hin. apply Hfresh. now apply Hi.
    + simpl. now f_equal.
    + intros x [<-|Hx]; [apply nth_In; exact Hj|].
      apply Hi in Hx. now apply drop_nth_incl in Hx.
Qed.

Lemma at_positions_length {A} (population : list A) positions :
  Forall (fun i => i < length population) positions ->
  length (at_positions population positions) = length positions.
Proof.
  unfold at_positions. induction 1 as [|i l Hi _ IH]; simpl; [reflexivity|].
  destruct (nth_error population i) eqn:E.
  - simpl. now f_equal.
  - apply nth_error_None in E. lia.
Qed.

Lemma at_positions_incl {A} (population : list A) positions :
  incl (at_positions population positions) population.
Proof.
  unfold at_positions. intros x Hx. apply in_flat_map in Hx as (i & _ & Hx).
  destruct (nth_error population i) eqn:E; [|destruct Hx].
  destruct Hx as [<-|[]]. eapply nth_error_In. exact E.
Qed.

Lemma distinct_sample_length {A} (population xs : list A) k :
  distinct_sample population xs k -> length xs = k /\ incl xs population.
Proof.
  intros (positions & _ & Hl & Hb & ->). split.
  - now rewrite at_positions_length.
  - apply at_positions_incl.
Qed.

Lemma random_sample_returns {A} (population : list A) k g :
  k <= length population ->
  exists xs,
    random_sample population k g = Returns (xs, mk_rng (draws g) (cursor g + k)) /\
    distinct_sample population xs k.
Proof.
  intros Hk. unfold random_sample.
  destruct (length population <? k) eqn:E; [apply Nat.ltb_lt in E; lia|].
  destruct (sample_positions_spec k (seq 0 (length population)) g)
    as (positions & Hs & Hn & Hl & Hi).
  { apply seq_NoDup. }
  { now rewrite length_seq. }
  exists (at_positions population positions). split.
  - unfold cbind. rewrite Hs. reflexivity.
  - exists positions. repeat split; auto.
    apply List.Forall_forall. intros i Hi'. apply Hi in Hi'. apply in_seq in Hi'. lia.
Qed.

Lemma random_sample_raises {A} (population : list A) k g :
  length population < k -> exists e, random_sample population k g = Raises e.
Proof.
  intros Hk. unfold random_sample. apply Nat.ltb_lt in Hk. rewrite Hk.
  eexists. reflexivity.
Qed.

Lemma random_choice_returns {A} (population : list A) g :
  population <> [] ->
  exists x,
    random_choice population g = Returns (x, mk_rng (draws g) (S (cursor g))) /\
    nth_error population
              (N.to_nat (draws g (cursor g) mod N.of_nat (length population)))
    = Some x.
Proof.
  intros Hne. assert (Hl : 0 < length population) by (destruct population; simpl; [congruence|lia]).
  destruct (randbelow_spec (length population) g Hl) as (j & Hj & Hr & Hjd).
  destruct (nth_error population j) as [x|] eqn:E.
  - exists x. split; [|now rewrite <- Hjd].
    unfold random_choice, cbind. rewrite Hr, E. reflexivity.
  - apply nth_error_None in E. lia.
Qed.

Lemma nil_or_not {A} (l : list A) : l = [] \/ l <> [].
Proof. destruct l; [now left|now right]. Qed.

Section PoolFacts.
Context {A : Type} (rarity_of : A -> string).

Let commons (cards : list A) := List.filter (has_rarity rarity_of ["common"]) cards.
Let uncommons (cards : list A) := List.filter (has_rarity rarity_of ["uncommon"]) cards.
Let rares (cards : list A) := List.filter (has_rarity rarity_of ["rare"; "mythic"]) cards.

(** The card in the last slot of a pack, as the draw decides it. *)
Let slot_card (cards : list A) (g : rng) (at_cursor : nat) : option A :=
  nth_error cards (N.to_nat (draws g at_cursor mod N.of_nat (length cards))).

Lemma is_pack_length cards pack :
  is_pack rarity_of cards pack -> length pack = 15.
Proof.
  intros (cs & us & rs & x & -> & Hc & Hu & Hr & _).
  apply distinct_sample_length in Hc as [Hc _], Hu as [Hu _], Hr as [Hr _].
  rewrite !length_app, Hc, Hu, Hr. reflexivity.
Qed.

Lemma generate_pack_returns cards g :
  cards <> [] ->
  10 <= length (commons cards) -> 3 <= length (uncommons cards) ->
  1 <= length (rares cards) ->
  exists pack,
    generate_pack rarity_of cards g
    = Returns (pack, mk_rng (draws g) (cursor g + 15)) /\
    is_pack rarity_of cards pack /\
    nth_error pack 14 = slot_card cards g (cursor g + 14).
Proof.
  intros Hne Hc Hu Hr. unfold generate_pack.
  destruct (random_sample_returns (commons cards) 10 g Hc) as (cs & E1 & S1).
  set (g1 := mk_rng (draws g) (cursor g + 10)) in *.
  destruct (random_sample_returns (uncommons cards) 3 g1 Hu) as (us & E2 & S2).
  set (g2 := mk_rng (draws g1) (cursor g1 + 3)) in *.
  destruct (random_sample_returns (rares cards) 1 g2 Hr) as (rs & E3 & S3).
  set (g3 := mk_rng (draws g2) (cursor g2 + 1)) in *.
  destruct (random_choice_returns cards g3 Hne) as (x & E4 & Hx).
  exists (cs ++ us ++ rs ++ [x]). split; [|split].
  - fold (commons cards) (uncommons cards) (rares cards).
    unfold cbind. rewrite E1, E2, E3, E4. unfold cret. simpl.
    repeat f_equal. lia.
  - exists cs, us, rs, x. repeat split; auto.
    eapply nth_error_In. exact Hx.
  - pose proof (distinct_sample_length _ _ _ S1) as [L1 _].
    pose proof (distinct_sample_length _ _ _ S2) as [L2 _].
    pose proof (distinct_sample_length _ _ _ S3) as [L3 _].
    rewrite nth_error_app2 by lia. rewrite L1.
    rewrite nth_error_app2 by lia. rewrite L2.
    rewrite nth_error_app2 by lia. rewrite L3. simpl.
    unfold slot_card. rewrite <- Hx. simpl.
    replace (cursor g + 10 + 3 + 1) with (cursor g + 14) by lia. reflexivity.
Qed.

Lemma generate_pack_raises cards g :
  length (commons cards) < 10 \/ length (uncommons cards) < 3
  \/ length (rares cards) < 1 ->
  exists e, generate_pack rarity_of cards g = Raises e.
Proof.
  intros H. unfold generate_pack.
  fold (commons cards) (uncommons cards) (rares cards).
  destruct (Nat.lt_ge_cases (length (commons cards)) 10) as [Hc|Hc].
  { destruct (random_sample_raises (commons cards) 10 g Hc) as (e & E).
    exists e. unfold cbind. now rewrite E. }
  destruct (random_sample_returns (commons cards) 10 g Hc) as (cs & E1 & _).
  set (g1 := mk_rng (draws g) (cursor g + 10)) in *.
  destruct (Nat.lt_ge_cases (length (uncommons cards)) 3) as [Hu|Hu].
  { destruct (random_sample_raises (uncommons cards) 3 g1 Hu) as (e & E).
    exists e. unfold cbind. now rewrite E1, E. }
  destruct (random_sample_returns (uncommons cards) 3 g1 Hu) as (us & E2 & _).
  set (g2 := mk_rng (draws g1) (cursor g1 + 3)) in *.
  assert (Hr : length (rares cards) < 1) by lia.
  destruct (random_sample_raises (rares cards) 1 g2 Hr) as (e & E).
  exists e. unfold cbind. now rewrite E1, E2, E.
Qed.

Lemma generate_packs_returns n cards g :
  cards <> [] ->
  10 <= length (commons cards) -> 3 <= length (uncommons cards) ->
  1 <= length (rares cards) ->
  exists packs,
    generate_packs rarity_of n cards g
    = Returns (packs, mk_rng (draws g) (cursor g + 15 * n)) /\
    length packs = n /\
    Forall (is_pack rarity_of cards) packs /\
    forall p, p < n ->
              nth_error (concat packs) (15 * p + 14)
              = slot_card cards g (cursor g + 15 * p + 14).
Proof.
  intros Hne Hc Hu Hr. revert g. induction n as [|n IH]; intros g.
  - exists []. simpl. unfold cret. rewrite Nat.add_0_r. destruct g.
    repeat split; [constructor|]. intros p Hp. lia.
  - destruct (generate_pack_returns cards g Hne Hc Hu Hr) as (pack & E1 & P1 & S1).
    destruct (IH (mk_rng (draws g) (cursor g + 15))) as (packs & E2 & L2 & P2 & S2).
    exists (pack :: packs). split; [|split; [|split]].
    + cbn [generate_packs]. unfold cbind. rewrite E1, E2. unfold cret.
      cbn [draws cursor]. do 3 f_equal. lia.
    + simpl. now f_equal.
    + now constructor.
    + intros p Hp. pose proof (is_pack_length _ _ P1) as L1. cbn [concat].
      destruct p as [|p].
      * rewrite nth_error_app1 by lia. change (15 * 0 + 14) with 14.
        rewrite S1. f_equal. lia.
      * rewrite nth_error_app2 by lia. rewrite L1.
        replace (15 * S p + 14 - 15) with (15 * p + 14) by lia.
        rewrite (S2 p ltac:(lia)). unfold slot_card. cbn [draws cursor].
        do 4 f_equal. lia.
Qed.

Lemma concat_packs_length cards packs :
  Forall (is_pack rarity_of cards) packs -> length (concat packs) = 15 * length packs.
Proof.
  induction 1 as [|pack packs Hp _ IH]; simpl; [reflexivity|].
  rewrite length_app, IH, (is_pack_length _ _ Hp). lia.
Qed.

Lemma generate_sealed_pool_loaded (cards : list A) :
  cards <> [] ->
  generate_sealed_pool rarity_of cards
  = (packs <~ generate_packs rarity_of 6 cards ;; cret (concat packs)).
Proof. destruct cards; [congruence|reflexivity]. Qed.

Lemma generate_sealed_pool_spec (cards : list A) g :
  (cards <> [] ->
   10 <= length (commons cards) -> 3 <= length (uncommons cards) ->
   1 <= length (rares cards) ->
   exists pool g',
     generate_sealed_pool rarity_of cards g = Returns (pool, g') /\
     length pool = 90 /\
     (exists packs,
         pool = concat packs /\ length packs = 6 /\
         Forall (is_pack rarity_of cards) packs) /\
     (forall p, p < 6 ->
                nth_error pool (15 * p + 14)
                = slot_card cards g (cursor g + 15 * p + 14))) /\
  (cards = [] \/ length (commons cards) < 10 \/ length (uncommons cards) < 3
   \/ length (rares cards) < 1 ->
   exists e, generate_sealed_pool rarity_of cards g = Raises e).
Proof.
  split.
  - intros Hne Hc Hu Hr.
    destruct (generate_packs_returns 6 cards g Hne Hc Hu Hr) as (packs & E & L & P & S).
    exists (concat packs), (mk_rng (draws g) (cursor g + 15 * 6)).
    split; [|split; [|split]].
    + rewrite (generate_sealed_pool_loaded cards Hne).
      unfold cbind. rewrite E. reflexivity.
    + rewrite (concat_packs_length cards packs P), L. reflexivity.
    + exists packs. auto.
    + exact S.
  - intros H. destruct (generate_pack_raises cards g) as (e & E).
    + destruct H as [->|H]; [left; simpl; lia|exact H].
    + destruct (nil_or_not cards) as [->|Hne]; [eexists; reflexivity|].
      exists e. rewrite (generate_sealed_pool_loaded cards Hne).
      cbn [generate_packs]. unfold cbind. now rewrite E.
Qed.
End PoolFacts.

Lemma is_pack_incl {A} (rarity_of : A -> string) cards pack :
  is_pack rarity_of cards pack -> incl pack cards.
Proof.
  intros (cs & us & rs & x & -> & Hc & Hu & Hr & Hx).
  apply distinct_sample_length in Hc as [_ Hc], Hu as [_ Hu], Hr as [_ Hr].
  intros y Hy. repeat (apply in_app_or in Hy as [Hy|Hy]).
  - apply Hc in Hy. now apply filter_In in Hy as [Hy _].
  - apply Hu in Hy. now apply filter_In in Hy as [Hy _].
  - apply Hr in Hy. now apply filter_In in Hy as [Hy _].
  - destruct Hy as [<-|[]]. exact Hx.
Qed.

Lemma concat_packs_incl {A} (rarity_of : A -> string) cards packs :
  Forall (is_pack rarity_of cards) packs -> incl (concat packs) cards.
Proof.
  induction 1 as [|pack packs Hp _ IH]; simpl; [intros x []|].
  apply incl_app; [now apply is_pack_incl in Hp|exact IH].
Qed.



(** ** The archetype of a run *)

Lemma choose_archetype_cases r cumulative distribution current :
  choose_archetype r cumulative distribution current = current \/
  In (choose_archetype r cumulative distribution current) (map fst distribution).
Proof.
  revert cumulative. induction distribution as [|[arch prob] rest IH];
    intros cumulative; simpl; [now left|].
  destruct (num_leb r (num_add cumulative prob)).
  - right. now left.
  - destruct (IH (num_add cumulative prob)) as [H|H]; [now left|right; now right].
Qed.

Lemma validate_distribution_keys distribution distribution' :
  validate_distribution distribution = Returns distribution' ->
  map fst distribution' = map fst distribution.
Proof.
  unfold validate_distribution.
  destruct (negb _); [|intros H; now injection H as <-].
  destruct (num_eqb _ _); [discriminate|]. intros H. injection H as <-.
  rewrite map_map. reflexivity.
Qed.

Lemma run_drafts_archetypes cards runs first archetype distribution g decks g' :
  run_drafts cards runs first archetype distribution g = Returns (decks, g') ->
  Forall (fun deck =>
            exists current,
              (current = archetype
               \/ exists items, distribution = Some items /\ In current (map fst items))
              /\ Forall (fun card => dc_archetype card = Some current) deck)
         decks.
Proof.
  revert first g decks g'. induction runs as [|runs IH]; intros first g decks g' H.
  - injection H as <- <-. constructor.
  - cbn [run_drafts] in H.
    apply cbind_returns in H as (pool & g1 & _ & H).
    apply cbind_returns in H as (current & g2 & Hcur & H).
    apply cbind_returns in H as (deck & g3 & _ & H).
    apply cbind_returns in H as (rest & g4 & Hrest & H).
    injection H as <- <-. constructor; [|eapply IH; exact Hrest].
    exists current. split.
    + destruct distribution as [items|].
      * apply cbind_returns in Hcur as (r & g5 & _ & Hcur). injection Hcur as <- <-.
        destruct (choose_archetype_cases r (Int 0) items archetype) as [E|Hin].
        -- left. exact E.
        -- right. eauto.
      * injection Hcur as <- <-. now left.
    + apply List.Forall_forall. intros card Hc. apply in_map_iff in Hc as (e & <- & _).
      reflexivity.
Qed.

(** C10: with a distribution, the archetype of every run is a key of
    the distribution or the fixed [archetype] argument (every card of the
    run's deck is tagged with it). And the fixed argument does get used:
    for the distribution {"WB": 0.995}, whose total lies in [0.99, 1) and
    is therefore left as it is, a draw of [random.random()] above 0.995
    matches no weight, and the run is built and tagged with the fixed
    "auto", which is no key. *)
Theorem distribution_falls_back_to_fixed_archetype :
  (forall cards num_drafts archetype items g decks g',
      simulate_drafts cards num_drafts archetype (Some items) g = Returns (decks, g') ->
      Forall (fun deck =>
                exists current,
                  (In current (map fst items) \/ current = archetype)
                  /\ Forall (fun card => dc_archetype card = Some current) deck)
             decks) /\
  (exists decks g',
      num_leb (Float 0.99) (distribution_total short_distribution) = true /\
      num_ltb (distribution_total short_distribution) (Int 1) = true /\
      validate_distribution short_distribution = Returns short_distribution /\
      ~ In "auto" (map fst short_distribution) /\
      simulate_drafts sample_set 1 "auto" (Some short_distribution) high_draw_rng
      = Returns (decks, g') /\
      length decks = 1 /\
      Forall (fun deck =>
                length deck = 40 /\
                Forall (fun card => dc_archetype card = Some "auto") deck)
             decks).
Proof.
  split.
  - intros cards num_drafts archetype items g decks g' H.
    unfold simulate_drafts in H.
    apply cbind_returns in H as (distribution & g1 & Hd & H).
    apply run_drafts_archetypes in H.
    eapply List.Forall_impl; [|exact H]. intros deck (current & Hcur & Htag).
    exists current. split; [|exact Htag].
    destruct Hcur as [->|(items' & -> & Hin)]; [now right|left].
    destruct (truthy (Some items)) as [items0|] eqn:Et; [|discriminate].
    apply cbind_returns in Hd as (items1 & g2 & Hv & Hd).
    injection Hd as <- <-. apply lift_returns in Hv as [Hv _].
    apply validate_distribution_keys in Hv. rewrite Hv in Hin.
    destruct items as [|item items]; [discriminate|].
    injection Et as <-. exact Hin.
  - pose (run := returned ([], zero_rng)
                          (simulate_drafts sample_set 1 "auto"
                                           (Some short_distribution) high_draw_rng)).
    exists (fst run), (snd run).
    split; [vm_compute; reflexivity|].
    split; [vm_compute; reflexivity|].
    split; [vm_compute; reflexivity|].
    split; [simpl; intuition discriminate|].
    split; [vm_compute; reflexivity|].
    split; [reflexivity|].
    vm_compute. repeat constructor.
Qed.

Lemma distribution_falls_back_to_fixed_archetype_witness :
  let run := returned ([], zero_rng)
                      (simulate_drafts sample_set 1 "auto"
                                       (Some short_distribution) high_draw_rng) in
  Forall (fun deck =>
            exists current,
              (In current (map fst short_distribution) \/ current = "auto")
              /\ Forall (fun card => dc_archetype card = Some current) deck)
         (fst run).
Proof.
  intros run. destruct distribution_falls_back_to_fixed_archetype as (H & _).
  apply (H sample_set 1 "auto" short_distribution high_draw_rng (fst run) (snd run)).
  vm_compute. reflexivity.
Defined.

(** ** The analysis of a batch *)

Lemma filter_map_swap {A B} (f : B -> bool) (g : A -> B) l :
  List.filter f (map g l) = map g (List.filter (fun a => f (g a)) l).
Proof.
  induction l as [|x l IH]; simpl; [reflexivity|].
  destruct (f (g x)); simpl; now rewrite IH.
Qed.

Lemma filter_true {A} (f : A -> bool) l :
  Forall (fun a => f a = true) l -> List.filter f l = l.
Proof.
  induction 1 as [|x l Hx _ IH]; simpl; [reflexivity|]. rewrite Hx. now f_equal.
Qed.

Lemma filter_false {A} (f : A -> bool) l :
  Forall (fun a => f a = false) l -> List.filter f l = [].
Proof.
  induction 1 as [|x l Hx _ IH]; simpl; [reflexivity|]. now rewrite Hx.
Qed.

Lemma filter_perm {A} (f : A -> bool) l l' :
  Permutation l l' -> Permutation (List.filter f l) (List.filter f l').
Proof.
  induction 1; simpl.
  - constructor.
  - destruct (f x); [now constructor|assumption].
  - destruct (f x), (f y); try reflexivity. apply perm_swap.
  - etransitivity; eassumption.
Qed.

Lemma filter_only {A} (f : A -> bool) l y rest :
  Permutation l (y :: rest) -> f y = true -> Forall (fun a => f a = false) rest ->
  List.filter f l = [y].
Proof.
  intros Hp Hy Hrest. apply (filter_perm f) in Hp. simpl in Hp.
  rewrite Hy, (filter_false f rest Hrest) in Hp.
  symmetry in Hp. now apply Permutation_length_1_inv in Hp.
Qed.

Lemma select_cards_short {A} (view : A -> scored) same m playable :
  length playable <= 23 -> select_cards view same m playable = Returns playable.
Proof.
  intros H. unfold select_cards. rewrite (top23_short playable H).
  destruct (_ <? m).
  - rewrite (skipn_all2 playable H). simpl. rewrite firstn_nil. simpl.
    rewrite app_nil_r, (top23_short playable H). reflexivity.
  - simpl. now rewrite (top23_short playable H).
Qed.

Lemma basic_lands_skipped arch i lands :
  Forall (fun n => In n basic_land_names) lands ->
  List.filter (fun card => negb (mem (entry_name (dc_entry card)) basic_land_names))
              (map (tag arch i) (map Basic lands)) = [].
Proof.
  intros H. apply filter_false. rewrite map_map. apply List.Forall_forall.
  intros card Hc. apply in_map_iff in Hc as (n & <- & Hn).
  cbn [tag dc_entry entry_name].
  rewrite List.Forall_forall in H. apply H in Hn. apply mem_In in Hn.
  now rewrite Hn.
Qed.

(** C8, the claim as stated fails: a land of the pool that is no basic
    land is selected and counted. With the pool of X and Evolving Wilds
    the most common cards are two. *)
Lemma pool_land_is_counted :
  exists deck records summary,
    build_deck [card_x; evolving_wilds] "MONO_R" = Returns deck /\
    analyze_drafts [map (tag "MONO_R" 0) deck] = Returns (records, summary) /\
    most_common_cards summary = [("X", 1); ("Evolving Wilds", 1)] /\
    most_common_cards summary <> [("X", 1)].
Proof.
  pose (deck := returned [] (build_deck [card_x; evolving_wilds] "MONO_R")).
  pose (result := returned ([], mk_analysis [] [] None None)
                           (analyze_drafts [map (tag "MONO_R" 0) deck])).
  exists deck, (fst result), (snd result).
  split; [vm_compute; reflexivity|].
  split; [vm_compute; reflexivity|].
  split; [vm_compute; reflexivity|].
  vm_compute. discriminate.
Qed.

(** C8, amended: for one run with archetype "MONO_R", built from a pool
    of at most 23 cards whose only non-land card is X (common, mana
    value 2, colors [R]) and whose land cards all bear the name of a
    basic land, the analysis has no record of a basic land, and yields
    most_common_cards == {"X": 1}, rarity_distribution == {"common": 1}
    and mana_curve == {2: 1}. *)
Theorem single_card_analysis pool x before after deck :
  pool = before ++ x :: after ->
  name x = "X" -> rarity x = "common" -> (cmc x = Int 2 \/ cmc x = Float 2) ->
  colors x = ["R"] -> is_land (type_line x) = false ->
  Forall basic_land_card (before ++ after) ->
  length pool <= 23 ->
  build_deck pool "MONO_R" = Returns deck ->
  exists records summary,
    analyze_drafts [map (tag "MONO_R" 0) deck] = Returns (records, summary) /\
    Forall (fun r => mem (card_name r) basic_land_names = false) records /\
    most_common_cards summary = [("X", 1)] /\
    rarity_distribution summary = Some [("common", 1)] /\
    exists k, mana_curve summary = Some [(k, 1)] /\ num_eqb k (Int 2) = true.
Proof.
  intros Hpool Hn Hr Hc Hcol Hland Hb Hlen H.
  apply build_deck_inv in H as (selected & lands & H & ->).
  apply build_parts_inv in H as (cc & Hcc & Hsel & Hbase).
  pose proof (mana_base_spec _ _ _ Hbase) as (_ & Hbasic).
  unfold playable_of in Hsel.
  change (resolve_primary_colors cc "MONO_R") with ["R"] in Hsel.
  set (prof := assoc "MONO_R" archetype_weights) in Hsel.
  set (sc := fun c => mk_scored c (score_card prof ["R"] c)) in *.
  assert (Hall : List.filter (fun a => playable ["R"] a) (score_pool prof ["R"] pool)
                 = score_pool prof ["R"] pool).
  { apply filter_true. unfold score_pool. apply List.Forall_forall.
    intros p Hp. apply in_map_iff in Hp as (c & <- & Hc').
    unfold playable. cbn [sc_card]. rewrite Hpool in Hc'.
    apply in_app_or in Hc' as [Hc'|[<-|Hc']].
    - rewrite List.Forall_forall in Hb.
      destruct (Hb c) as [Hl _]; [apply in_or_app; now left|]. now rewrite Hl.
    - rewrite Hland, Hcol. reflexivity.
    - rewrite List.Forall_forall in Hb.
      destruct (Hb c) as [Hl _]; [apply in_or_app; now right|]. now rewrite Hl. }
  unfold playable_cards in Hsel. rewrite Hall in Hsel.
  rewrite select_cards_short in Hsel.
  2:{ rewrite (Permutation_length (sort_desc_perm _ _ _)).
      unfold score_pool. now rewrite length_map. }
  injection Hsel as <-.
  set (sorted := sort_desc num_ltb (fun a : scored => score a) (score_pool prof ["R"] pool)).
  assert (Hperm : Permutation sorted (sc x :: map sc (before ++ after))).
  { unfold sorted. rewrite sort_desc_perm. unfold score_pool. rewrite Hpool.
    fold sc. rewrite !map_app. cbn [map]. symmetry. apply Permutation_middle. }
  set (keep := fun p : scored => negb (mem (name (sc_card p)) basic_land_names)).
  assert (Hkeep : List.filter keep sorted = [sc x]).
  { apply (filter_only keep sorted (sc x) (map sc (before ++ after)) Hperm).
    - unfold keep, sc. cbn [sc_card]. rewrite Hn. reflexivity.
    - apply List.Forall_forall. intros p Hp. apply in_map_iff in Hp as (c & <- & Hc').
      rewrite List.Forall_forall in Hb. destruct (Hb c Hc') as [_ Hm].
      unfold keep, sc. cbn [sc_card]. now rewrite Hm. }
  assert (Hrec : card_records [map (tag "MONO_R" 0) (map Picked sorted ++ map Basic lands)]
                 = [make_record 0 (tag "MONO_R" 0 (Picked (sc x)))]).
  { unfold card_records. cbn [records_from]. rewrite app_nil_r. unfold deck_records.
    rewrite map_app, List.filter_app, (basic_lands_skipped _ _ _ Hbasic), app_nil_r.
    rewrite map_map, filter_map_swap. cbn [tag dc_entry entry_name].
    fold keep. rewrite Hkeep. reflexivity. }
  unfold analyze_drafts. rewrite Hrec.
  eexists. eexists. split; [reflexivity|].
  cbn [make_record tag dc_entry dc_archetype dc_draft_number sc sc_card score].
  rewrite Hn, Hr.
  split; [repeat constructor|]. split; [reflexivity|]. split; [reflexivity|].
  exists (cmc x). destruct Hc as [-> | ->]; split; reflexivity.
Qed.

Lemma single_card_analysis_witness :
  let deck := returned [] (build_deck [mountain; card_x; mountain] "MONO_R") in
  exists records summary,
    analyze_drafts [map (tag "MONO_R" 0) deck] = Returns (records, summary) /\
    Forall (fun r => mem (card_name r) basic_land_names = false) records /\
    most_common_cards summary = [("X", 1)] /\
    rarity_distribution summary = Some [("common", 1)] /\
    exists k, mana_curve summary = Some [(k, 1)] /\ num_eqb k (Int 2) = true.
Proof.
  intros deck.
  apply (single_card_analysis [mountain; card_x; mountain] card_x [mountain] [mountain] deck).
  - reflexivity.
  - reflexivity.
  - reflexivity.
  - left. reflexivity.
  - reflexivity.
  - reflexivity.
  - repeat constructor.
  - simpl. lia.
  - vm_compute. reflexivity.
Defined.

(** ** The store: what a build writes *)

Lemma alloc_spec (o : object) (h : gmap loc object) l h' :
  alloc o h = Returns (l, h') ->
  h !! l = None /\ h' = <[l := o]> h /\ h ⊆ h'.
Proof.
  unfold alloc. intros H. injection H as <- <-.
  assert (F : h !! fresh (dom h) = None).
  { apply not_elem_of_dom. apply is_fresh. }
  split; [exact F|]. split; [reflexivity|]. now apply insert_subseteq.
Qed.

Lemma get_item_store l k (h : gmap loc object) v h' :
  get_item l k h = Returns (v, h') -> h' = h.
Proof.
  unfold get_item. destruct (h !! l) as [[d|]|]; try discriminate.
  destruct (d !! k); [|discriminate]. intros H. now injection H as <- <-.
Qed.

Lemma get_or_store l k (dflt : comp (gmap loc object) value) (h : gmap loc object) v h' :
  (forall v' h'', dflt h = Returns (v', h'') -> h ⊆ h'') ->
  get_or l k dflt h = Returns (v, h') -> h ⊆ h'.
Proof.
  intros Hd. unfold get_or. destruct (h !! l) as [[d|]|]; try discriminate.
  destruct (d !! k).
  - intros H. now injection H as <- <-.
  - apply Hd.
Qed.

Lemma get_or_const_store l k v0 (h : gmap loc object) v h' :
  get_or l k (cret v0) h = Returns (v, h') -> h' = h.
Proof.
  unfold get_or, cret. destruct (h !! l) as [[d|]|]; try discriminate.
  destruct (d !! k); intros H; now injection H as <- <-.
Qed.

Lemma copy_card_spec card (h : gmap loc object) l h' :
  copy_card card h = Returns (l, h') ->
  h ⊆ h' /\ h !! l = None /\ is_Some (h' !! l).
Proof.
  unfold copy_card. intros H.
  apply cbind_returns in H as (v1 & h1 & E1 & H). apply get_item_store in E1 as ->.
  apply cbind_returns in H as (v2 & h2 & E2 & H).
  assert (S2 : h ⊆ h2).
  { eapply get_or_store; [|exact E2]. intros v' h'' Hd.
    apply cbind_returns in Hd as (l0 & h0 & Ha & Hd). injection Hd as <- <-.
    now apply alloc_spec in Ha as (_ & _ & Ha). }
  apply cbind_returns in H as (v3 & h3 & E3 & H). apply get_or_const_store in E3 as ->.
  apply cbind_returns in H as (v4 & h4 & E4 & H). apply get_or_const_store in E4 as ->.
  apply cbind_returns in H as (v5 & h5 & E5 & H). apply get_or_const_store in E5 as ->.
  apply cbind_returns in H as (v6 & h6 & E6 & H). apply get_or_const_store in E6 as ->.
  apply cbind_returns in H as (v7 & h7 & E7 & H). apply get_or_const_store in E7 as ->.
  apply alloc_spec in H as (F & -> & S). split; [|split].
  - etransitivity; eassumption.
  - destruct (h !! l) eqn:E; [|reflexivity].
    eapply lookup_weaken in E; [|exact S2]. congruence.
  - rewrite lookup_insert_eq. eauto.
Qed.

Lemma copy_cards_spec cards (h : gmap loc object) pool_data h' :
  map_comp copy_card cards h = Returns (pool_data, h') ->
  h ⊆ h' /\ Forall (fun l => h !! l = None /\ is_Some (h' !! l)) pool_data.
Proof.
  revert h pool_data h'. induction cards as [|c cards IH]; intros h pool_data h' H.
  - injection H as <- <-. split; [reflexivity|constructor].
  - cbn [map_comp] in H.
    apply cbind_returns in H as (l & h1 & E1 & H).
    apply cbind_returns in H as (ls & h2 & E2 & H). injection H as <- <-.
    apply copy_card_spec in E1 as (S1 & F1 & A1).
    apply IH in E2 as (S2 & F2). split; [etransitivity; eassumption|].
    constructor.
    + split; [exact F1|]. destruct A1 as [o A1].
      exists o. eapply lookup_weaken; eassumption.
    + eapply List.Forall_impl; [|exact F2]. intros l0 [F A]. split; [|exact A].
      destruct (h !! l0) eqn:E; [|reflexivity].
      eapply lookup_weaken in E; [|exact S1]. congruence.
Qed.

Lemma only_writes_cret {A} l (a : A) : only_writes l (cret a).
Proof. intros h a' h' H. now injection H as <- <-. Qed.

Lemma only_writes_cbind {A B} l (m : comp (gmap loc object) A)
    (f : A -> comp (gmap loc object) B) :
  only_writes l m -> (forall a, only_writes l (f a)) -> only_writes l (cbind m f).
Proof.
  intros Hm Hf h b h' H l0 Hl0.
  apply cbind_returns in H as (a & h1 & E1 & E2).
  rewrite (Hf a _ _ _ E2 l0 Hl0). now apply (Hm _ _ _ E1).
Qed.

Lemma only_writes_get_store l : only_writes l get_store.
Proof. intros h a h' H. now injection H as <- <-. Qed.

Lemma only_writes_get_item l k : only_writes l (get_item l k).
Proof. intros h a h' H l0 _. now apply get_item_store in H as ->. Qed.

Lemma only_writes_set_item l k v : only_writes l (set_item l k v).
Proof.
  intros h a h' H l0 Hl0. unfold set_item in H.
  destruct (h !! l) as [[d|]|]; try discriminate. injection H as <- <-.
  now rewrite lookup_insert_ne by congruence.
Qed.

Lemma only_writes_update_score l f : only_writes l (update_score l f).
Proof.
  apply only_writes_cbind; [apply only_writes_get_item|].
  intros s. apply only_writes_set_item.
Qed.

Lemma only_writes_when l b m : only_writes l m -> only_writes l (when b m).
Proof. intros H. destruct b; [exact H|apply only_writes_cret]. Qed.

Lemma only_writes_each {A} l (f : A -> comp (gmap loc object) unit) xs :
  (forall x, only_writes l (f x)) -> only_writes l (each f xs).
Proof.
  intros Hf. induction xs as [|x xs IH]; simpl; [apply only_writes_cret|].
  apply only_writes_cbind; [apply Hf|]. intros _. exact IH.
Qed.

(** Scoring a card writes to that card's object and to no other. *)
Lemma score_in_place_writes prof primary l :
  only_writes l (score_in_place prof primary l).
Proof.
  unfold score_in_place.
  apply only_writes_cbind; [apply only_writes_get_store|]. intros h0.
  repeat first
    [ apply only_writes_cbind; [|intros _]
    | apply only_writes_when
    | apply only_writes_update_score
    | apply only_writes_set_item
    | apply only_writes_cret
    | apply only_writes_each; intros ?
    | match goal with
      | |- only_writes _ (if ?b then _ else _) => destruct b
      | |- only_writes _ (match ?p with Some _ => _ | None => _ end) => destruct p
      end ].
Qed.

Lemma keeps_objects_cret {A} (a : A) : keeps_objects (cret a).
Proof. intros h a' h' H. now injection H as <- <-. Qed.

Lemma keeps_objects_cbind {A B} (m : comp (gmap loc object) A)
    (f : A -> comp (gmap loc object) B) :
  keeps_objects m -> (forall a, keeps_objects (f a)) -> keeps_objects (cbind m f).
Proof.
  intros Hm Hf h b h' H l Hl.
  apply cbind_returns in H as (a & h1 & E1 & E2).
  apply (Hf a _ _ _ E2). now apply (Hm _ _ _ E1).
Qed.

Lemma keeps_objects_get_store : keeps_objects get_store.
Proof. intros h a h' H. now injection H as <- <-. Qed.

Lemma keeps_objects_get_item l k : keeps_objects (get_item l k).
Proof. intros h a h' H l0 Hl0. now apply get_item_store in H as ->. Qed.

Lemma keeps_objects_set_item l k v : keeps_objects (set_item l k v).
Proof.
  intros h a h' H l0 Hl0. unfold set_item in H.
  destruct (h !! l) as [[d|]|]; try discriminate. injection H as <- <-.
  destruct (Nat.eq_dec l l0) as [->|Hne].
  - rewrite lookup_insert_eq. eauto.
  - now rewrite lookup_insert_ne.
Qed.

Lemma keeps_objects_update_score l f : keeps_objects (update_score l f).
Proof.
  apply keeps_objects_cbind; [apply keeps_objects_get_item|].
  intros s. apply keeps_objects_set_item.
Qed.

Lemma keeps_objects_when b m : keeps_objects m -> keeps_objects (when b m).
Proof. intros H. destruct b; [exact H|apply keeps_objects_cret]. Qed.

Lemma keeps_objects_each {A} (f : A -> comp (gmap loc object) unit) xs :
  (forall x, keeps_objects (f x)) -> keeps_objects (each f xs).
Proof.
  intros Hf. induction xs as [|x xs IH]; simpl; [apply keeps_objects_cret|].
  apply keeps_objects_cbind; [apply Hf|]. intros _. exact IH.
Qed.

Lemma score_in_place_keeps prof primary l :
  keeps_objects (score_in_place prof primary l).
Proof.
  unfold score_in_place.
  apply keeps_objects_cbind; [apply keeps_objects_get_store|]. intros h0.
  repeat first
    [ apply keeps_objects_cbind; [|intros _]
    | apply keeps_objects_when
    | apply keeps_objects_update_score
    | apply keeps_objects_set_item
    | apply keeps_objects_cret
    | apply keeps_objects_each; intros ?
    | match goal with
      | |- keeps_objects (if ?b then _ else _) => destruct b
      | |- keeps_objects (match ?p with Some _ => _ | None => _ end) => destruct p
      end ].
Qed.

Lemma score_all_writes prof primary pool_data (h h' : gmap loc object) :
  each (score_in_place prof primary) pool_data h = Returns (tt, h') ->
  forall l0, ~ In l0 pool_data -> h' !! l0 = h !! l0.
Proof.
  revert h. induction pool_data as [|l ls IH]; intros h H l0 Hl0.
  - now injection H as <-.
  - cbn [each] in H. apply cbind_returns in H as ([] & h1 & E1 & E2).
    rewrite (IH _ E2 l0); [|intros Hin; apply Hl0; now right].
    apply (score_in_place_writes prof primary l _ _ _ E1).
    intros ->. apply Hl0. now left.
Qed.

Lemma alloc_lands_spec lands (h : gmap loc object) refs h' :
  map_comp (fun land => alloc (land_object land)) lands h = Returns (refs, h') ->
  h ⊆ h' /\ Forall (fun l => h !! l = None /\ is_Some (h' !! l)) refs.
Proof.
  revert h refs h'. induction lands as [|x lands IH]; intros h refs h' H.
  - injection H as <- <-. split; [reflexivity|constructor].
  - cbn [map_comp] in H.
    apply cbind_returns in H as (l & h1 & E1 & H).
    apply cbind_returns in H as (ls & h2 & E2 & H). injection H as <- <-.
    apply alloc_spec in E1 as (F1 & -> & S1).
    apply IH in E2 as (S2 & F2). split; [etransitivity; eassumption|].
    constructor.
    + split; [exact F1|]. exists (land_object x).
      eapply lookup_weaken; [apply lookup_insert_eq|exact S2].
    + eapply List.Forall_impl; [|exact F2]. intros l0 [F A]. split; [|exact A].
      destruct (h !! l0) eqn:E; [|reflexivity].
      eapply lookup_weaken in E; [|exact S1]. congruence.
Qed.

(** The stages of a build over the store. *)
Lemma build_deck_store_inv sealed_pool archetype (h : gmap loc object) deck h' :
  build_deck_store sealed_pool archetype h = Returns (deck, h') ->
  exists pool_data h1 cc h2 selected lands land_refs,
    map_comp copy_card sealed_pool h = Returns (pool_data, h1) /\
    count_colors (map (card_at h1) pool_data) = Returns cc /\
    each (score_in_place (assoc archetype archetype_weights)
                         (resolve_primary_colors cc archetype)) pool_data h1
    = Returns (tt, h2) /\
    select_cards (scored_at h2) (same_object h2) (min_creatures_of archetype)
                 (playable_cards (scored_at h2) (resolve_primary_colors cc archetype)
                                 pool_data)
    = Returns selected /\
    mana_base (resolve_primary_colors cc archetype) (map (scored_at h2) selected)
    = Returns lands /\
    map_comp (fun land => alloc (land_object land)) lands h2 = Returns (land_refs, h') /\
    deck = selected ++ land_refs.
Proof.
  unfold build_deck_store. intros H.
  apply cbind_returns in H as (pool_data & h1 & E1 & H).
  apply cbind_returns in H as (h1' & h1'' & G1 & H). injection G1 as <- <-.
  apply cbind_returns in H as (cc & h1' & E2 & H). apply lift_returns in E2 as (E2 & ->).
  apply cbind_returns in H as ([] & h2 & E3 & H).
  apply cbind_returns in H as (h2' & h2'' & G2 & H). injection G2 as <- <-.
  apply cbind_returns in H as (selected & h2' & E4 & H). apply lift_returns in E4 as (E4 & ->).
  apply cbind_returns in H as (lands & h2' & E5 & H). apply lift_returns in E5 as (E5 & ->).
  apply cbind_returns in H as (land_refs & h3 & E6 & H). injection H as <- <-.
  exists pool_data, h1, cc, h2, selected, lands, land_refs. auto 10.
Qed.

Lemma generate_sealed_pool_incl {A} (rarity_of : A -> string) cards g pool g' :
  generate_sealed_pool rarity_of cards g = Returns (pool, g') -> incl pool cards.
Proof.
  intros H. destruct (generate_sealed_pool_spec rarity_of cards g) as (Hret & Hraise).
  destruct (nil_or_not cards) as [->|Hne]; [discriminate|].
  destruct (Nat.lt_ge_cases
              (length (List.filter (has_rarity rarity_of ["common"]) cards)) 10) as [Hc|Hc].
  { destruct Hraise as (e & E); [auto|]. rewrite E in H. discriminate. }
  destruct (Nat.lt_ge_cases
              (length (List.filter (has_rarity rarity_of ["uncommon"]) cards)) 3) as [Hu|Hu].
  { destruct Hraise as (e & E); [auto|]. rewrite E in H. discriminate. }
  destruct (Nat.lt_ge_cases
              (length (List.filter (has_rarity rarity_of ["rare"; "mythic"]) cards)) 1)
    as [Hr|Hr].
  { destruct Hraise as (e & E); [auto|]. rewrite E in H. discriminate. }
  destruct (Hret Hne Hc Hu Hr) as (pool' & g'' & E & _ & (packs & -> & _ & P) & _).
  rewrite E in H. injection H as <- <-. now apply concat_packs_incl in P.
Qed.

(** C9: a build leaves the records it is given as they are. The sealed
    pool holds references to records of [cards_in_set]; after the build
    every object that the store held before it, those records and their
    color lists among them, is the same object with the same fields (in
    particular no record of the set has gained a score); the cards of the
    returned deck are objects that did not exist before the build. *)
Theorem build_deck_keeps_records (h : gmap loc object) cards_in_set g sealed_pool g'
    archetype deck h' :
  generate_sealed_pool_store h cards_in_set g = Returns (sealed_pool, g') ->
  build_deck_store sealed_pool archetype h = Returns (deck, h') ->
  incl sealed_pool cards_in_set /\
  (forall l o, h !! l = Some o -> h' !! l = Some o) /\
  (forall l, In l cards_in_set -> is_Some (h !! l) ->
             fields_at h' l = fields_at h l /\
             fields_at h' l !! "score" = fields_at h l !! "score") /\
  (forall l, In l deck -> h !! l = None /\ is_Some (h' !! l)).
Proof.
  intros Hpool H.
  apply generate_sealed_pool_incl in Hpool.
  apply build_deck_store_inv in H
    as (pool_data & h1 & cc & h2 & selected & lands & land_refs
        & Hcopy & _ & Hscore & Hsel & _ & Hlands & ->).
  apply copy_cards_spec in Hcopy as (S1 & F1).
  apply alloc_lands_spec in Hlands as (S3 & F3).
  rewrite List.Forall_forall in F1, F3.
  assert (Hkept : forall l o, h !! l = Some o -> h' !! l = Some o).
  { intros l o Hl. eapply lookup_weaken; [|exact S3].
    rewrite (score_all_writes _ _ _ _ _ Hscore l).
    - eapply lookup_weaken; eassumption.
    - intros Hin. apply F1 in Hin as [Hin _]. congruence. }
  assert (Hdom2 : forall l, is_Some (h1 !! l) -> is_Some (h2 !! l)).
  { apply (keeps_objects_each (score_in_place _ _) pool_data
                              (score_in_place_keeps _ _) _ _ _ Hscore). }
  split; [exact Hpool|]. split; [exact Hkept|]. split.
  - intros l _ [o Hl]. pose proof (Hkept l o Hl) as Hl'.
    unfold fields_at. rewrite Hl, Hl'. auto.
  - intros l Hl. apply in_app_or in Hl as [Hl|Hl].
    + apply select_cards_incl in Hsel. apply Hsel in Hl.
      apply playable_cards_incl in Hl. apply F1 in Hl as [Hf Ha].
      split; [exact Hf|]. destruct (Hdom2 l Ha) as [o Ho].
      exists o. eapply lookup_weaken; eassumption.
    + apply F3 in Hl as [Hf Ha]. split; [|exact Ha].
      destruct (h !! l) eqn:E; [|reflexivity].
      rewrite (Hkept l _ E) in Ha.
      assert (h2 !! l = Some o).
      { rewrite (score_all_writes _ _ _ _ _ Hscore l).
        - eapply lookup_weaken; eassumption.
        - intros Hin. apply F1 in Hin as [Hin _]. congruence. }
      congruence.
Qed.

Lemma build_deck_keeps_records_witness :
  let cards_in_set := fst sample_store in
  let h := snd sample_store in
  let drawn := returned ([], zero_rng)
                        (generate_sealed_pool_store h cards_in_set zero_rng) in
  let built := returned ([], ∅) (build_deck_store (fst drawn) "RW" h) in
  incl (fst drawn) cards_in_set /\
  (forall l o, h !! l = Some o -> snd built !! l = Some o).
Proof.
  intros cards_in_set h drawn built.
  destruct (build_deck_keeps_records h cards_in_set zero_rng (fst drawn) (snd drawn)
                                     "RW" (fst built) (snd built))
    as (H1 & H2 & _).
  - vm_compute. reflexivity.
  - vm_compute. reflexivity.
  - split; assumption.
Defined.

(** On the sample set, the deck built over the store reads as the deck
    built over the values. *)
Lemma store_build_agrees_on_sample :
  let cards_in_set := fst sample_store in
  let h := snd sample_store in
  let drawn := returned ([], zero_rng)
                        (generate_sealed_pool_store h cards_in_set zero_rng) in
  let built := returned ([], ∅) (build_deck_store (fst drawn) "RW" h) in
  Returns (map (entry_at (snd built)) (fst built))
  = build_deck (map (card_at h) (fst drawn)) "RW".
Proof. vm_compute. reflexivity. Qed.

(** ** The store: the score that is written *)

Section ScoreWritten.
Context (h : gmap loc object) (l : loc) (d : gmap string value).
Hypothesis at_l : h !! l = Some (ODict d).

(** The store once the score of the card at [l] is [s]. *)
Let scored_store (s : number) : gmap loc object :=
  <[l := ODict (<["score" := VNum s]> d)]> h.

Lemma set_score_first s :
  set_item l "score" (VNum s) h = Returns (tt, scored_store s).
Proof. unfold set_item. now rewrite at_l. Qed.

Lemma update_score_next f s :
  update_score l f (scored_store s) = Returns (tt, scored_store (f s)).
Proof.
  unfold update_score, cbind, get_item, set_item, scored_store.
  rewrite !lookup_insert_eq. cbn [num_of].
  now rewrite !insert_insert_eq.
Qed.

Lemma when_update_score_next b f s :
  when b (update_score l f) (scored_store s)
  = Returns (tt, scored_store (if b then f s else s)).
Proof. destruct b; [apply update_score_next|reflexivity]. Qed.

Lemma each_update_score_next {A} (test : A -> bool) f xs s :
  each (fun x => when (test x) (update_score l f)) xs (scored_store s)
  = Returns (tt, scored_store (fold_left (fun s x => if test x then f s else s) xs s)).
Proof.
  revert s. induction xs as [|x xs IH]; intros s; [reflexivity|].
  cbn [each fold_left]. unfold cbind at 1. rewrite when_update_score_next. apply IH.
Qed.

(** Scoring in place leaves at [l] the card it found there, with the
    score of [score_card]. *)
Lemma score_in_place_score prof primary :
  score_in_place prof primary l h
  = Returns (tt, scored_store (score_card prof primary (card_at h l))).
Proof.
  unfold score_in_place, score_card. unfold cbind at 1. cbn [get_store].
  unfold cbind at 1. rewrite set_score_first.
  repeat (unfold cbind at 1; rewrite when_update_score_next).
  unfold cbind at 1. rewrite update_score_next.
  unfold cbind at 1.
  match goal with
  | |- context [if num_leb ?x (Int 3) then _ else _] => destruct (num_leb x (Int 3))
  end.
  - rewrite update_score_next.
    repeat (unfold cbind at 1; rewrite when_update_score_next).
    destruct prof as [p|]; [|reflexivity].
    unfold cbind at 1. rewrite each_update_score_next.
    destruct (is_creature _);
      [apply (update_score_next (fun s => num_mul s (Float (creature_weight p))))
      |apply (update_score_next (fun s => num_mul s (Float (noncreature_weight p))))].
  - match goal with
    | |- context [if num_leb ?x (Int 5) then _ else _] => destruct (num_leb x (Int 5))
    end.
    + rewrite update_score_next.
      repeat (unfold cbind at 1; rewrite when_update_score_next).
      destruct prof as [p|]; [|reflexivity].
      unfold cbind at 1. rewrite each_update_score_next.
      destruct (is_creature _);
      [apply (update_score_next (fun s => num_mul s (Float (creature_weight p))))
      |apply (update_score_next (fun s => num_mul s (Float (noncreature_weight p))))].
    + cbn [cret].
      repeat (unfold cbind at 1; rewrite when_update_score_next).
      destruct prof as [p|]; [|reflexivity].
      unfold cbind at 1. rewrite each_update_score_next.
      destruct (is_creature _);
      [apply (update_score_next (fun s => num_mul s (Float (creature_weight p))))
      |apply (update_score_next (fun s => num_mul s (Float (noncreature_weight p))))].
Qed.
End ScoreWritten.
(** * Further properties *)

(** ** The order of binary64 *)

Lemma SFcompare_rank f g :
  f <> S754_nan -> g <> S754_nan ->
  SFcompare f g = Some (rank_compare (sf_rank f) (sf_rank g)).
Proof.
  intros Hf Hg.
  destruct f as [sf| sf| |sf mf ef], g as [sg|sg| |sg mg eg]; try congruence;
    try (destruct sf; try destruct sg; reflexivity);
    try (destruct sg; reflexivity).
  destruct sf, sg; try reflexivity; unfold SFcompare, sf_rank, rank_compare;
    cbn [fst snd Z.compare].
  rewrite Z.compare_opp. rewrite (Z.compare_antisym ef eg).
  destruct (ef ?= eg)%Z; reflexivity.
Qed.

Lemma rank_compare_refl a : rank_compare a a = Eq.
Proof. unfold rank_compare. now rewrite !Z.compare_refl. Qed.

Lemma rank_compare_eq a b : rank_compare a b = Eq -> a = b.
Proof.
  destruct a as [a1 [a2 a3]], b as [b1 [b2 b3]]. unfold rank_compare. simpl.
  destruct (a1 ?= b1)%Z eqn:E1; try discriminate.
  destruct (a2 ?= b2)%Z eqn:E2; try discriminate. intros E3.
  apply Z.compare_eq in E1, E2, E3. congruence.
Qed.

Lemma rank_compare_antisym a b : rank_compare b a = CompOpp (rank_compare a b).
Proof.
  unfold rank_compare.
  rewrite (Z.compare_antisym (fst a) (fst b)).
  rewrite (Z.compare_antisym (fst (snd a)) (fst (snd b))).
  rewrite (Z.compare_antisym (snd (snd a)) (snd (snd b))).
  destruct (fst a ?= fst b)%Z; simpl; try reflexivity.
  destruct (fst (snd a) ?= fst (snd b))%Z; simpl; reflexivity.
Qed.

(** not above, then not above: not above *)
Lemma rank_compare_trans a b c :
  rank_compare a b <> Gt -> rank_compare b c <> Gt -> rank_compare a c <> Gt.
Proof.
  destruct a as [a1 [a2 a3]], b as [b1 [b2 b3]], c as [c1 [c2 c3]].
  unfold rank_compare. simpl.
  destruct (Z.compare_spec a1 b1), (Z.compare_spec b1 c1), (Z.compare_spec a1 c1);
    try lia; try congruence;
    destruct (Z.compare_spec a2 b2), (Z.compare_spec b2 c2), (Z.compare_spec a2 c2);
    try lia; try congruence;
    destruct (Z.compare_spec a3 b3), (Z.compare_spec b3 c3), (Z.compare_spec a3 c3);
    try lia; congruence.
Qed.

Lemma float_not_nan f : PrimFloat.eqb f f = true -> Prim2SF f <> S754_nan.
Proof.
  rewrite FloatAxioms.eqb_spec. intros H E. rewrite E in H. discriminate.
Qed.

Lemma float_compare_rank f g :
  PrimFloat.eqb f f = true -> PrimFloat.eqb g g = true ->
  SFcompare (Prim2SF f) (Prim2SF g)
  = Some (rank_compare (float_rank f) (float_rank g)).
Proof. intros Hf Hg. apply SFcompare_rank; now apply float_not_nan. Qed.

(** Within one kind, the three comparisons of numbers read the rank. *)
Lemma num_ltb_rank k a b :
  of_kind k a -> of_kind k b ->
  num_ltb a b = match rank_compare (num_rank a) (num_rank b) with
                | Lt => true
                | _ => false
                end.
Proof.
  destruct k, a as [x|f], b as [y|g]; simpl; try tauto; intros Ha Hb.
  - unfold rank_compare, Z.ltb. simpl. destruct (x ?= y)%Z; reflexivity.
  - rewrite FloatAxioms.ltb_spec. unfold SFltb.
    now rewrite (float_compare_rank f g Ha Hb).
Qed.

Lemma num_leb_rank k a b :
  of_kind k a -> of_kind k b ->
  num_leb a b = match rank_compare (num_rank a) (num_rank b) with
                | Gt => false
                | _ => true
                end.
Proof.
  destruct k, a as [x|f], b as [y|g]; simpl; try tauto; intros Ha Hb.
  - unfold rank_compare, Z.leb. simpl. destruct (x ?= y)%Z; reflexivity.
  - rewrite FloatAxioms.leb_spec. unfold SFleb.
    now rewrite (float_compare_rank f g Ha Hb).
Qed.

Lemma num_eqb_rank k a b :
  of_kind k a -> of_kind k b ->
  num_eqb a b = match rank_compare (num_rank a) (num_rank b) with
                | Eq => true
                | _ => false
                end.
Proof.
  destruct k, a as [x|f], b as [y|g]; simpl; try tauto; intros Ha Hb.
  - unfold rank_compare. simpl. destruct (Z.compare_spec x y) as [->|H|H].
    + apply Z.eqb_refl.
    + apply Z.eqb_neq. lia.
    + apply Z.eqb_neq. lia.
  - rewrite FloatAxioms.eqb_spec. unfold SFeqb.
    now rewrite (float_compare_rank f g Ha Hb).
Qed.

Lemma num_eqb_refl k a : of_kind k a -> num_eqb a a = true.
Proof.
  intros H. rewrite (num_eqb_rank k a a H H). now rewrite rank_compare_refl.
Qed.

Lemma num_eqb_ranks k a b :
  of_kind k a -> of_kind k b ->
  num_eqb a b = true <-> num_rank a = num_rank b.
Proof.
  intros Ha Hb. rewrite (num_eqb_rank k a b Ha Hb). split.
  - destruct (rank_compare _ _) eqn:E; try discriminate. intros _.
    now apply rank_compare_eq.
  - intros ->. now rewrite rank_compare_refl.
Qed.

Lemma num_ltb_asym k a b :
  of_kind k a -> of_kind k b -> num_ltb a b = true -> num_ltb b a = false.
Proof.
  intros Ha Hb. rewrite (num_ltb_rank k a b Ha Hb), (num_ltb_rank k b a Hb Ha).
  rewrite (rank_compare_antisym (num_rank a) (num_rank b)). destruct (rank_compare _ _); simpl; congruence.
Qed.

Lemma num_not_below_trans k a b c :
  of_kind k a -> of_kind k b -> of_kind k c ->
  num_ltb a b = false -> num_ltb b c = false -> num_ltb a c = false.
Proof.
  intros Ha Hb Hc.
  rewrite (num_ltb_rank k a b Ha Hb), (num_ltb_rank k b c Hb Hc),
    (num_ltb_rank k a c Ha Hc).
  pose proof (rank_compare_trans (num_rank c) (num_rank b) (num_rank a)) as T.
  rewrite (rank_compare_antisym (num_rank b) (num_rank c)) in T.
  rewrite (rank_compare_antisym (num_rank a) (num_rank b)) in T.
  rewrite (rank_compare_antisym (num_rank a) (num_rank c)) in T.
  destruct (rank_compare (num_rank a) (num_rank b)),
    (rank_compare (num_rank b) (num_rank c)),
    (rank_compare (num_rank a) (num_rank c)); simpl in *; try congruence;
    intros _ _; exfalso; apply T; congruence.
Qed.

(** ** The range of the scores *)

Lemma rarity_bonus_range r : (0 <= rarity_bonus r <= 3)%Z.
Proof.
  unfold rarity_bonus. simpl.
  repeat match goal with
         | |- context [String.eqb ?a ?b] => destruct (String.eqb a b)
         end; simpl; lia.
Qed.

Lemma cost_bonus_range n : (0 <= cost_bonus n <= 2)%Z.
Proof.
  unfold cost_bonus. destruct (num_leb n (Int 3)); [lia|].
  destruct (num_leb n (Int 5)); lia.
Qed.

Lemma base_points_range primary c : (0 <= base_points primary c <= 16)%Z.
Proof.
  unfold base_points, shares_color.
  pose proof (rarity_bonus_range (rarity c)) as Hr.
  pose proof (cost_bonus_range (cmc c)) as Hc.
  assert (H3 : (0 <= bonus (existsb (fun color => mem color primary) (colors c)) 5
                    + bonus (set_eqb (colors c) primary) 3
                    + bonus ((length (colors c) =? 0)%nat
                             && negb (is_land (type_line c))) 3 <= 8)%Z).
  { destruct (colors c) as [|color cs]; cbn [existsb length Nat.eqb andb bonus].
    - destruct (set_eqb [] primary), (negb (is_land (type_line c)));
        cbn [bonus]; lia.
    - destruct (_ || _), (set_eqb _ _); cbn [bonus]; lia. }
  destruct (is_creature (type_line c)), (signals_removal c); cbn [bonus]; lia.
Qed.

Lemma keyword_hits_range p c :
  (0 <= keyword_hits p c <= Z.of_nat (length (keywords p)))%Z.
Proof.
  unfold keyword_hits.
  pose proof (List.filter_length_le
                (fun keyword => str_in keyword (lower (oracle_text c))) (keywords p)).
  lia.
Qed.

Lemma profiles_in_range :
  forallb (fun kv => profile_in_range (snd kv)) archetype_weights = true.
Proof. vm_compute. reflexivity. Qed.

Lemma assoc_In {V} k (d : list (string * V)) v :
  assoc k d = Some v -> In (k, v) d.
Proof.
  induction d as [|[k' v'] d IH]; simpl; [discriminate|].
  destruct (String.eqb k k') eqn:E.
  - apply String.eqb_eq in E. subst. intros H. injection H as <-. now left.
  - intros H. right. now apply IH.
Qed.

Lemma profile_score_range arch p primary c :
  assoc arch archetype_weights = Some p ->
  exists f,
    score_card (Some p) primary c = Float f /\
    num_leb (Int 0) (Float f) = true /\
    num_leb (Float f) (Int 35) = true.
Proof.
  intros Hp. apply assoc_In in Hp.
  pose proof profiles_in_range as H. rewrite forallb_forall in H.
  specialize (H _ Hp). cbn [snd] in H. unfold profile_in_range in H.
  apply andb_prop in H as [Hk H]. apply Nat.leb_le in Hk.
  rewrite forallb_forall in H.
  rewrite score_card_reference. unfold reference_score.
  pose proof (base_points_range primary c) as Hb.
  pose proof (keyword_hits_range p c) as Hh.
  set (z := (base_points primary c + keyword_hits p c)%Z) in *.
  specialize (H z). unfold weighted_in_range in H. cbn [forallb] in H.
  assert (Hz : In z (map Z.of_nat (seq 0 26))).
  { apply in_map_iff. exists (Z.to_nat z). split; [lia|]. apply in_seq. lia. }
  apply H in Hz. apply andb_prop in Hz as [H1 Hz]. apply andb_prop in Hz as [H2 _].
  apply andb_prop in H1 as [H1a H1b]. apply andb_prop in H2 as [H2a H2b].
  destruct (is_creature (type_line c)); eauto.
Qed.

Lemma float_leb_not_nan f g : PrimFloat.leb f g = true -> PrimFloat.eqb g g = true.
Proof.
  rewrite FloatAxioms.leb_spec, FloatAxioms.eqb_spec. unfold SFleb, SFeqb.
  destruct (Prim2SF f) as [s| s| |s m e], (Prim2SF g) as [s'|s'| |s' m' e'];
    try discriminate; try reflexivity; intros _.
  - destruct s'; reflexivity.
  - rewrite (SFcompare_rank (S754_finite s' m' e') (S754_finite s' m' e'));
      [|discriminate|discriminate].
    now rewrite rank_compare_refl.
  - destruct s'; reflexivity.
  - rewrite (SFcompare_rank (S754_finite s' m' e') (S754_finite s' m' e'));
      [|discriminate|discriminate].
    now rewrite rank_compare_refl.
  - destruct s'; reflexivity.
  - rewrite (SFcompare_rank (S754_finite s' m' e') (S754_finite s' m' e'));
      [|discriminate|discriminate].
    now rewrite rank_compare_refl.
Qed.

(** The scores of one build are of one kind. *)
Lemma score_of_kind arch primary c :
  of_kind (score_kind (assoc arch archetype_weights))
          (score_card (assoc arch archetype_weights) primary c).
Proof.
  destruct (assoc arch archetype_weights) as [p|] eqn:E.
  - destruct (profile_score_range arch p primary c E) as (f & -> & H0 & _).
    simpl in *. now apply float_leb_not_nan in H0.
  - rewrite score_card_reference. exact I.
Qed.

(** X1: whatever the card, the primary colors and the archetype code,
    the score that the scoring loop leaves on the card is a number from
    0 to 35, so never negative and never a NaN; for a code without a
    profile in [archetype_weights] it is an integer from 0 to 16. *)
Theorem score_between_0_and_35 arch primary c :
  num_leb (Int 0) (score_card (assoc arch archetype_weights) primary c) = true /\
  num_leb (score_card (assoc arch archetype_weights) primary c) (Int 35) = true /\
  (assoc arch archetype_weights = None ->
   exists z, score_card None primary c = Int z /\ (0 <= z <= 16)%Z).
Proof.
  assert (Hint : exists z, score_card None primary c = Int z /\ (0 <= z <= 16)%Z).
  { exists (base_points primary c). split; [apply score_card_reference|].
    apply base_points_range. }
  destruct (assoc arch archetype_weights) as [p|] eqn:E.
  - destruct (profile_score_range arch p primary c E) as (f & -> & H0 & H35).
    repeat split; [exact H0|exact H35|discriminate].
  - destruct Hint as (z & Hz & Hr). rewrite Hz. simpl.
    repeat split; [apply Z.leb_le; lia|apply Z.leb_le; lia|eauto].
Qed.

Lemma score_between_0_and_35_witness :
  exists z, score_card None ["W"; "U"] azorius_charm = Int z /\ (0 <= z <= 16)%Z.
Proof.
  destruct (score_between_0_and_35 "WU" ["W"; "U"] azorius_charm) as (_ & _ & H).
  apply H. vm_compute. reflexivity.
Defined.

(** ** The order of the playable cards *)

Section DescendingSort.
Context {A K : Type} (ltb eqb : K -> K -> bool) (key : A -> K) (good : K -> Prop).
Hypothesis ltb_asym :
  forall a b, good a -> good b -> ltb a b = true -> ltb b a = false.
Hypothesis not_below_trans :
  forall a b c, good a -> good b -> good c ->
                ltb a b = false -> ltb b c = false -> ltb a c = false.
Hypothesis equal_not_below :
  forall a b k, good a -> good b -> good k ->
                eqb a k = true -> eqb b k = true -> ltb a b = false.

Lemma insert_desc_in x y l : In y (insert_desc ltb key x l) -> y = x \/ In y l.
Proof.
  intros H. eapply Permutation_in in H; [|apply insert_desc_perm].
  destruct H as [<-|H]; auto.
Qed.

Lemma insert_desc_descending x l :
  good (key x) -> Forall (fun a => good (key a)) l ->
  StronglySorted (fun a b => ltb (key a) (key b) = false) l ->
  StronglySorted (fun a b => ltb (key a) (key b) = false) (insert_desc ltb key x l).
Proof.
  intros Hx Hl Hs. induction Hs as [|y l Hs IH Hy]; simpl.
  - constructor; constructor.
  - inversion Hl as [|? ? Gy Gl]; subst.
    destruct (ltb (key x) (key y)) eqn:E.
    + constructor; [now apply IH|].
      apply List.Forall_forall. intros z Hz. apply insert_desc_in in Hz as [->|Hz].
      * now apply ltb_asym.
      * rewrite List.Forall_forall in Hy. now apply Hy.
    + constructor; [constructor; assumption|].
      constructor; [exact E|].
      rewrite List.Forall_forall in Hy, Gl |- *. intros z Hz.
      apply (not_below_trans _ (key y)); auto.
Qed.

Lemma sort_desc_good l :
  Forall (fun a => good (key a)) l ->
  Forall (fun a => good (key a)) (sort_desc ltb key l).
Proof.
  intros H. rewrite List.Forall_forall in *. intros x Hx. apply H.
  eapply Permutation_in; [apply (sort_desc_perm ltb key)|exact Hx].
Qed.

Lemma sort_desc_descending l :
  Forall (fun a => good (key a)) l ->
  StronglySorted (fun a b => ltb (key a) (key b) = false) (sort_desc ltb key l).
Proof.
  induction 1 as [|x l Hx Hl IH]; simpl; [constructor|].
  apply insert_desc_descending; auto. now apply sort_desc_good.
Qed.

Lemma insert_desc_stable k x l :
  good k -> good (key x) -> Forall (fun a => good (key a)) l ->
  List.filter (fun a => eqb (key a) k) (insert_desc ltb key x l)
  = List.filter (fun a => eqb (key a) k) (x :: l).
Proof.
  intros Hk Hx Hl. induction Hl as [|y l Hy Hl IH]; [reflexivity|].
  cbn [insert_desc]. destruct (ltb (key x) (key y)) eqn:E; [|reflexivity].
  cbn [List.filter] in *. rewrite IH.
  destruct (eqb (key x) k) eqn:Ex, (eqb (key y) k) eqn:Ey; try reflexivity.
  rewrite (equal_not_below _ _ _ Hx Hy Hk Ex Ey) in E. discriminate.
Qed.

Lemma sort_desc_stable k l :
  good k -> Forall (fun a => good (key a)) l ->
  List.filter (fun a => eqb (key a) k) (sort_desc ltb key l)
  = List.filter (fun a => eqb (key a) k) l.
Proof.
  intros Hk. induction 1 as [|x l Hx Hl IH]; [reflexivity|].
  cbn [sort_desc fold_right]. fold (sort_desc ltb key l).
  rewrite insert_desc_stable; auto using sort_desc_good.
  cbn [List.filter]. now rewrite IH.
Qed.
End DescendingSort.

Lemma sorted_app_above {A} (R : A -> A -> Prop) l1 l2 :
  StronglySorted R (l1 ++ l2) ->
  Forall (fun a => Forall (R a) l2) l1.
Proof.
  induction l1 as [|x l1 IH]; simpl; intros H; [constructor|].
  inversion H as [|? ? Hs Hx]; subst. constructor; [|now apply IH].
  apply Forall_app in Hx. tauto.
Qed.

Lemma score_pool_kind arch primary pool :
  Forall (fun a => of_kind (score_kind (assoc arch archetype_weights)) (score a))
         (score_pool (assoc arch archetype_weights) primary pool).
Proof.
  unfold score_pool. apply List.Forall_forall. intros a Ha.
  apply in_map_iff in Ha as (c & <- & _). apply score_of_kind.
Qed.

Lemma forall_filter {A} (P : A -> Prop) f l : Forall P l -> Forall P (List.filter f l).
Proof.
  intros H. rewrite List.Forall_forall in *. intros x Hx.
  apply filter_In in Hx as [Hx _]. auto.
Qed.

Lemma select_cards_enough {A} (view : A -> scored) same m playable :
  m <= length (List.filter (fun a => creature (view a)) (firstn 23 playable)) ->
  select_cards view same m playable = Returns (firstn 23 playable).
Proof.
  intros H. unfold select_cards. rewrite (top23_firstn playable).
  apply Nat.ltb_ge in H. rewrite H. cbn [bind].
  rewrite top23_short; [reflexivity|]. rewrite length_firstn. lia.
Qed.

(** X2: the playable cards are ranked by score, highest first, and cards
    of equal score stay in the order of the pool. When the first 23 of
    the ranking hold [min_creatures] creatures they are the deck's
    selected cards, and no playable card that is left out scores more
    than a selected one. *)
Theorem playable_in_score_order cc pool arch :
  let primary := resolve_primary_colors cc arch in
  let prof := assoc arch archetype_weights in
  let eligible := List.filter (playable primary) (score_pool prof primary pool) in
  let ranked := playable_of cc pool arch in
  Permutation ranked eligible /\
  StronglySorted (fun a b => num_ltb (score a) (score b) = false) ranked /\
  (forall c,
      List.filter (fun a => num_eqb (score a) (score_card prof primary c)) ranked
      = List.filter (fun a => num_eqb (score a) (score_card prof primary c)) eligible) /\
  (forall selected lands,
      count_colors pool = Returns cc ->
      build_parts pool arch = Returns (selected, lands) ->
      min_creatures_of arch <= length (List.filter creature (firstn 23 ranked)) ->
      selected = firstn 23 ranked /\
      Forall (fun a => Forall (fun b => num_ltb (score a) (score b) = false)
                              (skipn 23 ranked))
             selected).
Proof.
  intros primary prof eligible ranked.
  set (k := score_kind prof).
  assert (Hgood : Forall (fun a => of_kind k (score a)) eligible).
  { apply forall_filter. apply score_pool_kind. }
  assert (Hsorted : StronglySorted (fun a b => num_ltb (score a) (score b) = false)
                                   ranked).
  { apply (sort_desc_descending num_ltb score (of_kind k)).
    - intros a b. apply num_ltb_asym.
    - intros a b c. apply num_not_below_trans.
    - exact Hgood. }
  split; [apply sort_desc_perm|]. split; [exact Hsorted|]. split.
  - intros c.
    apply (sort_desc_stable num_ltb num_eqb score (of_kind k)).
    + intros a b x Ha Hb Hx Eax Ebx.
      apply (num_eqb_ranks k a x Ha Hx) in Eax.
      apply (num_eqb_ranks k b x Hb Hx) in Ebx.
      rewrite (num_ltb_rank k a b Ha Hb), Eax, Ebx, rank_compare_refl. reflexivity.
    + apply score_of_kind.
    + exact Hgood.
  - intros selected lands Hcc H Hm.
    apply build_parts_inv in H as (cc' & Hcc' & Hsel & _).
    rewrite Hcc in Hcc'. injection Hcc' as <-.
    fold ranked in Hsel.
    rewrite (select_cards_enough (fun p => p) scored_eqb _ ranked Hm) in Hsel.
    injection Hsel as <-. split; [reflexivity|].
    apply sorted_app_above. now rewrite firstn_skipn.
Qed.

Lemma playable_in_score_order_witness :
  exists selected lands,
    build_parts red_pool "auto" = Returns (selected, lands) /\
    selected
    = firstn 23 (playable_of (returned ∅ (count_colors red_pool)) red_pool "auto").
Proof.
  exists (fst (returned ([], []) (build_parts red_pool "auto"))),
         (snd (returned ([], []) (build_parts red_pool "auto"))).
  split; [vm_compute; reflexivity|].
  destruct (playable_in_score_order (returned ∅ (count_colors red_pool))
                                    red_pool "auto") as (_ & _ & _ & H).
  apply (H _ (snd (returned ([], []) (build_parts red_pool "auto")))).
  - vm_compute. reflexivity.
  - vm_compute. reflexivity.
  - vm_compute. lia.
Defined.

(** ** The eviction finds its cards *)

Section Eviction.
Context {A : Type} (view : A -> scored) (same : A -> A -> bool) (good : A -> Prop).
Hypothesis same_refl : forall a, good a -> same a a = true.
Hypothesis same_sym : forall a b, good a -> good b -> same a b = true -> same b a = true.
Hypothesis same_trans :
  forall a b c, good a -> good b -> good c ->
                same a b = true -> same b c = true -> same a c = true.

(** the entries of [l] equal to [z] *)
Let copies (z : A) (l : list A) : nat := length (List.filter (fun y => same y z) l).

Lemma list_remove_finds x l :
  0 < copies x l -> exists l', list_remove same x l = Some l'.
Proof.
  unfold copies. induction l as [|y l IH]; simpl; [lia|].
  destruct (same y x); [eauto|]. intros H. destruct (IH H) as (l' & ->).
  simpl. eauto.
Qed.

Lemma list_remove_copies x z l l' :
  good x -> good z -> Forall good l ->
  list_remove same x l = Some l' ->
  copies z l = copies z l' + (if same x z then 1 else 0).
Proof.
  intros Hx Hz Hl. revert l'. unfold copies.
  induction Hl as [|y l Hy Hl IH]; simpl; intros l' H; [discriminate|].
  destruct (same y x) eqn:E.
  - injection H as <-.
    assert (Eq : same y z = same x z).
    { destruct (same x z) eqn:Exz.
      - now apply (same_trans y x z).
      - destruct (same y z) eqn:Eyz; [|reflexivity].
        rewrite <- Exz. symmetry. apply (same_trans x y z); auto. }
    rewrite Eq. destruct (same x z); simpl; lia.
  - destruct (list_remove same x l) as [r|]; [|discriminate]. simpl in H.
    injection H as <-. specialize (IH r eq_refl). simpl.
    destruct (same y z); simpl; lia.
Qed.

Lemma list_remove_good x l l' :
  Forall good l -> list_remove same x l = Some l' -> Forall good l'.
Proof.
  intros Hl H. apply list_remove_some in H as (y & _ & Hp).
  apply (Permutation.Permutation_Forall Hp) in Hl. now inversion Hl.
Qed.

Lemma evict_returns n ncs pot :
  Forall good ncs -> Forall good pot -> n <= length ncs ->
  (forall z, good z -> copies z ncs <= copies z pot) ->
  exists pot', evict same n ncs pot = Returns pot'.
Proof.
  revert ncs pot. induction n as [|n IH]; intros ncs pot Hn Hp Hlen Hc; simpl.
  - eauto.
  - destruct ncs as [|x rest]; [simpl in Hlen; lia|].
    inversion Hn as [|? ? Hx Hrest]; subst.
    destruct (list_remove_finds x pot) as (pot' & R).
    { specialize (Hc x Hx). unfold copies in Hc |- *. simpl in Hc.
      rewrite (same_refl x Hx) in Hc. simpl in Hc. lia. }
    rewrite R. apply IH.
    + exact Hrest.
    + exact (list_remove_good x pot pot' Hp R).
    + simpl in Hlen. lia.
    + intros z Hz. specialize (Hc z Hz).
      rewrite (list_remove_copies x z pot pot' Hx Hz Hp R) in Hc.
      unfold copies in Hc |- *. simpl in Hc.
      destruct (same x z); simpl in Hc.
      * apply le_S_n. rewrite Nat.add_1_r in Hc. exact Hc.
      * rewrite Nat.add_0_r in Hc. exact Hc.
Qed.

Lemma filter_filter_le (f g : A -> bool) l :
  length (List.filter f (List.filter g l)) <= length (List.filter f l).
Proof.
  induction l as [|x l IH]; simpl; [lia|].
  destruct (g x); simpl; destruct (f x); simpl; lia.
Qed.

Lemma select_cards_returns m playable :
  Forall good playable ->
  exists sel, select_cards view same m playable = Returns sel.
Proof.
  intros Hg. unfold select_cards.
  assert (Htop : Forall good (top23 playable)).
  { rewrite top23_firstn. rewrite List.Forall_forall in *. intros x Hx.
    apply Hg. eapply in_firstn. exact Hx. }
  destruct (_ <? m); cbn [bind]; [|eauto].
  match goal with
  | |- context [evict same ?n ?ncs ?pot] =>
      destruct (evict_returns n ncs pot) as (pot' & ->)
  end.
  - rewrite List.Forall_forall in *. intros x Hx. apply Htop.
    eapply Permutation_in in Hx; [|apply (sort_asc_perm num_ltb)].
    now apply filter_In in Hx as [Hx _].
  - exact Htop.
  - apply Nat.le_min_r.
  - intros z Hz. unfold copies.
    rewrite (filter_perm_length _ _ _ (sort_asc_perm num_ltb _ _)).
    apply filter_filter_le.
  - cbn [bind]. eauto.
Qed.
End Eviction.

Lemma list_eqb_eq xs ys : list_eqb xs ys = true <-> xs = ys.
Proof.
  revert ys. induction xs as [|x xs IH]; intros [|y ys]; simpl;
    try (split; [discriminate|congruence]); [tauto|].
  rewrite andb_true_iff, String.eqb_eq, IH. split.
  - intros [-> ->]. reflexivity.
  - intros H. injection H as -> ->. auto.
Qed.

(** [==] on entries of one pool compares the names, the colors, the
    places of the mana values and of the scores on the number line, and
    the remaining strings. *)
Lemma scored_eqb_plain kc ks a b :
  plain_entry kc ks a -> plain_entry kc ks b ->
  scored_eqb a b = true <->
  name (sc_card a) = name (sc_card b) /\
  colors (sc_card a) = colors (sc_card b) /\
  num_rank (cmc (sc_card a)) = num_rank (cmc (sc_card b)) /\
  type_line (sc_card a) = type_line (sc_card b) /\
  rarity (sc_card a) = rarity (sc_card b) /\
  oracle_text (sc_card a) = oracle_text (sc_card b) /\
  mana_cost (sc_card a) = mana_cost (sc_card b) /\
  num_rank (score a) = num_rank (score b).
Proof.
  intros [Ha1 Ha2] [Hb1 Hb2]. unfold scored_eqb.
  rewrite !andb_true_iff, !String.eqb_eq, list_eqb_eq.
  rewrite (num_eqb_ranks kc _ _ Ha1 Hb1), (num_eqb_ranks ks _ _ Ha2 Hb2). tauto.
Qed.

Lemma scored_eqb_refl kc ks a : plain_entry kc ks a -> scored_eqb a a = true.
Proof. intros H. apply (scored_eqb_plain kc ks a a H H). tauto. Qed.

Lemma scored_eqb_sym kc ks a b :
  plain_entry kc ks a -> plain_entry kc ks b ->
  scored_eqb a b = true -> scored_eqb b a = true.
Proof.
  intros Ha Hb H. apply (scored_eqb_plain kc ks a b Ha Hb) in H.
  apply (scored_eqb_plain kc ks b a Hb Ha). intuition congruence.
Qed.

Lemma scored_eqb_trans kc ks a b c :
  plain_entry kc ks a -> plain_entry kc ks b -> plain_entry kc ks c ->
  scored_eqb a b = true -> scored_eqb b c = true -> scored_eqb a c = true.
Proof.
  intros Ha Hb Hc H1 H2. apply (scored_eqb_plain kc ks a b Ha Hb) in H1.
  apply (scored_eqb_plain kc ks b c Hb Hc) in H2.
  apply (scored_eqb_plain kc ks a c Ha Hc). intuition congruence.
Qed.

(** ** What is selected *)

Section SelectionShape.
Context {A : Type} (view : A -> scored) (same : A -> A -> bool).

Lemma evict_perm n ncs pot pot' :
  evict same n ncs pot = Returns pot' ->
  exists removed, length removed = n /\ Permutation pot (removed ++ pot').
Proof.
  revert ncs pot. induction n as [|n IH]; simpl; intros ncs pot H.
  - injection H as <-. exists []. split; reflexivity.
  - destruct ncs as [|x rest]; [discriminate|].
    destruct (list_remove same x pot) as [q|] eqn:R; [|discriminate].
    apply IH in H as (removed & Hlen & Hp).
    apply list_remove_some in R as (y & _ & Hq).
    exists (y :: removed). split; [simpl; now f_equal|].
    rewrite Hq. simpl. now constructor.
Qed.

Lemma filter_firstn_perm (f : A -> bool) n l :
  exists rest, Permutation l (firstn n (List.filter f l) ++ rest).
Proof.
  exists (skipn n (List.filter f l) ++ List.filter (fun a => negb (f a)) l).
  rewrite app_assoc, firstn_skipn.
  induction l as [|x l IH]; simpl; [reflexivity|].
  destruct (f x); simpl.
  - now constructor.
  - rewrite <- Permutation_middle. now constructor.
Qed.

(** The selected cards are entries of the playable list, none taken
    twice, and as many as the list allows up to 23. *)
Lemma select_cards_perm m playable sel :
  select_cards view same m playable = Returns sel ->
  length sel = Nat.min 23 (length playable) /\
  exists left, Permutation playable (sel ++ left).
Proof.
  unfold select_cards. intros H. bind_inv H. injection H as <-.
  rewrite (top23_firstn playable) in Ha. rewrite top23_firstn.
  destruct (_ <? m) eqn:E.
  - bind_inv Ha. injection Ha as <-.
    apply evict_perm in Ha0 as (removed & Hlen & Hp).
    match type of Hlen with
    | _ = Nat.min (length ?e) _ => set (extra := e) in *
    end.
    destruct (filter_firstn_perm (fun a => creature (view a))
                (m - length (List.filter (fun a => creature (view a))
                                         (firstn 23 playable)))
                (skipn 23 playable)) as (rest & Hrest).
    fold extra in Hrest. split.
    + rewrite length_firstn, length_app.
      pose proof (Permutation_length Hp) as L1.
      pose proof (Permutation_length Hrest) as L2.
      rewrite length_app in L1, L2. rewrite length_firstn in L1.
      rewrite length_skipn in L2. lia.
    + exists (skipn 23 (a0 ++ extra) ++ removed ++ rest).
      rewrite app_assoc, firstn_skipn.
      rewrite <- (firstn_skipn 23 playable) at 1.
      rewrite Hp, Hrest. rewrite (Permutation_app_comm removed a0).
      rewrite <- !app_assoc. apply Permutation_app_head.
      apply Permutation_app_swap_app.
  - injection Ha as <-. split.
    + rewrite firstn_firstn, length_firstn. lia.
    + exists (skipn 23 playable). rewrite firstn_firstn.
      change (Nat.min 23 23) with 23. now rewrite firstn_skipn.
Qed.
End SelectionShape.

(** The third test of the filter lets nothing in that the first two
    refuse: a card all of whose colors are primary has no color or
    shares one. *)
Lemma playable_cases primary p :
  playable primary p
  = is_land (type_line (sc_card p))
    || (length (colors (sc_card p)) =? 0)
    || existsb (fun color => mem color primary) (colors (sc_card p)).
Proof.
  unfold playable. destruct (is_land _); [reflexivity|]. cbn [orb].
  destruct (colors (sc_card p)) as [|color cs]; [reflexivity|].
  cbn [length Nat.eqb orb existsb forallb].
  destruct (mem color primary); [reflexivity|]. cbn [orb andb].
  now rewrite orb_false_r.
Qed.

Lemma filter_perm_rest {A} (f : A -> bool) l :
  Permutation l (List.filter f l ++ List.filter (fun a => negb (f a)) l).
Proof.
  induction l as [|x l IH]; simpl; [reflexivity|].
  destruct (f x); simpl.
  - now constructor.
  - rewrite <- Permutation_middle. now constructor.
Qed.

(** X3: the cards selected for a deck are different entries of the
    scored pool (no entry is taken twice), each of them a land, a card
    without colors or a card with a primary color; they are as many as
    the pool has such entries, up to 23, and the basic lands fill the
    deck up to 40. *)
Theorem selected_cards_of_pool pool arch cc selected lands :
  count_colors pool = Returns cc ->
  build_parts pool arch = Returns (selected, lands) ->
  let primary := resolve_primary_colors cc arch in
  let pool_data := score_pool (assoc arch archetype_weights) primary pool in
  (exists left, Permutation pool_data (selected ++ left)) /\
  Forall (fun p => is_land (type_line (sc_card p)) = true
                   \/ colors (sc_card p) = []
                   \/ exists color, In color (colors (sc_card p)) /\ In color primary)
         selected /\
  length selected = Nat.min 23 (length (List.filter (playable primary) pool_data)) /\
  length lands = 40 - length selected.
Proof.
  intros Hcc H primary pool_data.
  apply build_parts_inv in H as (cc' & Hcc' & Hsel & Hbase).
  rewrite Hcc in Hcc'. injection Hcc' as <-.
  pose proof (select_cards_perm _ _ _ _ _ Hsel) as (Hlen & left & Hperm).
  unfold playable_of, playable_cards in Hperm, Hlen.
  fold primary in Hperm, Hlen. fold pool_data in Hperm, Hlen.
  rewrite (Permutation_length (sort_desc_perm _ _ _)) in Hlen.
  rewrite (sort_desc_perm num_ltb _ _) in Hperm.
  split; [|split; [|split]].
  - exists (left ++ List.filter (fun a => negb (playable primary a)) pool_data).
    rewrite app_assoc, <- Hperm. apply filter_perm_rest.
  - apply List.Forall_forall. intros p Hp.
    assert (Hin : In p (List.filter (playable primary) pool_data)).
    { eapply Permutation_in; [symmetry; exact Hperm|]. apply in_or_app. now left. }
    apply filter_In in Hin as [_ Hpl]. rewrite playable_cases in Hpl.
    apply orb_prop in Hpl as [Hpl|Hpl]; [apply orb_prop in Hpl as [Hpl|Hpl]|].
    + now left.
    + right. left. apply Nat.eqb_eq in Hpl. now apply length_zero_iff_nil.
    + right. right. apply existsb_exists in Hpl as (color & Hc & Hm).
      exists color. split; [exact Hc|]. now apply mem_In.
  - exact Hlen.
  - now apply mana_base_spec in Hbase as [Hb _].
Qed.

Lemma selected_cards_of_pool_witness :
  exists selected lands,
    build_parts red_pool "MONO_R" = Returns (selected, lands) /\
    length selected = 23 /\ length lands = 17.
Proof.
  exists (fst (returned ([], []) (build_parts red_pool "MONO_R"))),
         (snd (returned ([], []) (build_parts red_pool "MONO_R"))).
  split; [vm_compute; reflexivity|].
  destruct (selected_cards_of_pool
              red_pool "MONO_R" (returned ∅ (count_colors red_pool))
              (fst (returned ([], []) (build_parts red_pool "MONO_R")))
              (snd (returned ([], []) (build_parts red_pool "MONO_R"))))
    as (_ & _ & H1 & H2).
  - vm_compute. reflexivity.
  - vm_compute. reflexivity.
  - split; [rewrite H1|rewrite H2]; vm_compute; reflexivity.
Defined.

(** ** The lands belong to the primary colors *)

Lemma arg_max_in key best xs : In (arg_max key best xs) (best :: xs).
Proof.
  revert best. induction xs as [|x xs IH]; intros best; simpl; [now left|].
  destruct (IH (if key best <? key x then x else best)) as [H|H].
  - rewrite <- H. destruct (key best <? key x); auto.
  - auto.
Qed.

Lemma py_max_in key xs mx : py_max key xs = Returns mx -> In mx xs.
Proof.
  destruct xs as [|x xs]; simpl; [discriminate|]. intros H. injection H as <-.
  apply arg_max_in.
Qed.

Lemma top_up_of fuel primary ms needed lands lands' :
  top_up fuel primary ms needed lands = Returns lands' ->
  Forall (fun n => In n (map basic_land_name primary)) lands ->
  Forall (fun n => In n (map basic_land_name primary)) lands'.
Proof.
  revert lands. induction fuel as [|fuel IH]; intros lands H Hl; simpl in H.
  - destruct (length lands <? needed); [discriminate|]. now injection H as <-.
  - destruct (length lands <? needed); [|now injection H as <-].
    bind_inv H. apply IH in H; [exact H|].
    apply Forall_app. split; [exact Hl|]. constructor; [|constructor].
    apply in_map. eapply py_max_in. exact Ha.
Qed.

Lemma initial_lands_of primary ms total needed lands :
  initial_lands primary ms total needed = Returns lands ->
  Forall (fun n => In n (map basic_land_name primary)) lands.
Proof.
  unfold initial_lands. intros H.
  assert (G : forall (f : string -> nat) cs,
             incl cs primary ->
             Forall (fun n => In n (map basic_land_name primary))
                    (flat_map (fun color => repeat (basic_land_name color) (f color)) cs)).
  { intros f cs Hcs. apply List.Forall_forall. intros x Hx.
    apply in_flat_map in Hx as (c & Hc & Hx). apply repeat_spec in Hx. subst.
    apply in_map. now apply Hcs. }
  destruct (total =? 0).
  - destruct primary as [|c [|c' cs]]; [discriminate| |]; injection H as <-.
    + apply List.Forall_forall. intros x Hx. apply repeat_spec in Hx. subst.
      now left.
    + exact (G (fun _ => needed / length (c :: c' :: cs)) _ (incl_refl _)).
  - injection H as <-. apply G, incl_refl.
Qed.

Lemma mana_base_of primary selected lands :
  mana_base primary selected = Returns lands ->
  Forall (fun n => In n (map basic_land_name primary)) lands.
Proof.
  unfold mana_base. intros H. bind_inv H. bind_inv H. bind_inv H. bind_inv H.
  apply initial_lands_of in Ha1. apply (top_up_of _ _ _ _ _ _ Ha2) in Ha1.
  apply trim_spec in H as (_ & _ & _ & Hincl).
  rewrite List.Forall_forall in *. auto.
Qed.

Lemma all_equal_repeat {A} (x : A) l : Forall (fun y => y = x) l -> l = repeat x (length l).
Proof. induction 1 as [|y l -> _ IH]; simpl; [reflexivity|]. now f_equal. Qed.

(** X4: every basic land of a deck is the basic land of one of the
    deck's primary colors; in a deck of a single primary color the lands
    are all that color's, 40 less the selected cards of them. *)
Theorem lands_of_primary_colors pool arch cc selected lands :
  count_colors pool = Returns cc ->
  build_parts pool arch = Returns (selected, lands) ->
  Forall (fun land => exists color,
              In color (resolve_primary_colors cc arch) /\
              land = basic_land_name color) lands /\
  (forall color, resolve_primary_colors cc arch = [color] ->
                 lands = repeat (basic_land_name color) (40 - length selected)).
Proof.
  intros Hcc H. apply build_parts_inv in H as (cc' & Hcc' & _ & Hbase).
  rewrite Hcc in Hcc'. injection Hcc' as <-.
  pose proof (mana_base_of _ _ _ Hbase) as Hof.
  pose proof (mana_base_spec _ _ _ Hbase) as [Hlen _]. split.
  - rewrite List.Forall_forall in *. intros land Hl.
    apply Hof, in_map_iff in Hl as (color & <- & Hc). eauto.
  - intros color E. rewrite E in Hof. rewrite <- Hlen.
    apply all_equal_repeat. rewrite List.Forall_forall in *. intros land Hl.
    apply Hof in Hl. simpl in Hl. destruct Hl as [<-|[]]. reflexivity.
Qed.

Lemma lands_of_primary_colors_witness :
  exists selected lands,
    build_parts red_pool "MONO_R" = Returns (selected, lands) /\
    lands = repeat "Mountain" (40 - length selected).
Proof.
  exists (fst (returned ([], []) (build_parts red_pool "MONO_R"))),
         (snd (returned ([], []) (build_parts red_pool "MONO_R"))).
  split; [vm_compute; reflexivity|].
  destruct (lands_of_primary_colors
              red_pool "MONO_R" (returned ∅ (count_colors red_pool))
              (fst (returned ([], []) (build_parts red_pool "MONO_R")))
              (snd (returned ([], []) (build_parts red_pool "MONO_R"))))
    as (_ & H).
  - vm_compute. reflexivity.
  - vm_compute. reflexivity.
  - apply (H "R"). vm_compute. reflexivity.
Defined.

(** ** Counting the symbols *)

Lemma mem_cons x y ys : mem x (y :: ys) = String.eqb x y || mem x ys.
Proof. reflexivity. Qed.

Lemma incr_each_spec (f : string -> nat) primary (ms ms' : gmap string nat) :
  List.NoDup primary ->
  for_each (fun ms color => incr (f color) ms color) primary ms = Returns ms' ->
  forall c, ms' !! c = if mem c primary then (fun v => v + f c) <$> ms !! c
                       else ms !! c.
Proof.
  intros Hnd. revert ms. induction Hnd as [|k rest Hk Hnd IH]; intros ms H c.
  - simpl in H. now injection H as <-.
  - simpl in H. bind_inv H. apply incr_inv in Ha as (v & Ev & ->).
    rewrite (IH _ H c), mem_cons. destruct (String.eqb c k) eqn:E.
    + apply String.eqb_eq in E. subst c.
      assert (Hm : mem k rest = false).
      { destruct (mem k rest) eqn:M; [|reflexivity]. apply mem_In in M. contradiction. }
      rewrite Hm, lookup_insert_eq, Ev. reflexivity.
    + apply String.eqb_neq in E. rewrite lookup_insert_ne by congruence.
      reflexivity.
Qed.

Lemma incr_each_returns (f : string -> nat) primary (ms : gmap string nat) :
  Forall (fun c => is_Some (ms !! c)) primary ->
  exists ms', for_each (fun ms color => incr (f color) ms color) primary ms
              = Returns ms' /\
              forall c, is_Some (ms !! c) -> is_Some (ms' !! c).
Proof.
  revert ms. induction primary as [|k rest IH]; intros ms H; cbn [for_each].
  - eauto.
  - inversion H as [|? ? [v Hk] Hrest]; subst.
    assert (Hincr : incr (f k) ms k = Returns (<[k := v + f k]> ms)).
    { unfold incr. now rewrite Hk. }
    rewrite Hincr. cbn [bind].
    assert (Hkeep : forall c, is_Some (ms !! c) ->
                              is_Some (<[k := v + f k]> ms !! c)).
    { intros c Hc. destruct (decide (k = c)) as [->|Hne].
      - rewrite lookup_insert_eq. eauto.
      - now rewrite lookup_insert_ne. }
    destruct (IH (<[k := v + f k]> ms)) as (ms' & E & Hkeep').
    { rewrite List.Forall_forall in *. auto. }
    exists ms'. split; [exact E|auto].
Qed.

Lemma symbols_cons c p selected :
  symbols c (p :: selected) = str_count (mana_cost (sc_card p)) c + symbols c selected.
Proof. reflexivity. Qed.

Lemma count_symbols_spec primary selected (ms0 ms : gmap string nat) :
  List.NoDup primary ->
  for_each
    (fun ms p =>
       for_each (fun ms color => incr (str_count (mana_cost (sc_card p)) color) ms color)
                primary ms)
    selected ms0 = Returns ms ->
  forall c, ms !! c = if mem c primary then (fun v => v + symbols c selected) <$> ms0 !! c
                      else ms0 !! c.
Proof.
  intros Hnd. revert ms0. induction selected as [|p sel IH]; intros ms0 H c.
  - simpl in H. injection H as <-. destruct (mem c primary); [|reflexivity].
    destruct (ms0 !! c); simpl; [|reflexivity]. unfold symbols. simpl.
    now rewrite Nat.add_0_r.
  - simpl in H. bind_inv H. rewrite (IH _ H c).
    rewrite (incr_each_spec _ _ _ _ Hnd Ha c).
    destruct (mem c primary); [|reflexivity].
    destruct (ms0 !! c); simpl; [|reflexivity].
    rewrite symbols_cons. f_equal. lia.
Qed.

Lemma count_symbols_returns primary selected (ms0 : gmap string nat) :
  Forall (fun c => is_Some (ms0 !! c)) primary ->
  exists ms,
    for_each
      (fun ms p =>
         for_each (fun ms color => incr (str_count (mana_cost (sc_card p)) color) ms color)
                  primary ms)
      selected ms0 = Returns ms.
Proof.
  revert ms0. induction selected as [|p sel IH]; intros ms0 H; simpl; [eauto|].
  destruct (incr_each_returns (str_count (mana_cost (sc_card p))) primary ms0 H)
    as (ms1 & -> & Hkeep).
  cbn [bind]. apply IH. rewrite List.Forall_forall in *. auto.
Qed.

Lemma total_symbols_from acc (ms : gmap string nat) primary :
  Forall (fun c => is_Some (ms !! c)) primary ->
  for_each (fun acc color =>
              match ms !! color with
              | Some v => Returns (acc + v)
              | None => Raises (KeyError color)
              end) primary acc
  = Returns (acc + list_sum (map (get_count ms) primary)).
Proof.
  intros H. revert acc. induction H as [|c cs [v Hc] _ IH]; intros acc; simpl.
  - now rewrite Nat.add_0_r.
  - rewrite Hc. cbn [bind]. rewrite IH. unfold get_count at 2. rewrite Hc. simpl.
    f_equal. lia.
Qed.

Lemma total_symbols_sum (ms : gmap string nat) primary :
  Forall (fun c => is_Some (ms !! c)) primary ->
  total_symbols ms primary = Returns (list_sum (map (get_count ms) primary)).
Proof. intros H. apply (total_symbols_from 0 ms primary H). Qed.

Lemma flat_map_repeat_sum {A B} (g : A -> B) (f : A -> nat) cs :
  length (flat_map (fun c => repeat (g c) (f c)) cs) = list_sum (map f cs).
Proof.
  induction cs as [|c cs IH]; simpl; [reflexivity|].
  now rewrite length_app, repeat_length, IH.
Qed.

(** ** The primary colors are distinct *)

Lemma auto_colors_nodup cc :
  List.NoDup (auto_colors cc) /\ incl (auto_colors cc) single_colors.
Proof.
  destruct (auto_colors_top cc) as (c1 & c2 & -> & Hne & H1 & H2 & _). split.
  - constructor; [simpl; intuition congruence|].
    constructor; [simpl; tauto|constructor].
  - intros x [<-|[<-|[]]]; assumption.
Qed.

Lemma resolve_primary_colors_nodup cc arch :
  List.NoDup (resolve_primary_colors cc arch).
Proof.
  unfold resolve_primary_colors.
  destruct (String.eqb arch "auto"); [apply auto_colors_nodup|].
  destruct (mem arch two_color_codes) eqn:E2.
  { apply mem_In in E2. simpl in E2.
    repeat (destruct E2 as [<-|E2];
            [simpl; repeat constructor; simpl; intuition discriminate|]).
    destruct E2. }
  destruct (mem arch three_color_codes) eqn:E3.
  { apply mem_In in E3. simpl in E3.
    repeat (destruct E3 as [<-|E3];
            [simpl; repeat constructor; simpl; intuition discriminate|]).
    destruct E3. }
  destruct (String.prefix "MONO_" arch).
  { repeat constructor. simpl. tauto. }
  destruct (String.eqb arch "5C").
  { repeat constructor; simpl; intuition discriminate. }
  apply auto_colors_nodup.
Qed.

(** The colors are among the five, but for a "MONO_" code, which gives
    its last character whatever it is. *)
Lemma resolve_primary_colors_known cc arch :
  (String.prefix "MONO_" arch = true -> In (last_char arch) single_colors) ->
  incl (resolve_primary_colors cc arch) single_colors.
Proof.
  intros Hmono. unfold resolve_primary_colors.
  destruct (String.eqb arch "auto"); [apply auto_colors_nodup|].
  destruct (mem arch two_color_codes) eqn:E2.
  { apply mem_In in E2. simpl in E2.
    repeat (destruct E2 as [<-|E2];
            [intros x Hx; simpl in Hx |- *; intuition|]).
    destruct E2. }
  destruct (mem arch three_color_codes) eqn:E3.
  { apply mem_In in E3. simpl in E3.
    repeat (destruct E3 as [<-|E3];
            [intros x Hx; simpl in Hx |- *; intuition|]).
    destruct E3. }
  destruct (String.prefix "MONO_" arch).
  { intros x [<-|[]]. now apply Hmono. }
  destruct (String.eqb arch "5C"); [apply incl_refl|].
  apply auto_colors_nodup.
Qed.

(** ** The layout of the mana base *)

Lemma incr_each_dom (f : string -> nat) primary (ms ms' : gmap string nat) c :
  for_each (fun ms color => incr (f color) ms color) primary ms = Returns ms' ->
  ms !! c = None -> ms' !! c = None.
Proof.
  revert ms. induction primary as [|k rest IH]; intros ms H Hc; simpl in H.
  - now injection H as <-.
  - bind_inv H. apply incr_inv in Ha as (v & Ev & ->). apply (IH _ H).
    rewrite lookup_insert_ne; [exact Hc|]. intros ->. congruence.
Qed.

Lemma count_symbols_dom primary selected (ms0 ms : gmap string nat) c :
  for_each
    (fun ms p =>
       for_each (fun ms color => incr (str_count (mana_cost (sc_card p)) color) ms color)
                primary ms)
    selected ms0 = Returns ms ->
  ms0 !! c = None -> ms !! c = None.
Proof.
  revert ms0. induction selected as [|p sel IH]; intros ms0 H Hc; simpl in H.
  - now injection H as <-.
  - bind_inv H. apply (IH _ H). eapply incr_each_dom; eassumption.
Qed.

Lemma total_symbols_inv acc (ms : gmap string nat) primary total :
  for_each (fun acc color =>
              match ms !! color with
              | Some v => Returns (acc + v)
              | None => Raises (KeyError color)
              end) primary acc = Returns total ->
  Forall (fun c => is_Some (ms !! c)) primary.
Proof.
  revert acc. induction primary as [|c cs IH]; intros acc H; [constructor|].
  simpl in H. destruct (ms !! c) as [v|] eqn:E; [|discriminate].
  cbn [bind] in H. constructor; [eauto|]. eapply IH. exact H.
Qed.

Lemma single_colors_lookup c :
  is_Some (mana_symbols_init !! c) -> In c single_colors.
Proof.
  intros [v H]. unfold mana_symbols_init in H.
  apply elem_of_list_to_map_2 in H. apply list_elem_of_In in H.
  simpl in H. unfold single_colors. simpl.
  intuition (try congruence).
Qed.

(** A mana base is returned for known colors only. *)
Lemma mana_base_known primary selected lands :
  mana_base primary selected = Returns lands ->
  Forall (fun c => In c single_colors) primary.
Proof.
  unfold mana_base. intros H. bind_inv H. bind_inv H.
  apply total_symbols_inv in Ha0. rewrite List.Forall_forall in *.
  intros c Hc. apply single_colors_lookup.
  destruct (mana_symbols_init !! c) eqn:E; [eauto|].
  apply (count_symbols_dom _ _ _ _ c Ha) in E. apply Ha0 in Hc.
  rewrite E in Hc. now destruct Hc.
Qed.

Lemma count_symbols_value primary selected ms c :
  List.NoDup primary -> In c primary -> In c single_colors ->
  count_symbols primary selected = Returns ms ->
  ms !! c = Some (symbols c selected).
Proof.
  intros Hnd Hc Hs H. unfold count_symbols in H.
  rewrite (count_symbols_spec _ _ _ _ Hnd H c).
  apply mem_In in Hc. rewrite Hc, (mana_symbols_init_lookup c Hs). reflexivity.
Qed.

Lemma mana_base_layout c cs selected ms total lands0 :
  count_symbols (c :: cs) selected = Returns ms ->
  total_symbols ms (c :: cs) = Returns total ->
  initial_lands (c :: cs) ms total (40 - length selected) = Returns lands0 ->
  length lands0 <= 40 - length selected ->
  mana_base (c :: cs) selected
  = Returns (lands0 ++ repeat (basic_land_name (arg_max (get_count ms) c cs))
                              (40 - length selected - length lands0)).
Proof.
  intros Hms Htot Hinit Hfit. unfold mana_base.
  rewrite Hms. cbn [bind]. rewrite Htot. cbn [bind]. rewrite Hinit. cbn [bind].
  rewrite (top_up_closed _ (c :: cs) ms _ lands0 (arg_max (get_count ms) c cs));
    [|reflexivity|lia].
  cbn [bind]. apply trim_noop. rewrite length_app, repeat_length. lia.
Qed.

Lemma arg_max_first key best xs :
  Forall (fun x => key x <= key best) xs -> arg_max key best xs = best.
Proof.
  induction 1 as [|x xs Hx _ IH]; simpl; [reflexivity|].
  apply Nat.ltb_ge in Hx. now rewrite Hx.
Qed.

Lemma returns_inj {A} (a b : A) : Returns a = Returns b -> a = b.
Proof. congruence. Qed.

(** X5: when the costs of the selected cards hold no symbol of a primary
    color, the lands are split evenly over the primary colors, in their
    order, and the lands that the floor division leaves over all go to
    the first primary color ([max] over equal counts keeps the first). *)
Theorem no_symbols_even_split pool arch cc selected lands first others :
  count_colors pool = Returns cc ->
  build_parts pool arch = Returns (selected, lands) ->
  resolve_primary_colors cc arch = first :: others ->
  (forall color, In color (first :: others) -> symbols color selected = 0) ->
  lands
  = flat_map (fun color =>
                repeat (basic_land_name color)
                       ((40 - length selected) / length (first :: others)))
             (first :: others)
    ++ repeat (basic_land_name first)
              ((40 - length selected) mod length (first :: others)).
Proof.
  intros Hcc H Hres Hzero. apply build_parts_inv in H as (cc' & Hcc' & _ & Hbase).
  rewrite Hcc in Hcc'. injection Hcc' as <-. rewrite Hres in Hbase.
  pose proof (resolve_primary_colors_nodup cc arch) as Hnd. rewrite Hres in Hnd.
  pose proof (mana_base_known _ _ _ Hbase) as Hknown.
  set (n := 40 - length selected) in *.
  assert (Hms : exists ms, count_symbols (first :: others) selected = Returns ms).
  { unfold mana_base in Hbase. destruct (count_symbols _ _); try discriminate. eauto. }
  destruct Hms as (ms & Hms).
  assert (Hval : forall c, In c (first :: others) -> ms !! c = Some 0).
  { intros c Hc. rewrite <- (Hzero c Hc).
    apply (count_symbols_value (first :: others) selected ms c Hnd Hc); [|exact Hms].
    rewrite List.Forall_forall in Hknown. auto. }
  assert (Hget : forall c, In c (first :: others) -> get_count ms c = 0).
  { intros c Hc. unfold get_count. now rewrite (Hval c Hc). }
  assert (Htot : total_symbols ms (first :: others) = Returns 0).
  { rewrite total_symbols_sum.
    - f_equal. clear -Hget. induction (first :: others) as [|c cs IH]; [reflexivity|].
      simpl. rewrite (Hget c) by now left. simpl. apply IH. intros x Hx.
      apply Hget. now right.
    - apply List.Forall_forall. intros c Hc. rewrite (Hval c Hc). eauto. }
  assert (Hmax : arg_max (get_count ms) first others = first).
  { apply arg_max_first. apply List.Forall_forall. intros x Hx.
    rewrite (Hget x) by now right. lia. }
  destruct others as [|second others].
  - rewrite (mana_base_layout first [] selected ms 0 (repeat (basic_land_name first) n)
               Hms Htot eq_refl) in Hbase.
    2:{ rewrite repeat_length. fold n. lia. }
    injection Hbase as <-. fold n. rewrite repeat_length.
    cbn [length flat_map arg_max]. rewrite Nat.div_1_r, Nat.mod_1_r, Nat.sub_diag.
    cbn [repeat]. now rewrite !app_nil_r.
  - assert (Hlen : length (flat_map (fun color =>
                                       repeat (basic_land_name color)
                                              (n / length (first :: second :: others)))
                                    (first :: second :: others))
                   = length (first :: second :: others)
                     * (n / length (first :: second :: others))).
    { apply (flat_map_repeat_length basic_land_name). }
    rewrite (mana_base_layout
               first (second :: others) selected ms 0
               (flat_map (fun color =>
                            repeat (basic_land_name color)
                                   (n / length (first :: second :: others)))
                         (first :: second :: others))
               Hms Htot eq_refl) in Hbase.
    2:{ fold n. rewrite Hlen. apply Nat.Div0.mul_div_le. }
    apply returns_inj in Hbase. subst lands. fold n. rewrite Hlen, Hmax.
    f_equal. f_equal.
    pose proof (Nat.div_mod_eq n (length (first :: second :: others))). lia.
Qed.

Lemma no_symbols_even_split_witness :
  exists selected lands,
    build_parts free_pool "GU" = Returns (selected, lands) /\
    lands = repeat "Forest" 18 ++ repeat "Island" 18 ++ ["Forest"].
Proof.
  exists (fst (returned ([], []) (build_parts free_pool "GU"))),
         (snd (returned ([], []) (build_parts free_pool "GU"))).
  split; [vm_compute; reflexivity|].
  rewrite (no_symbols_even_split
             free_pool "GU" (returned ∅ (count_colors free_pool))
             (fst (returned ([], []) (build_parts free_pool "GU")))
             (snd (returned ([], []) (build_parts free_pool "GU")))
             "G" ["U"]).
  - vm_compute. reflexivity.
  - vm_compute. reflexivity.
  - vm_compute. reflexivity.
  - vm_compute. reflexivity.
  - intros color [<-|[<-|[]]]; vm_compute; reflexivity.
Defined.

(** ** The shares do not exceed the lands needed *)

Lemma float_trunc_shift_eq x : float_trunc x = float_trunc_shift x.
Proof.
  unfold float_trunc, float_trunc_shift.
  destruct (Prim2SF x) as [| | |s m e]; try reflexivity.
  destruct (Z.leb_spec 0 e).
  - now rewrite Z.shiftl_mul_pow2.
  - rewrite Z.shiftr_div_pow2 by lia. reflexivity.
Qed.

Lemma all_between_spec count from f :
  all_between count from f = true ->
  forall z, (from <= z < from + Z.of_nat count)%Z -> f z = true.
Proof.
  revert from. induction count as [|k IH]; intros from H z Hz; [lia|].
  cbn [all_between] in H. apply andb_prop in H as [H0 H].
  destruct (Z.eq_dec z from) as [->|Hne]; [exact H0|].
  apply (IH _ H). lia.
Qed.

(** Every share of every mana base of 17 to 40 lands, the selected cards
    holding at most twelve symbols each, by evaluation. *)
Lemma shares_fit_checked :
  all_between 24 17
    (fun n => all_between (Z.to_nat (12 * (40 - n))) 1
                (fun t => all_between (Z.to_nat t + 1) 0
                            (fun s => share_fits n s t))) = true.
Proof. vm_cast_no_check (eq_refl true). Qed.

Lemma share_fits_small n s t :
  (17 <= n <= 40)%Z -> (0 < t <= 12 * (40 - n))%Z -> (0 <= s <= t)%Z ->
  share_fits n s t = true.
Proof.
  intros Hn Ht Hs.
  apply (all_between_spec (Z.to_nat t + 1) 0 (fun s => share_fits n s t)); [|lia].
  apply (all_between_spec
           (Z.to_nat (12 * (40 - n))) 1
           (fun t => all_between (Z.to_nat t + 1) 0 (fun s => share_fits n s t)));
    [|lia].
  apply (all_between_spec
           24 17
           (fun n => all_between (Z.to_nat (12 * (40 - n))) 1
                       (fun t => all_between (Z.to_nat t + 1) 0
                                   (fun s => share_fits n s t))));
    [|lia].
  exact shares_fit_checked.
Qed.

Lemma land_count_fits n s t :
  17 <= n <= 40 -> 0 < t <= 12 * (40 - n) -> s <= t ->
  land_count n s t * t <= n * s.
Proof.
  intros Hn Ht Hs.
  pose proof (share_fits_small (Z.of_nat n) (Z.of_nat s) (Z.of_nat t)
                ltac:(lia) ltac:(lia) ltac:(lia)) as H3.
  unfold share_fits in H3. apply Z.leb_le in H3.
  unfold land_count. rewrite float_trunc_shift_eq.
  change (float_trunc_shift _)
    with (land_count_Z (Z.of_nat n) (Z.of_nat s) (Z.of_nat t)).
  set (z := land_count_Z (Z.of_nat n) (Z.of_nat s) (Z.of_nat t)) in *.
  destruct (Z.le_gt_cases 0 z) as [Hz|Hz].
  - apply Nat2Z.inj_le. rewrite !Nat2Z.inj_mul, Z2Nat.id by exact Hz. exact H3.
  - replace (Z.to_nat z) with 0 by lia. lia.
Qed.

Lemma shares_sum_fits n t (ss : list nat) :
  17 <= n <= 40 -> 0 < t <= 12 * (40 - n) ->
  Forall (fun s => s <= t) ss ->
  list_sum (map (fun s => land_count n s t) ss) * t <= n * list_sum ss.
Proof.
  intros Hn Ht. induction 1 as [|s ss Hs _ IH]; simpl; [lia|].
  pose proof (land_count_fits n s t Hn Ht Hs). lia.
Qed.

Lemma list_sum_bounds (ss : list nat) : Forall (fun s => s <= list_sum ss) ss.
Proof.
  induction ss as [|s ss IH]; simpl; constructor; [lia|].
  eapply List.Forall_impl; [|exact IH]. simpl. intros. lia.
Qed.

(** The lands laid out by share fit into the lands needed. *)
Lemma shares_within n (ss : list nat) :
  17 <= n <= 40 -> 0 < list_sum ss <= 12 * (40 - n) ->
  list_sum (map (fun s => land_count n s (list_sum ss)) ss) <= n.
Proof.
  intros Hn Ht.
  pose proof (shares_sum_fits n (list_sum ss) ss Hn Ht (list_sum_bounds ss)) as H.
  apply (Nat.mul_le_mono_pos_r _ _ (list_sum ss)); lia.
Qed.

(** ** Counting the colors: when it returns, when it raises *)

Lemma incr_keys n keys (d : gmap string nat) k :
  has_keys keys d ->
  (In k keys -> exists d', incr n d k = Returns d' /\ has_keys keys d') /\
  (~ In k keys -> incr n d k = Raises (KeyError k)).
Proof.
  intros Hd. unfold incr. split; intros Hk.
  - apply Hd in Hk as Hs. destruct Hs as [v Hv]. rewrite Hv.
    eexists. split; [reflexivity|]. intros k'.
    destruct (decide (k = k')) as [->|Hne].
    + rewrite lookup_insert_eq. split; [intros _|eauto]. apply Hd. eauto.
    + rewrite lookup_insert_ne by exact Hne. apply Hd.
  - destruct (d !! k) as [v|] eqn:E; [|reflexivity].
    exfalso. apply Hk, Hd. eauto.
Qed.

Lemma incr_each_keys (f : string -> nat) keys cs (d : gmap string nat) :
  has_keys keys d ->
  (Forall (fun c => In c keys) cs ->
   exists d', for_each (fun d color => incr (f color) d color) cs d = Returns d' /\
              has_keys keys d') /\
  (Exists (fun c => ~ In c keys) cs ->
   exists k, ~ In k keys /\ In k cs /\
             for_each (fun d color => incr (f color) d color) cs d
             = Raises (KeyError k)).
Proof.
  revert d. induction cs as [|c cs IH]; intros d Hd.
  - split; [intros _; simpl; eauto|intros H; inversion H].
  - destruct (incr_keys (f c) keys d c Hd) as [Hin Hout]. split.
    + intros H. inversion H as [|? ? Hc Hcs]; subst.
      destruct (Hin Hc) as (d1 & E1 & Hd1). cbn [for_each]. rewrite E1. cbn [bind].
      now apply (IH d1 Hd1).
    + intros H. cbn [for_each].
      destruct (in_dec string_dec c keys) as [Hc|Hc].
      * destruct (Hin Hc) as (d1 & E1 & Hd1). rewrite E1. cbn [bind].
        inversion H as [? ? Hbad|? ? Hrest]; subst; [contradiction|].
        destruct (proj2 (IH d1 Hd1) Hrest) as (k & Hk & Hkin & E).
        exists k. split; [exact Hk|]. split; [now right|exact E].
      * rewrite (Hout Hc). exists c. split; [exact Hc|]. split; [now left|reflexivity].
Qed.

Lemma color_counts_init_keys : has_keys color_keys color_counts_init.
Proof.
  intros k. split.
  - intros [v H]. unfold color_counts_init in H.
    apply elem_of_list_to_map_2 in H. apply list_elem_of_In in H.
    simpl in H. unfold color_keys, single_colors. simpl.
    intuition (try congruence).
  - intros H. unfold color_keys, single_colors in H. simpl in H.
    repeat (destruct H as [<-|H]; [vm_compute; eauto|]). destruct H.
Qed.

Lemma count_card_keys (cc : gmap string nat) c :
  has_keys color_keys cc ->
  (Forall (fun color => In color color_keys) (colors c) ->
   exists cc', count_card cc c = Returns cc' /\ has_keys color_keys cc') /\
  (Exists (fun color => ~ In color color_keys) (colors c) ->
   exists k, ~ In k color_keys /\ In k (colors c) /\
             count_card cc c = Raises (KeyError k)).
Proof.
  intros Hcc. unfold count_card.
  destruct (colors c) as [|color [|color' cs]] eqn:E.
  - split; [intros _|intros H; inversion H].
    apply (incr_keys 1 color_keys cc "colorless" Hcc).
    unfold color_keys, single_colors. simpl. auto 10.
  - destruct (incr_keys 1 color_keys cc color Hcc) as [Hin Hout]. split.
    + intros H. inversion H; subst. auto.
    + intros H. inversion H as [? ? Hbad|? ? Hrest]; subst; [|inversion Hrest].
      exists color. split; [exact Hbad|]. split; [now left|auto].
  - destruct (proj1 (incr_keys 1 color_keys cc "multicolor" Hcc)) as (cc1 & E1 & H1).
    { unfold color_keys, single_colors. simpl. auto 10. }
    rewrite E1. cbn [bind].
    exact (incr_each_keys (fun _ => 1) color_keys (color :: color' :: cs) cc1 H1).
Qed.

Lemma count_colors_keys pool (cc0 : gmap string nat) :
  has_keys color_keys cc0 ->
  (Forall (fun c => Forall (fun color => In color color_keys) (colors c)) pool ->
   exists cc, for_each count_card pool cc0 = Returns cc /\ has_keys color_keys cc) /\
  (Exists (fun c => Exists (fun color => ~ In color color_keys) (colors c)) pool ->
   exists k, ~ In k color_keys /\
             for_each count_card pool cc0 = Raises (KeyError k)).
Proof.
  revert cc0. induction pool as [|c pool IH]; intros cc0 H0.
  - split; [intros _; simpl; eauto|intros H; inversion H].
  - destruct (count_card_keys cc0 c H0) as [Hin Hout]. split.
    + intros H. inversion H as [|? ? Hc Hrest]; subst.
      destruct (Hin Hc) as (cc1 & E1 & H1). cbn [for_each]. rewrite E1. cbn [bind].
      now apply (IH cc1 H1).
    + intros H. cbn [for_each].
      destruct (List.Forall_Exists_dec
                  (fun color => In color color_keys)
                  (fun color => in_dec string_dec color color_keys)
                  (colors c)) as [Hc|Hc].
      * destruct (Hin Hc) as (cc1 & E1 & H1). rewrite E1. cbn [bind].
        inversion H as [? ? Hbad|? ? Hrest]; subst.
        -- exfalso. apply List.Exists_exists in Hbad as (color & Hcol & Hno).
           rewrite List.Forall_forall in Hc. apply Hno. now apply Hc.
        -- exact (proj2 (IH cc1 H1) Hrest).
      * destruct (Hout Hc) as (k & Hk & _ & E). rewrite E. eauto.
Qed.

(** X6: a card with a color that is no key of [color_counts] makes the
    build raise KeyError on that color, whatever the rest of the pool and
    the archetype. *)
Theorem unknown_color_raises pool arch :
  Exists (fun c => Exists (fun color => ~ In color color_keys) (colors c)) pool ->
  exists k, ~ In k color_keys /\ build_deck pool arch = Raises (KeyError k).
Proof.
  intros H.
  destruct (proj2 (count_colors_keys pool color_counts_init color_counts_init_keys) H)
    as (k & Hk & E).
  exists k. split; [exact Hk|].
  unfold build_deck, build_parts, count_colors. rewrite E. reflexivity.
Qed.

Lemma unknown_color_raises_witness :
  exists k, build_deck [card_x; purple_card] "auto" = Raises (KeyError k).
Proof.
  destruct (unknown_color_raises [card_x; purple_card] "auto") as (k & _ & H).
  - apply Exists_cons_tl, Exists_cons_hd, Exists_cons_hd.
    vm_compute. intuition discriminate.
  - eauto.
Defined.

(** ** The symbols of the selected cards *)

Lemma list_sum_map_add {A} (f g : A -> nat) l :
  list_sum (map (fun x => f x + g x) l) = list_sum (map f l) + list_sum (map g l).
Proof. induction l as [|x l IH]; simpl; [reflexivity|]. rewrite IH. lia. Qed.

Lemma list_sum_incl (f : string -> nat) l l' :
  List.NoDup l -> incl l l' -> list_sum (map f l) <= list_sum (map f l').
Proof.
  intros Hnd. revert l'. induction Hnd as [|x l Hx Hnd IH]; intros l' Hincl; simpl.
  - lia.
  - destruct (in_split x l' (Hincl x (or_introl eq_refl))) as (l1 & l2 & ->).
    rewrite map_app, list_sum_app. simpl.
    assert (Hrest : incl l (l1 ++ l2)).
    { intros y Hy. assert (Hy' := Hincl y (or_intror Hy)).
      apply in_app_or in Hy'. apply in_or_app.
      destruct Hy' as [Hy'|[->|Hy']]; auto. contradiction. }
    specialize (IH _ Hrest). rewrite map_app, list_sum_app in IH. lia.
Qed.

Lemma symbols_total_bound primary selected :
  List.NoDup primary -> incl primary single_colors ->
  Forall (fun p => colored_symbols (mana_cost (sc_card p)) <= 12) selected ->
  list_sum (map (fun c => symbols c selected) primary) <= 12 * length selected.
Proof.
  intros Hnd Hincl. induction 1 as [|p sel Hp _ IH].
  - simpl. induction primary as [|c cs IHc]; [reflexivity|].
    apply IHc; [now inversion Hnd|]. intros x Hx. apply Hincl. now right.
  - rewrite (map_ext (fun c => symbols c (p :: sel))
                     (fun c => str_count (mana_cost (sc_card p)) c + symbols c sel))
      by (intros c; apply symbols_cons).
    rewrite list_sum_map_add.
    pose proof (list_sum_incl (str_count (mana_cost (sc_card p))) primary single_colors
                  Hnd Hincl) as Hle.
    unfold colored_symbols in Hp. simpl length. lia.
Qed.

(** ** The mana base is laid out and filled up *)

Lemma count_symbols_known primary selected :
  List.NoDup primary -> incl primary single_colors ->
  exists ms,
    count_symbols primary selected = Returns ms /\
    (forall c, In c primary -> ms !! c = Some (symbols c selected)) /\
    total_symbols ms primary
    = Returns (list_sum (map (fun c => symbols c selected) primary)).
Proof.
  intros Hnd Hincl.
  destruct (count_symbols_returns primary selected mana_symbols_init) as (ms & Hms).
  { apply List.Forall_forall. intros c Hc. rewrite mana_symbols_init_lookup; eauto. }
  assert (Hval : forall c, In c primary -> ms !! c = Some (symbols c selected)).
  { intros c Hc. apply (count_symbols_value primary selected ms c Hnd Hc); auto. }
  exists ms. split; [exact Hms|]. split; [exact Hval|].
  rewrite total_symbols_sum.
  - f_equal. f_equal. apply map_ext_in. intros c Hc. unfold get_count.
    now rewrite (Hval c Hc).
  - apply List.Forall_forall. intros c Hc. rewrite (Hval c Hc). eauto.
Qed.

Lemma initial_lands_fit primary ms selected :
  primary <> [] -> List.NoDup primary -> incl primary single_colors ->
  length selected <= 23 ->
  Forall (fun p => colored_symbols (mana_cost (sc_card p)) <= 12) selected ->
  (forall c, In c primary -> ms !! c = Some (symbols c selected)) ->
  exists lands0,
    initial_lands primary ms (list_sum (map (fun c => symbols c selected) primary))
                  (40 - length selected) = Returns lands0 /\
    length lands0 <= 40 - length selected.
Proof.
  intros Hne Hnd Hincl H23 Hsym Hval.
  set (total := list_sum (map (fun c => symbols c selected) primary)).
  destruct (total =? 0) eqn:E0.
  - apply Nat.eqb_eq in E0. rewrite E0. now apply initial_lands_even.
  - apply Nat.eqb_neq in E0. unfold initial_lands.
    apply Nat.eqb_neq in E0. rewrite E0. apply Nat.eqb_neq in E0.
    eexists. split; [reflexivity|].
    rewrite (flat_map_repeat_sum basic_land_name).
    rewrite (map_ext_in _ (fun c => land_count (40 - length selected)
                                               (symbols c selected) total)).
    2:{ intros c Hc. unfold get_count. now rewrite (Hval c Hc). }
    rewrite <- (map_map (fun c => symbols c selected)
                        (fun s => land_count (40 - length selected) s total)).
    apply shares_within; [lia|]. fold total.
    pose proof (symbols_total_bound primary selected Hnd Hincl Hsym). fold total in H.
    lia.
Qed.

Lemma arg_max_ext key key' best xs :
  (forall x, In x (best :: xs) -> key x = key' x) ->
  arg_max key best xs = arg_max key' best xs.
Proof.
  revert best. induction xs as [|x xs IH]; intros best H; simpl; [reflexivity|].
  rewrite (H best), (H x) by (simpl; auto). apply IH.
  intros y [<-|Hy].
  - destruct (key' best <? key' x); apply H; simpl; auto.
  - apply H. simpl. auto.
Qed.

(** The mana base of a selection, in full: the shares, then the lands
    that the truncation leaves over, all of the color with the most
    symbols. *)
Lemma mana_base_shares first others selected :
  List.NoDup (first :: others) -> incl (first :: others) single_colors ->
  length selected <= 23 ->
  Forall (fun p => colored_symbols (mana_cost (sc_card p)) <= 12) selected ->
  exists ms lands0,
    (forall c, In c (first :: others) -> ms !! c = Some (symbols c selected)) /\
    initial_lands (first :: others) ms
                  (list_sum (map (fun c => symbols c selected) (first :: others)))
                  (40 - length selected) = Returns lands0 /\
    length lands0 <= 40 - length selected /\
    mana_base (first :: others) selected
    = Returns (lands0
               ++ repeat (basic_land_name
                            (arg_max (fun c => symbols c selected) first others))
                         (40 - length selected - length lands0)).
Proof.
  intros Hnd Hincl H23 Hsym.
  destruct (count_symbols_known (first :: others) selected Hnd Hincl)
    as (ms & Hms & Hval & Htot).
  destruct (initial_lands_fit (first :: others) ms selected ltac:(discriminate)
                              Hnd Hincl H23 Hsym Hval) as (lands0 & Hinit & Hfit).
  exists ms, lands0. split; [exact Hval|]. split; [exact Hinit|]. split; [exact Hfit|].
  rewrite (mana_base_layout first others selected ms _ lands0 Hms Htot Hinit Hfit).
  f_equal. f_equal. f_equal. f_equal. apply arg_max_ext.
  intros c Hc. unfold get_count. now rewrite (Hval c Hc).
Qed.

Lemma flat_map_ext_in {A B} (f g : A -> list B) l :
  (forall a, In a l -> f a = g a) -> flat_map f l = flat_map g l.
Proof.
  induction l as [|x l IH]; intros H; simpl; [reflexivity|].
  rewrite (H x) by now left. f_equal. apply IH. intros a Ha. apply H. now right.
Qed.

(** X7: when the costs of the selected cards do hold symbols of the
    primary colors (at most twelve colored symbols a card), each primary
    color gets [int(lands_needed * share)] lands, in the order of the
    primary colors; these never exceed the lands needed, so that no land
    is taken away again; and the lands still missing all go to one
    color, the first primary color with the most symbols. *)
Theorem shares_then_most_demanding pool arch cc selected lands first others :
  count_colors pool = Returns cc ->
  build_parts pool arch = Returns (selected, lands) ->
  resolve_primary_colors cc arch = first :: others ->
  Forall (fun p => colored_symbols (mana_cost (sc_card p)) <= 12) selected ->
  0 < list_sum (map (fun c => symbols c selected) (first :: others)) ->
  let needed := 40 - length selected in
  let total := list_sum (map (fun c => symbols c selected) (first :: others)) in
  let shares :=
    flat_map (fun c => repeat (basic_land_name c)
                              (land_count needed (symbols c selected) total))
             (first :: others) in
  length shares <= needed /\
  lands = shares
          ++ repeat (basic_land_name (arg_max (fun c => symbols c selected) first others))
                    (needed - length shares).
Proof.
  intros Hcc H Hres Hsym Hpos needed total shares.
  apply build_parts_inv in H as (cc' & Hcc' & Hsel & Hbase).
  rewrite Hcc in Hcc'. injection Hcc' as <-. rewrite Hres in Hbase.
  pose proof (resolve_primary_colors_nodup cc arch) as Hnd. rewrite Hres in Hnd.
  pose proof (mana_base_known _ _ _ Hbase) as Hknown.
  assert (Hincl : incl (first :: others) single_colors).
  { intros c Hc. rewrite List.Forall_forall in Hknown. auto. }
  apply select_cards_length in Hsel.
  destruct (mana_base_shares first others selected Hnd Hincl Hsel Hsym)
    as (ms & lands0 & Hval & Hinit & Hfit & E).
  rewrite E in Hbase. apply returns_inj in Hbase. subst lands.
  fold total needed in Hinit, Hfit |- *.
  assert (E0 : lands0 = shares).
  { unfold initial_lands in Hinit.
    destruct (total =? 0) eqn:Ez; [apply Nat.eqb_eq in Ez; unfold total in Ez; lia|].
    apply returns_inj in Hinit. subst lands0. unfold shares.
    apply flat_map_ext_in. intros c Hc. unfold get_count.
    now rewrite (Hval c Hc). }
  rewrite E0 in *. split; [exact Hfit|reflexivity].
Qed.

Lemma shares_then_most_demanding_witness :
  exists selected lands,
    build_parts abzan_pool "WBG" = Returns (selected, lands) /\
    lands = repeat "Plains" 18 ++ repeat "Swamp" 9 ++ repeat "Forest" 9 ++ ["Plains"].
Proof.
  exists (fst (returned ([], []) (build_parts abzan_pool "WBG"))),
         (snd (returned ([], []) (build_parts abzan_pool "WBG"))).
  split; [vm_compute; reflexivity|].
  destruct (shares_then_most_demanding
              abzan_pool "WBG" (returned ∅ (count_colors abzan_pool))
              (fst (returned ([], []) (build_parts abzan_pool "WBG")))
              (snd (returned ([], []) (build_parts abzan_pool "WBG")))
              "W" ["B"; "G"]) as (_ & H).
  - vm_compute. reflexivity.
  - vm_compute. reflexivity.
  - vm_compute. reflexivity.
  - vm_compute. repeat constructor.
  - vm_compute. lia.
  - rewrite H. vm_compute. reflexivity.
Defined.

(** ** The build returns *)

Lemma playable_plain k cc pool arch :
  Forall (fun c => of_kind k (cmc c)) pool ->
  Forall (plain_entry k (score_kind (assoc arch archetype_weights)))
         (playable_of cc pool arch).
Proof.
  intros H. rewrite List.Forall_forall in *. intros p Hp.
  unfold playable_of in Hp. apply playable_cards_incl in Hp.
  unfold score_pool in Hp. apply in_map_iff in Hp as (c & <- & Hc).
  split; [now apply H|apply score_of_kind].
Qed.

Lemma selection_returns k cc pool arch :
  Forall (fun c => of_kind k (cmc c)) pool ->
  exists selected,
    select_cards (fun p => p) scored_eqb (min_creatures_of arch)
                 (playable_of cc pool arch) = Returns selected /\
    length selected <= 23 /\
    Forall (fun p => In (sc_card p) pool) selected.
Proof.
  intros H.
  destruct (select_cards_returns
              (fun p => p) scored_eqb
              (plain_entry k (score_kind (assoc arch archetype_weights)))
              (scored_eqb_refl _ _) (scored_eqb_sym _ _) (scored_eqb_trans _ _)
              (min_creatures_of arch) (playable_of cc pool arch)
              (playable_plain k cc pool arch H)) as (sel & Hsel).
  exists sel. split; [exact Hsel|]. split; [eapply select_cards_length; exact Hsel|].
  apply List.Forall_forall. intros p Hp.
  apply (select_cards_incl _ _ _ _ _ Hsel) in Hp.
  unfold playable_of in Hp. apply playable_cards_incl in Hp.
  unfold score_pool in Hp. apply in_map_iff in Hp as (c & <- & Hc). exact Hc.
Qed.

(** X8: the build returns a deck, whatever the archetype code, for every
    pool whose cards have colors among the keys of [color_counts], mana
    values that are all integers or all floats other than NaN, and at
    most twelve colored symbols in a cost; a "MONO_" code has to end in
    one of the five color letters. No exception is raised and both
    correcting loops of the mana base end. *)
Theorem build_deck_returns pool arch k :
  Forall (fun c => Forall (fun color => In color color_keys) (colors c)) pool ->
  Forall (fun c => of_kind k (cmc c)) pool ->
  Forall (fun c => colored_symbols (mana_cost c) <= 12) pool ->
  (String.prefix "MONO_" arch = true -> In (last_char arch) single_colors) ->
  exists deck, build_deck pool arch = Returns deck.
Proof.
  intros Hcol Hcmc Hsym Hmono.
  destruct (proj1 (count_colors_keys pool color_counts_init color_counts_init_keys) Hcol)
    as (cc & Hcc & _).
  destruct (selection_returns k cc pool arch Hcmc) as (sel & Hsel & H23 & Hfrom).
  pose proof (resolve_primary_colors_nodup cc arch) as Hnd.
  pose proof (resolve_primary_colors_known cc arch Hmono) as Hincl.
  pose proof (resolve_primary_colors_nonempty cc arch) as Hne.
  destruct (resolve_primary_colors cc arch) as [|first others] eqn:Hres; [congruence|].
  destruct (mana_base_shares first others sel Hnd Hincl H23)
    as (ms & lands0 & _ & _ & _ & E).
  { rewrite List.Forall_forall in *. intros p Hp. apply Hsym. now apply Hfrom. }
  eexists. unfold build_deck, build_parts, count_colors. rewrite Hcc. cbn [bind].
  rewrite Hsel. cbn [bind]. rewrite Hres, E. reflexivity.
Qed.

Lemma build_deck_returns_witness :
  exists deck, build_deck abzan_pool "MONO_W" = Returns deck.
Proof.
  apply (build_deck_returns abzan_pool "MONO_W" KFloat).
  - repeat (apply List.Forall_cons;
            [repeat (apply List.Forall_cons; [simpl; auto 10|]); apply List.Forall_nil|]).
    apply List.Forall_nil.
  - repeat (apply List.Forall_cons; [reflexivity|]). apply List.Forall_nil.
  - repeat (apply List.Forall_cons; [vm_compute; lia|]). apply List.Forall_nil.
  - intros _. simpl. auto.
Defined.

(** ** A mono-color code with an unknown letter *)

Lemma prefix_cons a s1 s2 :
  String.prefix (String a s1) s2 = true ->
  exists s2', s2 = String a s2' /\ String.prefix s1 s2' = true.
Proof.
  destruct s2 as [|b s2']; simpl; [discriminate|].
  destruct (ascii_dec a b) as [->|_]; [eauto|discriminate].
Qed.

Lemma mono_prefix_resolves cc arch :
  String.prefix "MONO_" arch = true ->
  resolve_primary_colors cc arch = [last_char arch].
Proof.
  intros H. unfold resolve_primary_colors. rewrite H.
  apply prefix_cons in H as (s1 & -> & H). apply prefix_cons in H as (s2 & -> & H).
  apply prefix_cons in H as (s3 & -> & H). apply prefix_cons in H as (s4 & -> & H).
  apply prefix_cons in H as (s5 & -> & _).
  reflexivity.
Qed.

Lemma count_symbols_unknown x selected :
  mana_symbols_init !! x = None ->
  mana_base [x] selected = Raises (KeyError x).
Proof.
  intros Hx. unfold mana_base, count_symbols. destruct selected as [|p sel].
  - cbn [for_each bind]. unfold total_symbols. cbn [for_each]. rewrite Hx. reflexivity.
  - cbn [for_each]. unfold incr at 1. rewrite Hx. reflexivity.
Qed.

Lemma mana_symbols_init_none x :
  ~ In x single_colors -> mana_symbols_init !! x = None.
Proof.
  intros H. destruct (mana_symbols_init !! x) eqn:E; [|reflexivity].
  exfalso. apply H. apply single_colors_lookup. eauto.
Qed.

(** X9: a code that starts with "MONO_" and does not end in one of the
    five color letters makes the build raise KeyError on its last
    character: the mana base has no count for it. (The pool has colors
    that the build knows and mana values of one kind, so that the build
    gets as far as the mana base.) *)
Theorem mono_unknown_letter_raises pool arch k :
  Forall (fun c => Forall (fun color => In color color_keys) (colors c)) pool ->
  Forall (fun c => of_kind k (cmc c)) pool ->
  String.prefix "MONO_" arch = true ->
  ~ In (last_char arch) single_colors ->
  build_deck pool arch = Raises (KeyError (last_char arch)).
Proof.
  intros Hcol Hcmc Hmono Hletter.
  destruct (proj1 (count_colors_keys pool color_counts_init color_counts_init_keys) Hcol)
    as (cc & Hcc & _).
  destruct (selection_returns k cc pool arch Hcmc) as (sel & Hsel & _).
  unfold build_deck, build_parts, count_colors. rewrite Hcc. cbn [bind].
  rewrite Hsel. cbn [bind]. rewrite (mono_prefix_resolves cc arch Hmono).
  rewrite (count_symbols_unknown _ sel (mana_symbols_init_none _ Hletter)).
  reflexivity.
Qed.

Lemma mono_unknown_letter_raises_witness :
  build_deck red_pool mono_purple = Raises (KeyError "P") /\
  build_deck [] "MONO_" = Raises (KeyError "_").
Proof.
  split.
  - apply (mono_unknown_letter_raises red_pool mono_purple KInt).
    + apply List.Forall_forall. intros c Hc. apply in_app_or in Hc as [Hc|Hc];
        apply repeat_spec in Hc; subst c;
        (apply List.Forall_cons; [simpl; auto 10|apply List.Forall_nil]).
    + apply List.Forall_forall. intros c Hc. apply in_app_or in Hc as [Hc|Hc];
        apply repeat_spec in Hc; subst c; exact I.
    + reflexivity.
    + simpl. intuition discriminate.
  - apply (mono_unknown_letter_raises [] "MONO_" KInt).
    + apply List.Forall_nil.
    + apply List.Forall_nil.
    + reflexivity.
    + simpl. intuition discriminate.
Defined.

(** ** What the color counts count *)

Lemma incr_ones_spec cs (d d' : gmap string nat) :
  for_each (incr 1) cs d = Returns d' ->
  forall k, d' !! k
            = (fun v => v + length (List.filter (String.eqb k) cs)) <$> d !! k.
Proof.
  revert d. induction cs as [|c cs IH]; intros d H k.
  - simpl in H. injection H as <-. simpl. destruct (d !! k); simpl; [|reflexivity].
    now rewrite Nat.add_0_r.
  - simpl in H. bind_inv H. apply incr_inv in Ha as (v & Ev & ->).
    rewrite (IH _ H k). cbn [List.filter].
    destruct (String.eqb k c) eqn:E.
    + apply String.eqb_eq in E. subst c. rewrite lookup_insert_eq, Ev. simpl.
      f_equal. lia.
    + apply String.eqb_neq in E. rewrite lookup_insert_ne by congruence.
      reflexivity.
Qed.

Lemma count_card_credit (cc cc' : gmap string nat) c :
  count_card cc c = Returns cc' ->
  forall k, cc' !! k = (fun v => v + credit k c) <$> cc !! k.
Proof.
  unfold count_card, credit. intros H k.
  assert (One : forall key d d',
             incr 1 d key = Returns d' ->
             d' !! k = (fun v => v + (if String.eqb k key then 1 else 0)) <$> d !! k).
  { intros key d d' Hi. apply incr_inv in Hi as (v & Ev & ->).
    destruct (String.eqb k key) eqn:E.
    - apply String.eqb_eq in E. subst key. rewrite lookup_insert_eq, Ev. reflexivity.
    - apply String.eqb_neq in E. rewrite lookup_insert_ne by congruence.
      destruct (d !! k); simpl; [|reflexivity]. now rewrite Nat.add_0_r. }
  destruct (colors c) as [|color [|color' cs]].
  - exact (One _ _ _ H).
  - exact (One _ _ _ H).
  - bind_inv H. rewrite (incr_ones_spec _ _ _ H k), (One _ _ _ Ha).
    destruct (cc !! k); simpl; [|reflexivity]. f_equal. lia.
Qed.

Lemma count_colors_credit pool (cc0 cc : gmap string nat) :
  for_each count_card pool cc0 = Returns cc ->
  forall k, cc !! k = (fun v => v + list_sum (map (credit k) pool)) <$> cc0 !! k.
Proof.
  revert cc0. induction pool as [|c pool IH]; intros cc0 H k.
  - simpl in H. injection H as <-. simpl. destruct (cc0 !! k); simpl; [|reflexivity].
    now rewrite Nat.add_0_r.
  - simpl in H. bind_inv H. rewrite (IH _ H k), (count_card_credit _ _ _ Ha k).
    destruct (cc0 !! k); simpl; [|reflexivity]. f_equal. lia.
Qed.

Lemma not_listed key cs :
  ~ In key cs -> length (List.filter (String.eqb key) cs) = 0.
Proof.
  induction cs as [|c cs IH]; simpl; [reflexivity|]. intros H.
  destruct (String.eqb key c) eqn:E.
  - apply String.eqb_eq in E. subst. tauto.
  - tauto.
Qed.

(** X10: the counts by color of a pool whose colors are the five
    letters: under a color, the times the cards of the pool list it (a
    card of several colors counts under each of them); under
    "colorless", the cards without a color; under "multicolor", the
    cards with two colors or more. *)
Theorem color_counts_of_pool pool cc :
  Forall (fun c => Forall (fun color => In color single_colors) (colors c)) pool ->
  count_colors pool = Returns cc ->
  (forall color, In color single_colors ->
                 cc !! color = Some (list_sum (map (listed color) pool))) /\
  cc !! "colorless"
  = Some (length (List.filter (fun c => length (colors c) =? 0) pool)) /\
  cc !! "multicolor"
  = Some (length (List.filter (fun c => 1 <? length (colors c)) pool)).
Proof.
  intros Hcol H. unfold count_colors in H.
  pose proof (count_colors_credit pool _ _ H) as Hcc.
  assert (Hkey : forall key, key = "colorless" \/ key = "multicolor" ->
                             forall c, In c pool -> ~ In key (colors c)).
  { intros key Hk c Hc Hin. rewrite List.Forall_forall in Hcol.
    specialize (Hcol c Hc). rewrite List.Forall_forall in Hcol.
    specialize (Hcol key Hin). simpl in Hcol.
    destruct Hk as [-> | ->]; intuition discriminate. }
  assert (Hsum : forall key (test : card -> bool),
             (forall c, In c pool -> credit key c = if test c then 1 else 0) ->
             list_sum (map (credit key) pool) = length (List.filter test pool)).
  { intros key test. clear. induction pool as [|c pool IH]; intros Hc; [reflexivity|].
    cbn [map List.filter].
    change (list_sum (credit key c :: map (credit key) pool))
      with (credit key c + list_sum (map (credit key) pool)).
    rewrite (Hc c (or_introl eq_refl)).
    rewrite IH by (intros c' Hc'; apply Hc; now right).
    destruct (test c); reflexivity. }
  split; [|split].
  - intros color Hc. rewrite (Hcc color).
    assert (E : color_counts_init !! color = Some 0).
    { simpl in Hc. repeat (destruct Hc as [<-|Hc]; [reflexivity|]). destruct Hc. }
    rewrite E. cbv [fmap option_fmap option_map]. f_equal. rewrite Nat.add_0_l.
    f_equal. apply map_ext. intros c. unfold credit, listed.
    assert (N1 : String.eqb color "multicolor" = false).
    { simpl in Hc. repeat (destruct Hc as [<-|Hc]; [reflexivity|]). destruct Hc. }
    assert (N2 : String.eqb color "colorless" = false).
    { simpl in Hc. repeat (destruct Hc as [<-|Hc]; [reflexivity|]). destruct Hc. }
    destruct (colors c) as [|x [|y cs]].
    + now rewrite N2.
    + simpl. destruct (String.eqb color x); reflexivity.
    + now rewrite N1.
  - rewrite (Hcc "colorless"). change (color_counts_init !! "colorless") with (Some 0).
    cbv [fmap option_fmap option_map]. f_equal. rewrite Nat.add_0_l.
    apply Hsum. intros c Hc.
    pose proof (Hkey "colorless" (or_introl eq_refl) c Hc) as Hno.
    unfold credit. destruct (colors c) as [|x [|y cs]].
    + reflexivity.
    + destruct (String.eqb_spec "colorless" x) as [<-|_]; [|reflexivity].
      exfalso. apply Hno. now left.
    + rewrite (not_listed "colorless" (x :: y :: cs) Hno). reflexivity.
  - rewrite (Hcc "multicolor"). change (color_counts_init !! "multicolor") with (Some 0).
    cbv [fmap option_fmap option_map]. f_equal. rewrite Nat.add_0_l.
    apply Hsum. intros c Hc.
    pose proof (Hkey "multicolor" (or_intror eq_refl) c Hc) as Hno.
    unfold credit. destruct (colors c) as [|x [|y cs]].
    + reflexivity.
    + destruct (String.eqb_spec "multicolor" x) as [<-|_]; [|reflexivity].
      exfalso. apply Hno. now left.
    + rewrite (not_listed "multicolor" (x :: y :: cs) Hno). reflexivity.
Qed.

Lemma color_counts_of_pool_witness :
  returned ∅ (count_colors [azorius_charm; card_x; ornithopter]) !! "U" = Some 1 /\
  returned ∅ (count_colors [azorius_charm; card_x; ornithopter]) !! "multicolor"
  = Some 1.
Proof.
  destruct (color_counts_of_pool
              [azorius_charm; card_x; ornithopter]
              (returned ∅ (count_colors [azorius_charm; card_x; ornithopter])))
    as (H1 & _ & H3).
  - repeat (apply List.Forall_cons;
            [repeat (apply List.Forall_cons; [simpl; auto 10|]); apply List.Forall_nil|]).
    apply List.Forall_nil.
  - vm_compute. reflexivity.
  - split; [rewrite H1; [reflexivity|simpl; auto]|rewrite H3; reflexivity].
Defined.

(** ** The batch of a simulation *)

Lemma run_drafts_shape cards runs first archetype distribution g decks g' :
  run_drafts cards runs first archetype distribution g = Returns (decks, g') ->
  length decks = runs /\
  forall i deck,
    nth_error decks i = Some deck ->
    length deck = 40 /\
    exists current,
      (distribution = None -> current = archetype) /\
      Forall (fun card => dc_archetype card = Some current /\
                          dc_draft_number card = Some (first + i)) deck.
Proof.
  revert first g decks g'. induction runs as [|runs IH]; intros first g decks g' H.
  - injection H as <- <-. split; [reflexivity|]. intros [|i] deck Hd; discriminate.
  - cbn [run_drafts] in H.
    apply cbind_returns in H as (pool & g1 & _ & H).
    apply cbind_returns in H as (current & g2 & Hcur & H).
    apply cbind_returns in H as (deck0 & g3 & Hdeck & H).
    apply cbind_returns in H as (rest & g4 & Hrest & H).
    injection H as <- <-. apply IH in Hrest as (Hlen & Hrest).
    split; [simpl; now f_equal|]. intros [|i] deck Hd.
    + injection Hd as <-. apply lift_returns in Hdeck as [Hdeck _].
      apply build_deck_shape in Hdeck as (sel & lands & -> & H23 & Hl & _).
      split; [rewrite length_map, length_app, !length_map; lia|].
      exists current. split.
      * intros ->. now injection Hcur as <- <-.
      * apply List.Forall_forall. intros card Hc.
        apply in_map_iff in Hc as (e & <- & _). rewrite Nat.add_0_r. split; reflexivity.
    + simpl in Hd. destruct (Hrest i deck Hd) as (H40 & cur & Hcur' & Htags).
      split; [exact H40|]. exists cur. split; [exact Hcur'|].
      replace (first + S i) with (S first + i) by lia. exact Htags.
Qed.

(** X11: a simulation that returns gives as many decks as drafts were
    asked for, each of 40 cards; the cards of the deck at index [i] all
    carry the draft number [i] and one and the same archetype, which is
    the [archetype] argument when no distribution is given ([None], or a
    dict without entries). *)
Theorem simulate_drafts_batch cards num_drafts archetype archetype_distribution
        g decks g' :
  simulate_drafts cards num_drafts archetype archetype_distribution g
  = Returns (decks, g') ->
  length decks = num_drafts /\
  forall i deck,
    nth_error decks i = Some deck ->
    length deck = 40 /\
    exists current,
      (truthy archetype_distribution = None -> current = archetype) /\
      Forall (fun card => dc_archetype card = Some current /\
                          dc_draft_number card = Some i) deck.
Proof.
  unfold simulate_drafts. intros H.
  apply cbind_returns in H as (distribution & g1 & Hd & H).
  apply run_drafts_shape in H as (Hlen & H). split; [exact Hlen|].
  intros i deck Hi. destruct (H i deck Hi) as (H40 & current & Hcur & Htags).
  split; [exact H40|]. exists current. split; [|exact Htags].
  intros Hnone. rewrite Hnone in Hd. injection Hd as <- <-. now apply Hcur.
Qed.

Lemma simulate_drafts_batch_witness :
  exists decks g',
    simulate_drafts sample_set 2 "RW" (Some []) zero_rng = Returns (decks, g') /\
    length decks = 2.
Proof.
  pose (run := returned ([], zero_rng)
                        (simulate_drafts sample_set 2 "RW" (Some []) zero_rng)).
  exists (fst run), (snd run).
  assert (E : simulate_drafts sample_set 2 "RW" (Some []) zero_rng
              = Returns (fst run, snd run)) by (vm_compute; reflexivity).
  split; [exact E|].
  exact (proj1 (simulate_drafts_batch sample_set 2 "RW" (Some []) zero_rng
                                      (fst run) (snd run) E)).
Defined.

(** ** A distribution that sums to zero *)

Lemma float_zero_below f :
  PrimFloat.eqb f (float_of_Z 0) = true -> PrimFloat.leb 0.99 f = false.
Proof.
  rewrite FloatAxioms.eqb_spec, FloatAxioms.leb_spec.
  change (Prim2SF (float_of_Z 0)) with (S754_zero false).
  set (bound := Prim2SF 0.99). vm_compute in bound. subst bound.
  unfold SFeqb, SFleb. destruct (Prim2SF f) as [s|s| |s m e]; simpl;
    try discriminate; try reflexivity.
  - destruct s; discriminate.
  - destruct s; discriminate.
Qed.

Lemma zero_total_rejected total :
  num_eqb total (Int 0) = true ->
  num_leb (Float 0.99) total && num_leb total (Float 1.01) = false.
Proof.
  intros H. apply andb_false_intro1. destruct total as [z|f]; simpl in *.
  - apply Z.eqb_eq in H. subst z. vm_compute. reflexivity.
  - now apply float_zero_below.
Qed.

(** X12: a distribution with entries whose weights sum to zero makes
    [simulate_drafts] raise ZeroDivisionError in the normalization,
    before any pool is generated: whatever the card set, the archetype
    and the number of drafts, zero included. *)
Theorem zero_distribution_raises cards num_drafts archetype item items g :
  num_eqb (distribution_total (item :: items)) (Int 0) = true ->
  simulate_drafts cards num_drafts archetype (Some (item :: items)) g
  = Raises ZeroDivisionError.
Proof.
  intros H. unfold simulate_drafts, truthy, cbind, lift, validate_distribution.
  rewrite (zero_total_rejected _ H). cbn [negb]. rewrite H. reflexivity.
Qed.

Lemma zero_distribution_raises_witness :
  simulate_drafts [] 0 "auto" (Some [("WB", Float 0.5); ("UR", Float (-0.5))]) zero_rng
  = Raises ZeroDivisionError.
Proof.
  apply (zero_distribution_raises [] 0 "auto" ("WB", Float 0.5) [("UR", Float (-0.5))]).
  vm_compute. reflexivity.
Defined.

(** ** The tallies are exact *)

Lemma tally_found k counts :
  In k (map fst counts) ->
  exists l1 n l2,
    counts = l1 ++ (k, n) :: l2 /\ ~ In k (map fst l1) /\
    tally String.eqb k counts = l1 ++ (k, S n) :: l2.
Proof.
  induction counts as [|[k' n'] counts IH]; simpl; [tauto|].
  destruct (String.eqb_spec k' k) as [->|Hne].
  - intros _. exists [], n', counts. simpl. auto.
  - intros [E|H]; [congruence|]. destruct (IH H) as (l1 & n & l2 & -> & Hno & ->).
    exists ((k', n') :: l1), n, l2. simpl. split; [reflexivity|]. split; [|reflexivity].
    intros [E|Hin]; [congruence|contradiction].
Qed.

Lemma tally_new k counts :
  ~ In k (map fst counts) -> tally String.eqb k counts = counts ++ [(k, 1)].
Proof.
  induction counts as [|[k' n'] counts IH]; simpl; [reflexivity|]. intros H.
  destruct (String.eqb_spec k' k) as [->|Hne]; [tauto|].
  rewrite IH by tauto. reflexivity.
Qed.

Lemma times_app k xs ys : times k (xs ++ ys) = times k xs + times k ys.
Proof. unfold times. now rewrite List.filter_app, length_app. Qed.

Lemma times_pos k ks : In k ks <-> 0 < times k ks.
Proof.
  unfold times. induction ks as [|x ks IH]; simpl; [split; [tauto|lia]|].
  destruct (String.eqb_spec k x) as [->|Hne]; simpl.
  - split; [lia|auto].
  - rewrite <- IH. split; [intros [E|H]; [congruence|exact H]|auto].
Qed.

Lemma times_one k x : times k [x] = if String.eqb k x then 1 else 0.
Proof. unfold times. simpl. destruct (String.eqb k x); reflexivity. Qed.

Lemma tallied_step counts column k :
  tallied counts column -> tallied (tally String.eqb k counts) (column ++ [k]).
Proof.
  intros (Hnd & Hin & Hall & Hsum).
  destruct (in_dec string_dec k (map fst counts)) as [Hk|Hk].
  - destruct (tally_found k counts Hk) as (l1 & n & l2 & -> & Hno & ->).
    rewrite map_app in Hnd. cbn [map fst] in Hnd.
    repeat split.
    + rewrite map_app. exact Hnd.
    + apply in_app_or in H as [H|[H|H]].
      * destruct (Hin k0 n0) as [E _]; [apply in_or_app; now left|].
        rewrite times_app, times_one.
        destruct (String.eqb_spec k0 k) as [->|_]; [|lia].
        exfalso. apply Hno. apply in_map_iff. exists (k, n0). auto.
      * injection H as <- <-. destruct (Hin k n) as [E _].
        { apply in_or_app. right. now left. }
        rewrite times_app, times_one, String.eqb_refl. lia.
      * destruct (Hin k0 n0) as [E _]; [apply in_or_app; right; now right|].
        rewrite times_app, times_one.
        destruct (String.eqb_spec k0 k) as [->|_]; [|lia].
        exfalso. apply NoDup_remove_2 in Hnd. apply Hnd. apply in_or_app. right.
        apply in_map_iff. exists (k, n0). auto.
    + apply in_app_or in H as [H|[H|H]].
      * destruct (Hin k0 n0) as [_ E]; [apply in_or_app; now left|exact E].
      * injection H as <- <-. lia.
      * destruct (Hin k0 n0) as [_ E]; [apply in_or_app; right; now right|exact E].
    + intros k0 H0. rewrite map_app. cbn [map fst].
      apply in_app_or in H0 as [H0|[<-|[]]].
      * apply Hall in H0. rewrite map_app in H0. exact H0.
      * apply in_or_app. right. now left.
    + rewrite length_app. simpl. rewrite <- Hsum, !map_app, !list_sum_app. simpl. lia.
  - rewrite (tally_new k counts Hk).
    assert (Hzero : times k column = 0).
    { destruct (times k column) eqn:E; [reflexivity|]. exfalso. apply Hk, Hall.
      apply times_pos. lia. }
    repeat split.
    + rewrite map_app. simpl.
      eapply Permutation.Permutation_NoDup; [apply Permutation_cons_append|].
      now constructor.
    + apply in_app_or in H as [H|[H|[]]].
      * destruct (Hin k0 n H) as [E _]. rewrite times_app, times_one.
        destruct (String.eqb_spec k0 k) as [->|_]; [|lia].
        exfalso. apply Hk. apply in_map_iff. exists (k, n). auto.
      * injection H as <- <-. rewrite times_app, times_one, String.eqb_refl. lia.
    + apply in_app_or in H as [H|[H|[]]].
      * now destruct (Hin k0 n H).
      * injection H as <- <-. lia.
    + intros k0 H0. rewrite map_app. apply in_or_app.
      apply in_app_or in H0 as [H0|[<-|[]]]; [left; auto|right; now left].
    + rewrite length_app, map_app, list_sum_app. simpl. lia.
Qed.

Lemma tallied_fold ks counts column :
  tallied counts column ->
  tallied (fold_left (fun counts k => tally String.eqb k counts) ks counts)
          (column ++ ks).
Proof.
  revert counts column. induction ks as [|k ks IH]; intros counts column H; simpl.
  - now rewrite app_nil_r.
  - replace (column ++ k :: ks) with ((column ++ [k]) ++ ks)
      by (now rewrite <- app_assoc).
    apply IH. now apply tallied_step.
Qed.

Lemma occurrences_tallied ks : tallied (occurrences String.eqb ks) ks.
Proof.
  apply (tallied_fold ks [] []). split; [constructor|].
  split; [intros k n []|]. split; [intros k []|reflexivity].
Qed.

Lemma list_sum_perm l l' : Permutation l l' -> list_sum l = list_sum l'.
Proof. induction 1; simpl; lia. Qed.

Lemma tallied_perm counts counts' column :
  Permutation counts counts' -> tallied counts column -> tallied counts' column.
Proof.
  intros Hp (Hnd & Hin & Hall & Hsum). repeat split.
  - eapply Permutation.Permutation_NoDup; [|exact Hnd]. now apply Permutation_map.
  - apply (Hin k n). eapply Permutation_in; [symmetry; exact Hp|exact H].
  - apply (Hin k n). eapply Permutation_in; [symmetry; exact Hp|exact H].
  - intros k Hk. eapply Permutation_in; [apply Permutation_map; exact Hp|auto].
  - rewrite <- Hsum. symmetry. apply list_sum_perm. now apply Permutation_map.
Qed.

Lemma value_counts_tallied ks : tallied (value_counts String.eqb ks) ks.
Proof.
  apply (tallied_perm (occurrences String.eqb ks)); [|apply occurrences_tallied].
  symmetry. apply sort_desc_perm.
Qed.

Lemma value_counts_sorted ks :
  StronglySorted (fun x y => snd y <= snd x) (value_counts String.eqb ks).
Proof. apply (sort_desc_sorted snd). Qed.

Lemma nodup_firstn {A} n (l : list A) : List.NoDup l -> List.NoDup (firstn n l).
Proof.
  intros H. rewrite <- (firstn_skipn n l) in H. now apply NoDup_app_remove_r in H.
Qed.

Lemma sorted_firstn {A} (R : A -> A -> Prop) n l :
  StronglySorted R l -> StronglySorted R (firstn n l).
Proof.
  revert n. induction l as [|x l IH]; intros [|n] H; simpl; try constructor.
  - apply IH. now inversion H.
  - inversion H as [|? ? _ Hx]; subst. rewrite List.Forall_forall in *.
    intros y Hy. apply Hx. eapply in_firstn. exact Hy.
Qed.

(** X13: the tallies of an analysis are exact counts over the flattened
    records. [most_common_cards] lists at most 20 card names, no name
    twice, most frequent first, each with the number of records of that
    name; a name that is left out occurs no more often than any name
    listed. [color_distribution] and [rarity_distribution] have one entry
    for each label that occurs, with the number of its records, and
    their counts add up to the number of records counted. *)
Theorem tallies_are_exact decks df a :
  analyze_drafts decks = Returns (df, a) ->
  df = card_records decks /\
  length (most_common_cards a) <= 20 /\
  List.NoDup (map fst (most_common_cards a)) /\
  StronglySorted (fun x y => snd y <= snd x) (most_common_cards a) /\
  (forall name n, In (name, n) (most_common_cards a) ->
                  n = times name (map card_name df) /\ 0 < n) /\
  (forall name, In name (map card_name df) ->
                In name (map fst (most_common_cards a)) \/
                (length (most_common_cards a) = 20 /\
                 forall name' n', In (name', n') (most_common_cards a) ->
                                  times name (map card_name df) <= n')) /\
  tallied (color_distribution a) (map record_colors df) /\
  (forall counts, rarity_distribution a = Some counts ->
                  tallied counts (present (map record_rarity df))).
Proof.
  unfold analyze_drafts. intros H.
  destruct (card_records decks) as [|r rs] eqn:E; [discriminate|].
  apply returns_inj, pair_equal_spec in H as [<- <-].
  cbn [most_common_cards color_distribution rarity_distribution].
  set (df := r :: rs) in *. set (names := map card_name df).
  pose proof (value_counts_tallied names) as (Hnd & Hin & Hall & Hsum).
  pose proof (value_counts_sorted names) as Hsorted.
  split; [reflexivity|]. split; [rewrite length_firstn; lia|].
  split; [rewrite <- firstn_map; now apply nodup_firstn|].
  split; [now apply sorted_firstn|]. split; [|split; [|split]].
  - intros name n Hn. apply Hin. eapply in_firstn. exact Hn.
  - intros name Hname. apply Hall in Hname.
    apply in_map_iff in Hname as ([name0 n] & E0 & Hn). cbn [fst] in E0. subst name0.
    rewrite <- (firstn_skipn 20 (value_counts String.eqb names)) in Hn.
    apply in_app_or in Hn as [Hn|Hn].
    + left. apply in_map_iff. exists (name, n). auto.
    + right.
      assert (Hlong : 20 < length (value_counts String.eqb names)).
      { destruct (Nat.le_gt_cases (length (value_counts String.eqb names)) 20)
          as [Hle|Hgt]; [|exact Hgt].
        rewrite (skipn_all2 _ Hle) in Hn. destruct Hn. }
      split; [rewrite length_firstn; lia|].
      intros name' n' Hn'.
      rewrite <- (firstn_skipn 20 (value_counts String.eqb names)) in Hsorted.
      apply sorted_app_above in Hsorted. rewrite List.Forall_forall in Hsorted.
      specialize (Hsorted _ Hn'). rewrite List.Forall_forall in Hsorted.
      specialize (Hsorted _ Hn). cbn [snd] in Hsorted.
      destruct (Hin name n) as [-> _]; [eapply in_skipn; exact Hn|exact Hsorted].
  - apply value_counts_tallied.
  - intros counts Hc. destruct (has_column (map record_rarity df)); [|discriminate].
    injection Hc as <-. apply value_counts_tallied.
Qed.

Lemma deck_records_nil i deck :
  deck_records i deck = [] <->
  Forall (fun card => basic_land (dc_entry card) = true) deck.
Proof.
  unfold deck_records, basic_land. split.
  - intros H. apply map_eq_nil in H. apply List.Forall_forall. intros card Hc.
    destruct (mem (entry_name (dc_entry card)) basic_land_names) eqn:E;
      [reflexivity|].
    assert (Hin : In card
                     (List.filter
                        (fun card => negb (mem (entry_name (dc_entry card))
                                               basic_land_names)) deck)).
    { apply filter_In. split; [exact Hc|]. now rewrite E. }
    rewrite H in Hin. destruct Hin.
  - intros H. rewrite filter_false; [reflexivity|].
    eapply List.Forall_impl; [|exact H]. cbv beta. intros card ->. reflexivity.
Qed.

Lemma records_from_nil i decks :
  records_from i decks = [] <->
  Forall (Forall (fun card => basic_land (dc_entry card) = true)) decks.
Proof.
  revert i. induction decks as [|deck decks IH]; intros i; simpl.
  - split; [constructor|reflexivity].
  - split.
    + intros H. apply app_eq_nil in H as [H1 H2]. constructor.
      * now apply deck_records_nil in H1.
      * now apply IH in H2.
    + inversion 1 as [|? ? H1 H2]; subst.
      apply (deck_records_nil i) in H1. apply (IH (S i)) in H2.
      now rewrite H1, H2.
Qed.

(** X14: the analysis raises KeyError on "card_name" exactly when
    no deck of the batch holds a card other than the six basic lands (so
    for a batch without decks), the frame being built from no record;
    for every other batch it returns. *)
Theorem analysis_needs_a_card decks :
  (analyze_drafts decks = Raises (KeyError "card_name") <->
   Forall (Forall (fun card => basic_land (dc_entry card) = true)) decks) /\
  ((exists df a, analyze_drafts decks = Returns (df, a)) <->
   ~ Forall (Forall (fun card => basic_land (dc_entry card) = true)) decks).
Proof.
  pose proof (records_from_nil 0 decks) as H. fold (card_records decks) in H.
  unfold analyze_drafts. destruct (card_records decks) as [|r rs].
  - split; [tauto|]. split.
    + intros (df & a & E). discriminate.
    + intros Hn. exfalso. apply Hn. now apply H.
  - split.
    + split; [discriminate|]. intros Hall. apply H in Hall. discriminate.
    + split; [|eauto]. intros _ Hall. apply H in Hall. discriminate.
Qed.

Lemma analysis_needs_a_card_witness :
  analyze_drafts [map (tag "MONO_R" 0) (repeat (Basic "Mountain") 40)]
  = Raises (KeyError "card_name").
Proof.
  apply (analysis_needs_a_card
           [map (tag "MONO_R" 0) (repeat (Basic "Mountain") 40)]).
  apply List.Forall_cons; [|apply List.Forall_nil].
  apply List.Forall_forall. intros card Hc.
  apply in_map_iff in Hc as (e & <- & He). apply repeat_spec in He. subst e.
  reflexivity.
Defined.

Lemma tallies_are_exact_witness :
  exists df a,
    analyze_drafts sample_batch = Returns (df, a) /\
    length (most_common_cards a) <= 20.
Proof.
  pose (result := returned ([], mk_analysis [] [] None None)
                           (analyze_drafts sample_batch)).
  exists (fst result), (snd result).
  assert (E : analyze_drafts sample_batch = Returns (fst result, snd result))
    by (vm_compute; reflexivity).
  split; [exact E|].
  exact (proj1 (proj2 (tallies_are_exact sample_batch (fst result) (snd result) E))).
Defined.

(** ** The analysis of a simulation *)

Lemma run_drafts_decks cards runs first archetype distribution g decks g' :
  run_drafts cards runs first archetype distribution g = Returns (decks, g') ->
  forall i deck,
    nth_error decks i = Some deck ->
    exists current selected lands,
      deck = map (tag current (first + i)) (map Picked selected ++ map Basic lands) /\
      Forall (fun n => In n basic_land_names) lands.
Proof.
  revert first g decks g'. induction runs as [|runs IH]; intros first g decks g' H.
  - injection H as <- <-. intros [|i] deck Hd; discriminate.
  - cbn [run_drafts] in H.
    apply cbind_returns in H as (pool & g1 & _ & H).
    apply cbind_returns in H as (current & g2 & Hcur & H).
    apply cbind_returns in H as (deck0 & g3 & Hdeck & H).
    apply cbind_returns in H as (rest & g4 & Hrest & H).
    injection H as <- <-. intros [|i] deck Hd.
    + injection Hd as <-. apply lift_returns in Hdeck as [Hdeck _].
      apply build_deck_shape in Hdeck as (sel & lands & -> & _ & _ & Hb).
      exists current, sel, lands. rewrite Nat.add_0_r. auto.
    + simpl in Hd. destruct (IH _ _ _ _ Hrest i deck Hd) as (cur & sel & lands & E & Hb).
      exists cur, sel, lands. replace (first + S i) with (S first + i) by lia. auto.
Qed.

Lemma records_from_in j decks r :
  In r (records_from j decks) ->
  exists i deck card,
    nth_error decks i = Some deck /\ In card deck /\
    basic_land (dc_entry card) = false /\ r = make_record (j + i) card.
Proof.
  revert j. induction decks as [|deck decks IH]; intros j H; simpl in H; [destruct H|].
  apply in_app_or in H as [H|H].
  - unfold deck_records in H. apply in_map_iff in H as (card & <- & Hc).
    apply filter_In in Hc as [Hc Hb]. apply negb_true_iff in Hb.
    exists 0, deck, card. rewrite Nat.add_0_r. auto.
  - apply IH in H as (i & deck' & card & Hn & Hc & Hb & ->).
    exists (S i), deck', card. replace (j + S i) with (S j + i) by lia. auto.
Qed.

(** X15: in the analysis of a simulation every flattened record comes
    from a card selected from a pool, never from a basic land that the
    build added: it carries a score, a mana value and a rarity, its deck
    id is its draft number and lies below the number of drafts. The
    analysis therefore always holds a mana curve and a rarity
    distribution. *)
Theorem analysis_of_simulation cards num_drafts archetype archetype_distribution
        g decks g' df a :
  simulate_drafts cards num_drafts archetype archetype_distribution g
  = Returns (decks, g') ->
  analyze_drafts decks = Returns (df, a) ->
  Forall (fun r => draft_number r = deck_id r /\
                   deck_id r < num_drafts /\
                   record_score r <> None /\
                   record_cmc r <> None /\
                   record_rarity r <> None) df /\
  mana_curve a <> None /\
  rarity_distribution a <> None.
Proof.
  intros Hsim Han.
  pose proof (simulate_drafts_batch _ _ _ _ _ _ _ Hsim) as (Hlen & _).
  unfold simulate_drafts in Hsim.
  apply cbind_returns in Hsim as (distribution & g1 & _ & Hrun).
  pose proof (run_drafts_decks _ _ _ _ _ _ _ _ Hrun) as Hdecks.
  unfold analyze_drafts in Han.
  destruct (card_records decks) as [|r0 rs] eqn:E; [discriminate|].
  apply returns_inj, pair_equal_spec in Han as [<- <-].
  cbn [mana_curve rarity_distribution].
  assert (Hall : Forall (fun r => draft_number r = deck_id r /\
                                  deck_id r < num_drafts /\
                                  record_score r <> None /\
                                  record_cmc r <> None /\
                                  record_rarity r <> None) (r0 :: rs)).
  { rewrite <- E. apply List.Forall_forall. intros r Hr. unfold card_records in Hr.
    apply records_from_in in Hr as (i & deck & card & Hn & Hc & Hb & ->).
    destruct (Hdecks i deck Hn) as (cur & sel & lands & -> & Hlands).
    assert (Hi : i < num_drafts).
    { rewrite <- Hlen. apply nth_error_Some. congruence. }
    apply in_map_iff in Hc as (e & <- & He). apply in_app_or in He as [He|He].
    - apply in_map_iff in He as (p & <- & _). simpl.
      repeat split; try discriminate; exact Hi.
    - apply in_map_iff in He as (land & <- & Hl). exfalso.
      rewrite List.Forall_forall in Hlands. specialize (Hlands land Hl).
      unfold basic_land in Hb. cbn [tag dc_entry entry_name] in Hb.
      apply mem_In in Hlands. congruence. }
  split; [exact Hall|]. inversion Hall as [|? ? (_ & _ & _ & Hc & Hr) _]; subst.
  split.
  - cbn [map has_column existsb]. destruct (record_cmc r0); [discriminate|congruence].
  - cbn [map has_column existsb]. destruct (record_rarity r0); [discriminate|congruence].
Qed.

Lemma analysis_of_simulation_witness :
  exists decks g' df a,
    simulate_drafts sample_set 2 "RW" None zero_rng = Returns (decks, g') /\
    analyze_drafts decks = Returns (df, a) /\
    mana_curve a <> None.
Proof.
  pose (run := returned ([], zero_rng)
                        (simulate_drafts sample_set 2 "RW" None zero_rng)).
  pose (result := returned ([], mk_analysis [] [] None None)
                           (analyze_drafts (fst run))).
  exists (fst run), (snd run), (fst result), (snd result).
  assert (E1 : simulate_drafts sample_set 2 "RW" None zero_rng
               = Returns (fst run, snd run)) by (vm_compute; reflexivity).
  assert (E2 : analyze_drafts (fst run) = Returns (fst result, snd result))
    by (vm_compute; reflexivity).
  split; [exact E1|]. split; [exact E2|].
  exact (proj1 (proj2 (analysis_of_simulation
                         sample_set 2 "RW" None zero_rng
                         (fst run) (snd run) (fst result) (snd result) E1 E2))).
Defined.

(** ** The two tables of land names *)

(** X16: the land names that [basic_land_name] gives are exactly the
    six names that [analyze_drafts] skips: each of the five color letters
    has a name of its own among them, every other string gives "Wastes",
    and each of the six names is given for some string. *)
Theorem land_names_agree :
  (forall color, In (basic_land_name color) basic_land_names) /\
  (forall name, In name basic_land_names -> exists color, basic_land_name color = name) /\
  (forall c1 c2, In c1 single_colors -> In c2 single_colors ->
                 basic_land_name c1 = basic_land_name c2 -> c1 = c2) /\
  (forall color, basic_land_name color = "Wastes" <-> ~ In color single_colors).
Proof.
  split; [apply basic_land_name_basic|]. split; [|split].
  - intros name H. simpl in H.
    destruct H as [<-|[<-|[<-|[<-|[<-|[<-|[]]]]]]];
      [exists "W"|exists "U"|exists "B"|exists "R"|exists "G"|exists ""]; reflexivity.
  - apply basic_land_name_inj.
  - intros color. split.
    + intros E H. simpl in H.
      destruct H as [<-|[<-|[<-|[<-|[<-|[]]]]]]; discriminate.
    + intros H. unfold basic_land_name.
      repeat match goal with
             | |- context [String.eqb color ?k] =>
                 destruct (String.eqb_spec color k) as [->|_];
                 [exfalso; apply H; simpl; auto 10|]
             end.
      reflexivity.
Qed.

Lemma land_names_agree_witness :
  exists color, basic_land_name color = "Swamp".
Proof.
  destruct land_names_agree as (_ & H & _). apply H. simpl. auto.
Defined.

(** ** Fewer creatures than asked for *)

Section BestEffort.
Context {A : Type} (view : A -> scored) (same : A -> A -> bool).
Hypothesis same_creature :
  forall a b, same a b = true -> creature (view a) = creature (view b).

Lemma select_cards_all_creatures m playable sel :
  m <= 23 ->
  select_cards view same m playable = Returns sel ->
  length (List.filter (fun a => creature (view a)) playable) < m ->
  length (List.filter (fun a => creature (view a)) sel)
  = length (List.filter (fun a => creature (view a)) playable).
Proof.
  intros Hm H Hfew. unfold select_cards in H. bind_inv H.
  apply returns_inj in H. subst sel. rewrite (top23_firstn playable) in Ha.
  set (cr := fun a => creature (view a)) in *.
  assert (Hsplit : length (List.filter cr playable)
                   = length (List.filter cr (firstn 23 playable))
                     + length (List.filter cr (skipn 23 playable))).
  { rewrite <- (firstn_skipn 23 playable) at 1.
    now rewrite List.filter_app, length_app. }
  set (c := length (List.filter cr (firstn 23 playable))) in *.
  assert (E : (c <? m) = true) by (apply Nat.ltb_lt; lia).
  rewrite E in Ha. bind_inv Ha. apply returns_inj in Ha. subst a.
  set (extra := firstn (m - c) (List.filter cr (skipn 23 playable))) in *.
  assert (Hextra : extra = List.filter cr (skipn 23 playable)).
  { unfold extra. apply firstn_all2. lia. }
  pose proof (evict_keeps_creatures view same same_creature) as Hkeep.
  match type of Ha0 with
  | evict _ ?n ?ncs _ = _ =>
      specialize (Hkeep n ncs (firstn 23 playable) a0);
      pose proof (evict_length same n ncs _ _ Ha0) as Hlen;
      assert (Hncs : length ncs + c = length (firstn 23 playable))
  end.
  { rewrite (Permutation_length (sort_asc_perm _ _ _)).
    pose proof (filter_split (fun a => creature (view a)) (firstn 23 playable)) as Hs.
    rewrite Nat.add_comm. exact Hs. }
  assert (Hcr : length (List.filter cr a0) = c).
  { apply Hkeep; [|exact Ha0]. apply List.Forall_forall. intros x Hx.
    eapply Permutation_in in Hx; [|apply (sort_asc_perm num_ltb)].
    apply filter_In in Hx as [_ Hx]. now apply negb_true_iff in Hx. }
  assert (Hall : length (List.filter cr extra) = length extra).
  { apply (all_creatures view). apply List.Forall_forall. intros x Hx.
    rewrite Hextra in Hx. now apply filter_In in Hx as [_ Hx]. }
  rewrite top23_short.
  - rewrite List.filter_app, length_app, Hcr, Hall, Hextra. lia.
  - rewrite length_app. rewrite length_firstn in Hncs, Hlen.
    assert (Hx : length extra = length (List.filter cr (skipn 23 playable)))
      by now rewrite Hextra.
    destruct (Nat.le_gt_cases (length playable) 23) as [Hle|Hgt].
    + rewrite (skipn_all2 _ Hle) in Hx. simpl in Hx. lia.
    + lia.
Qed.
End BestEffort.

(** X17: when the playable cards of the pool have fewer creatures than
    the archetype asks for, every one of them is in the deck: the deck
    holds as many creatures as the playable cards do. *)
Theorem all_creatures_when_short pool arch cc deck :
  count_colors pool = Returns cc ->
  build_deck pool arch = Returns deck ->
  length (List.filter creature (playable_of cc pool arch)) < min_creatures_of arch ->
  length (List.filter creature_entry deck)
  = length (List.filter creature (playable_of cc pool arch)).
Proof.
  intros Hcc H Hfew. apply build_deck_inv in H as (selected & lands & H & ->).
  apply build_parts_inv in H as (cc' & Hcc' & Hsel & _).
  rewrite Hcc in Hcc'. injection Hcc' as <-.
  rewrite creature_entries.
  apply (select_cards_all_creatures (fun p => p) scored_eqb scored_eqb_creature
                                    (min_creatures_of arch)).
  - pose proof (min_creatures_of_le arch). lia.
  - exact Hsel.
  - exact Hfew.
Qed.

Lemma all_creatures_when_short_witness :
  length (List.filter creature_entry (returned [] (build_deck burn_pool "MONO_R"))) = 3.
Proof.
  rewrite (all_creatures_when_short
             burn_pool "MONO_R" (returned ∅ (count_colors burn_pool))
             (returned [] (build_deck burn_pool "MONO_R"))).
  - vm_compute. reflexivity.
  - vm_compute. reflexivity.
  - vm_compute. reflexivity.
  - vm_compute. lia.
Defined.

(** ** The lands as objects *)

Lemma repeat_land_spec land n (h : gmap loc object) refs h' :
  repeat_land land n h = Returns (refs, h') ->
  exists l, h !! l = None /\ h' = <[l := land_object land]> h /\ refs = repeat l n.
Proof.
  unfold repeat_land. intros H. apply cbind_returns in H as (l & h1 & E & H).
  injection H as <- <-. apply alloc_spec in E as (F & -> & _). eauto.
Qed.

Lemma lands_in_weaken (h0 h h' : gmap loc object) refs names :
  lands_in h0 h refs names -> h ⊆ h' -> lands_in h0 h' refs names.
Proof.
  intros (S & F & N) S'. split; [etransitivity; eassumption|]. split; [exact F|].
  eapply Forall2_impl; [exact N|]. intros l name Hl. cbv beta in *.
  eapply lookup_weaken; eassumption.
Qed.

Lemma lands_in_rebase (h0 h1 h : gmap loc object) refs names :
  h0 ⊆ h1 -> lands_in h1 h refs names -> lands_in h0 h refs names.
Proof.
  intros S0 (S & F & N). split; [etransitivity; eassumption|]. split; [|exact N].
  eapply List.Forall_impl; [|exact F]. cbv beta. intros l Hl.
  destruct (h0 !! l) eqn:E; [|reflexivity].
  eapply lookup_weaken in E; [|exact S0]. congruence.
Qed.

Lemma lands_in_app (h0 h : gmap loc object) refs names refs' names' :
  lands_in h0 h refs names -> lands_in h0 h refs' names' ->
  lands_in h0 h (refs ++ refs') (names ++ names').
Proof.
  intros (S & F & N) (_ & F' & N'). split; [exact S|].
  split; [apply Forall_app; auto|now apply Forall2_app].
Qed.

Lemma lands_in_repeat (h : gmap loc object) l land n :
  h !! l = None ->
  lands_in h (<[l := land_object land]> h) (repeat l n) (repeat land n).
Proof.
  intros F. split; [now apply insert_subseteq|]. split.
  - apply List.Forall_forall. intros x Hx. apply repeat_spec in Hx. now subst.
  - induction n as [|n IH]; simpl; constructor; [apply lookup_insert_eq|exact IH].
Qed.

Lemma groups_spec (name : string -> string) (count : string -> nat) colors
      (h : gmap loc object) groups h' :
  map_comp (fun color => repeat_land (name color) (count color)) colors h
  = Returns (groups, h') ->
  lands_in h h' (concat groups)
           (flat_map (fun color => repeat (name color) (count color)) colors).
Proof.
  revert h groups h'. induction colors as [|c cs IH]; intros h groups h' H.
  - injection H as <- <-. split; [reflexivity|]. split; constructor.
  - cbn [map_comp] in H.
    apply cbind_returns in H as (g & h1 & E1 & H).
    apply cbind_returns in H as (gs & h2 & E2 & H). injection H as <- <-.
    apply repeat_land_spec in E1 as (l & F & -> & ->).
    apply IH in E2. cbn [concat flat_map]. apply lands_in_app.
    + eapply lands_in_weaken; [apply lands_in_repeat; exact F|apply E2].
    + eapply lands_in_rebase; [|exact E2]. now apply insert_subseteq.
Qed.

Lemma initial_lands_store_spec primary ms total needed (h : gmap loc object) refs h' :
  initial_lands_store primary ms total needed h = Returns (refs, h') ->
  exists names,
    initial_lands primary ms total needed = Returns names /\
    lands_in h h' refs names.
Proof.
  unfold initial_lands_store, initial_lands. destruct (total =? 0).
  - destruct primary as [|c [|c' cs]]; [discriminate| |]; intros H.
    + apply repeat_land_spec in H as (l & F & -> & ->).
      eexists. split; [reflexivity|]. now apply lands_in_repeat.
    + apply cbind_returns in H as (groups & h1 & E & H). injection H as <- <-.
      eexists. split; [reflexivity|].
      exact (groups_spec basic_land_name
                         (fun _ => needed / length (c :: c' :: cs)) _ _ _ _ E).
  - intros H. apply cbind_returns in H as (groups & h1 & E & H). injection H as <- <-.
    eexists. split; [reflexivity|].
    exact (groups_spec basic_land_name
                       (fun color => land_count needed (get_count ms color) total)
                       _ _ _ _ E).
Qed.

Lemma lands_in_length (h0 h : gmap loc object) refs names :
  lands_in h0 h refs names -> length refs = length names.
Proof. intros (_ & _ & N). eapply Forall2_length. exact N. Qed.

Lemma top_up_store_spec fuel primary ms needed (h0 h : gmap loc object)
      lands names lands' h' :
  lands_in h0 h lands names ->
  top_up_store fuel primary ms needed lands h = Returns (lands', h') ->
  exists names',
    top_up fuel primary ms needed names = Returns names' /\
    lands_in h0 h' lands' names'.
Proof.
  revert h lands names. induction fuel as [|fuel IH]; intros h lands names Hin H;
    cbn [top_up_store top_up] in *; rewrite <- (lands_in_length _ _ _ _ Hin).
  - destruct (length lands <? needed); [discriminate|]. injection H as <- <-. eauto.
  - destruct (length lands <? needed); [|injection H as <- <-; eauto].
    apply cbind_returns in H as (most & h1 & E1 & H).
    apply lift_returns in E1 as (E1 & ->). rewrite E1. cbn [bind].
    apply cbind_returns in H as (l & h2 & E2 & H).
    apply alloc_spec in E2 as (F & -> & S).
    apply (IH _ _ (names ++ [basic_land_name most])) in H; [exact H|].
    apply lands_in_app.
    + eapply lands_in_weaken; eassumption.
    + destruct Hin as (S0 & _ & _). split; [etransitivity; eassumption|]. split.
      * constructor; [|constructor]. destruct (h0 !! l) eqn:E; [|reflexivity].
        eapply lookup_weaken in E; [|exact S0]. congruence.
      * constructor; [apply lookup_insert_eq|constructor].
Qed.

Lemma land_object_name land :
  match land_object land with
  | ODict d => d !! "name" = Some (VStr land)
  | OList _ => False
  end.
Proof. reflexivity. Qed.

Lemma pop_first_store_spec land_name (h : gmap loc object) lands names popped h' :
  Forall2 (fun l name => h !! l = Some (land_object name)) lands names ->
  pop_first_store land_name lands h = Returns (popped, h') ->
  h' = h /\
  match popped with
  | Some lands' =>
      exists names', pop_first land_name names = Some names' /\
                     Forall2 (fun l name => h !! l = Some (land_object name))
                             lands' names' /\
                     incl lands' lands
  | None => pop_first land_name names = None
  end.
Proof.
  intros N. revert popped. induction N as [|l name lands names Hl N IH];
    intros popped H; cbn [pop_first_store pop_first] in *.
  - injection H as <- <-. auto.
  - apply cbind_returns in H as (v & h1 & E & H).
    assert (Ev : v = VStr name /\ h1 = h).
    { unfold get_item in E. rewrite Hl in E. simpl in E. now injection E as <- <-. }
    destruct Ev as [-> ->]. cbn [is_str] in H.
    destruct (String.eqb name land_name).
    + injection H as <- <-. split; [reflexivity|].
      exists names. split; [reflexivity|]. split; [exact N|apply incl_tl, incl_refl].
    + apply cbind_returns in H as (rest & h2 & E2 & H). injection H as <- <-.
      apply IH in E2 as (-> & E2). split; [reflexivity|].
      destruct rest as [lands'|]; cbn [option_map].
      * destruct E2 as (names' & -> & N' & Hincl). exists (name :: names').
        split; [reflexivity|]. split; [now constructor|].
        intros x [<-|Hx]; [now left|right; auto].
      * now rewrite E2.
Qed.

Lemma trim_store_spec fuel primary ms needed (h0 h : gmap loc object)
      lands names lands' h' :
  lands_in h0 h lands names ->
  trim_store fuel primary ms needed lands h = Returns (lands', h') ->
  h' = h /\
  exists names',
    trim fuel primary ms needed names = Returns names' /\
    lands_in h0 h lands' names'.
Proof.
  revert lands names. induction fuel as [|fuel IH]; intros lands names Hin H;
    cbn [trim_store trim] in *; rewrite <- (lands_in_length _ _ _ _ Hin).
  - destruct (needed <? length lands); [discriminate|]. injection H as <- <-. eauto.
  - destruct (needed <? length lands); [|injection H as <- <-; eauto].
    apply cbind_returns in H as (least & h1 & E1 & H).
    apply lift_returns in E1 as (E1 & ->). rewrite E1. cbn [bind].
    apply cbind_returns in H as (popped & h2 & E2 & H).
    destruct Hin as (S0 & F & N).
    apply (pop_first_store_spec _ _ _ names _ _ N) in E2 as (-> & E2).
    destruct popped as [lands1|]; [|discriminate].
    destruct E2 as (names1 & -> & N1 & Hincl).
    apply (IH lands1 names1); [|exact H].
    split; [exact S0|]. split; [|exact N1].
    rewrite List.Forall_forall in *. auto.
Qed.

(** The mana base over the store: the names of its land objects are the
    mana base over the values, and the objects are new. *)
Lemma mana_base_store_spec primary selected (h : gmap loc object) refs h' :
  mana_base_store primary selected h = Returns (refs, h') ->
  exists names,
    mana_base primary selected = Returns names /\
    lands_in h h' refs names.
Proof.
  unfold mana_base_store, mana_base. intros H.
  apply cbind_returns in H as (ms & h1 & E1 & H). apply lift_returns in E1 as (-> & ->).
  apply cbind_returns in H as (total & h1 & E2 & H).
  apply lift_returns in E2 as (E2 & ->). cbn [bind]. rewrite E2. cbn [bind].
  apply cbind_returns in H as (lands0 & h1 & E3 & H).
  apply initial_lands_store_spec in E3 as (names0 & -> & I0). cbn [bind].
  apply cbind_returns in H as (lands1 & h2 & E4 & H).
  apply (top_up_store_spec _ _ _ _ _ _ _ _ _ _ I0) in E4 as (names1 & -> & I1).
  cbn [bind]. rewrite <- (lands_in_length _ _ _ _ I1).
  apply (trim_store_spec _ _ _ _ _ _ _ _ _ _ I1) in H as (-> & names2 & -> & I2).
  eauto.
Qed.

(** ** A build and a simulation over the store *)

Lemma build_deck_shared_inv sealed_pool archetype (h : gmap loc object) deck h' :
  build_deck_shared sealed_pool archetype h = Returns (deck, h') ->
  exists pool_data h1 cc h2 selected lands,
    map_comp copy_card sealed_pool h = Returns (pool_data, h1) /\
    count_colors (map (card_at h1) pool_data) = Returns cc /\
    each (score_in_place (assoc archetype archetype_weights)
                         (resolve_primary_colors cc archetype)) pool_data h1
    = Returns (tt, h2) /\
    select_cards (scored_at h2) (same_object h2) (min_creatures_of archetype)
                 (playable_cards (scored_at h2) (resolve_primary_colors cc archetype)
                                 pool_data)
    = Returns selected /\
    mana_base_store (resolve_primary_colors cc archetype) (map (scored_at h2) selected)
                    h2 = Returns (lands, h') /\
    deck = selected ++ lands.
Proof.
  unfold build_deck_shared. intros H.
  apply cbind_returns in H as (pool_data & h1 & E1 & H).
  apply cbind_returns in H as (h1' & h1'' & G1 & H). injection G1 as <- <-.
  apply cbind_returns in H as (cc & h1' & E2 & H). apply lift_returns in E2 as (E2 & ->).
  apply cbind_returns in H as ([] & h2 & E3 & H).
  apply cbind_returns in H as (h2' & h2'' & G2 & H). injection G2 as <- <-.
  apply cbind_returns in H as (selected & h2' & E4 & H). apply lift_returns in E4 as (E4 & ->).
  apply cbind_returns in H as (lands & h3 & E5 & H). injection H as <- <-.
  exists pool_data, h1, cc, h2, selected, lands. auto 10.
Qed.

Lemma forall2_in_left {A B} (R : A -> B -> Prop) l l' x :
  Forall2 R l l' -> In x l -> exists y, In y l' /\ R x y.
Proof.
  induction 1 as [|a b l l' Hab _ IH]; intros Hx; [destruct Hx|].
  destruct Hx as [<-|Hx].
  - exists b. split; [now left|exact Hab].
  - destruct (IH Hx) as (y & Hy & Hr). exists y. split; [now right|exact Hr].
Qed.

(** A build leaves what the store held as it was, and its deck is made
    of objects of its own. *)
Lemma build_deck_shared_frame sealed_pool archetype (h : gmap loc object) deck h' :
  build_deck_shared sealed_pool archetype h = Returns (deck, h') ->
  (forall l o, h !! l = Some o -> h' !! l = Some o) /\
  Forall (fun l => h !! l = None /\ is_Some (h' !! l)) deck.
Proof.
  intros H.
  apply build_deck_shared_inv in H
    as (pool_data & h1 & cc & h2 & selected & lands
        & Hcopy & _ & Hscore & Hsel & Hlands & ->).
  apply copy_cards_spec in Hcopy as (S1 & F1).
  apply mana_base_store_spec in Hlands as (names & _ & S3 & F3 & N3).
  rewrite List.Forall_forall in F1, F3.
  assert (Hsame : forall l o, h !! l = Some o -> h2 !! l = Some o).
  { intros l o Hl. rewrite (score_all_writes _ _ _ _ _ Hscore l).
    - eapply lookup_weaken; eassumption.
    - intros Hin. apply F1 in Hin as [Hin _]. congruence. }
  assert (Hdom2 : forall l, is_Some (h1 !! l) -> is_Some (h2 !! l)).
  { apply (keeps_objects_each (score_in_place _ _) pool_data
                              (score_in_place_keeps _ _) _ _ _ Hscore). }
  split.
  - intros l o Hl. eapply lookup_weaken; [|exact S3]. now apply Hsame.
  - apply List.Forall_forall. intros l Hl. apply in_app_or in Hl as [Hl|Hl].
    + apply select_cards_incl in Hsel. apply Hsel in Hl.
      apply playable_cards_incl in Hl. apply F1 in Hl as [Hf Ha].
      split; [exact Hf|]. destruct (Hdom2 l Ha) as [o Ho].
      exists o. eapply lookup_weaken; eassumption.
    + split.
      * destruct (h !! l) eqn:E; [|reflexivity].
        apply Hsame in E. rewrite (F3 l Hl) in E. discriminate.
      * destruct (forall2_in_left _ _ _ _ N3 Hl) as (name & _ & Hn). eauto.
Qed.

Lemma tag_card_writes archetype i l : only_writes l (tag_card archetype i l).
Proof.
  apply only_writes_cbind; [apply only_writes_set_item|].
  intros _. apply only_writes_set_item.
Qed.

Lemma tag_card_keeps archetype i l : keeps_objects (tag_card archetype i l).
Proof.
  apply keeps_objects_cbind; [apply keeps_objects_set_item|].
  intros _. apply keeps_objects_set_item.
Qed.

Lemma tag_all_writes archetype i deck (h h' : gmap loc object) :
  each (tag_card archetype i) deck h = Returns (tt, h') ->
  forall l0, ~ In l0 deck -> h' !! l0 = h !! l0.
Proof.
  revert h. induction deck as [|l ls IH]; intros h H l0 Hl0.
  - now injection H as <-.
  - cbn [each] in H. apply cbind_returns in H as ([] & h1 & E1 & E2).
    rewrite (IH _ E2 l0); [|intros Hin; apply Hl0; now right].
    apply (tag_card_writes archetype i l _ _ _ E1).
    intros ->. apply Hl0. now left.
Qed.

Lemma with_store_returns {A} (m : comp (gmap loc object) A) g h a w :
  with_store m (g, h) = Returns (a, w) ->
  exists h', m h = Returns (a, h') /\ w = (g, h').
Proof.
  unfold with_store. cbn [fst snd]. destruct (m h) as [[a' h']| |]; try discriminate.
  intros H. injection H as <- <-. eauto.
Qed.

Lemma with_rng_returns {A} (m : rand A) g (h : gmap loc object) a w :
  with_rng m (g, h) = Returns (a, w) ->
  exists g', m g = Returns (a, g') /\ w = (g', h).
Proof.
  unfold with_rng. cbn [fst snd]. destruct (m g) as [[a' g']| |]; try discriminate.
  intros H. injection H as <- <-. eauto.
Qed.

Lemma run_drafts_store_frame cards runs first archetype distribution
      g (h : gmap loc object) decks g' h' :
  run_drafts_store cards runs first archetype distribution (g, h)
  = Returns (decks, (g', h')) ->
  (forall l o, h !! l = Some o -> h' !! l = Some o) /\
  Forall (Forall (fun l => h !! l = None /\ is_Some (h' !! l))) decks /\
  ForallOrdPairs (fun d1 d2 => forall l, In l d1 -> ~ In l d2) decks.
Proof.
  revert first g h decks g' h'.
  induction runs as [|runs IH]; intros first g h decks g' h' H.
  - injection H as <- <- <-. split; [auto|]. split; constructor.
  - cbn [run_drafts_store] in H.
    apply cbind_returns in H as (h0 & w0 & E0 & H).
    apply with_store_returns in E0 as (h0' & E0 & ->). injection E0 as <- <-.
    apply cbind_returns in H as (pool & w1 & E1 & H).
    apply with_rng_returns in E1 as (g1 & _ & ->).
    apply cbind_returns in H as (current & w2 & E2 & H).
    assert (Hw2 : exists g2, w2 = (g2, h)).
    { destruct distribution as [items|].
      - apply cbind_returns in E2 as (r & w & Er & E2).
        apply with_rng_returns in Er as (g2 & _ & ->). injection E2 as <- <-. eauto.
      - injection E2 as <- <-. eauto. }
    destruct Hw2 as (g2 & ->).
    apply cbind_returns in H as (deck & w3 & E3 & H).
    apply with_store_returns in E3 as (h1 & E3 & ->).
    apply cbind_returns in H as ([] & w4 & E4 & H).
    apply with_store_returns in E4 as (h2 & E4 & ->).
    apply cbind_returns in H as (rest & [g3 h3] & E5 & H).
    injection H as <- <- <-.
    apply build_deck_shared_frame in E3 as (Hold & Hdeck).
    pose proof (tag_all_writes _ _ _ _ _ E4) as Hwrites.
    pose proof (keeps_objects_each (tag_card current first) deck
                  (tag_card_keeps current first) _ _ _ E4) as Hkeeps.
    apply IH in E5 as (Hold' & Hrest & Hpairs).
    rewrite List.Forall_forall in Hdeck.
    assert (Hold2 : forall l o, h !! l = Some o -> h2 !! l = Some o).
    { intros l o Hl. rewrite (Hwrites l); [now apply Hold|].
      intros Hin. apply Hdeck in Hin as [Hin _]. congruence. }
    assert (Hnew : forall l, h2 !! l = None -> h !! l = None).
    { intros l Hl. destruct (h !! l) eqn:E; [|reflexivity].
      apply Hold2 in E. congruence. }
    split; [|split].
    + intros l o Hl. apply Hold', Hold2, Hl.
    + constructor.
      * apply List.Forall_forall. intros l Hl. destruct (Hdeck l Hl) as [Hf Hs].
        split; [exact Hf|]. apply Hkeeps in Hs. destruct Hs as [o Ho].
        exists o. now apply Hold'.
      * eapply List.Forall_impl; [|exact Hrest]. intros d Hd.
        eapply List.Forall_impl; [|exact Hd]. cbv beta. intros l [Hl Hs].
        split; [now apply Hnew|exact Hs].
    + constructor; [|exact Hpairs].
      rewrite List.Forall_forall in Hrest |- *. intros d Hd l Hl Hl'.
      specialize (Hrest d Hd). rewrite List.Forall_forall in Hrest.
      destruct (Hrest l Hl') as [Hnone _].
      destruct (Hdeck l Hl) as [_ Hs]. apply Hkeeps in Hs.
      rewrite Hnone in Hs. now destruct Hs.
Qed.

(** X18: a simulation leaves every object that the store held before
    it, the records of the card set and their color lists among them,
    exactly as it was: the archetype and the draft number are written to
    the cards of the decks, and these are objects that the runs made
    themselves. No object is a card of the decks of two runs. *)
Theorem simulate_drafts_keeps_records cards_in_set num_drafts archetype
        archetype_distribution g (h : gmap loc object) decks g' h' :
  simulate_drafts_store cards_in_set num_drafts archetype archetype_distribution (g, h)
  = Returns (decks, (g', h')) ->
  (forall l o, h !! l = Some o -> h' !! l = Some o) /\
  Forall (Forall (fun l => h !! l = None /\ is_Some (h' !! l))) decks /\
  ForallOrdPairs (fun d1 d2 => forall l, In l d1 -> ~ In l d2) decks.
Proof.
  unfold simulate_drafts_store. intros H.
  apply cbind_returns in H as (distribution & w & Hd & H).
  assert (Hw : w = (g, h)).
  { destruct (truthy archetype_distribution) as [items|].
    - apply cbind_returns in Hd as (items' & w' & Hv & Hd).
      apply lift_returns in Hv as (_ & ->). now injection Hd as <- <-.
    - now injection Hd as <- <-. }
  subst w. now apply run_drafts_store_frame in H.
Qed.

Lemma simulate_drafts_keeps_records_witness :
  let cards_in_set := fst sample_store in
  let h := snd sample_store in
  let run := returned ([], (zero_rng, ∅))
                      (simulate_drafts_store cards_in_set 2 "RW" None (zero_rng, h)) in
  length (fst run) = 2 /\
  (forall l o, h !! l = Some o -> snd (snd run) !! l = Some o).
Proof.
  intros cards_in_set h run. split; [vm_compute; reflexivity|].
  assert (E : simulate_drafts_store cards_in_set 2 "RW" None (zero_rng, h)
              = Returns (fst run, (fst (snd run), snd (snd run))))
    by (vm_cast_no_check
          (eq_refl (Returns (fst run, (fst (snd run), snd (snd run)))))).
  exact (proj1 (simulate_drafts_keeps_records cards_in_set 2 "RW" None zero_rng h
                  (fst run) (fst (snd run)) (snd (snd run)) E)).
Defined.

(** ** One object for the lands of a color *)










Lemma tag_card_sets archetype i l (h h' : gmap loc object) :
  tag_card archetype i l h = Returns (tt, h') -> tagged h' archetype i l.
Proof.
  unfold tag_card. intros H.
  apply cbind_returns in H as ([] & h1 & E1 & E2).
  unfold set_item in E1, E2.
  destruct (h !! l) as [[d|]|] eqn:El; try discriminate.
  injection E1 as <-. rewrite lookup_insert_eq in E2. injection E2 as <-.
  unfold tagged, fields_at. rewrite lookup_insert_eq. split.
  - rewrite lookup_insert_ne by discriminate. apply lookup_insert_eq.
  - apply lookup_insert_eq.
Qed.

Lemma tag_card_stays archetype i l (h h' : gmap loc object) l0 :
  tag_card archetype i l h = Returns (tt, h') ->
  tagged h archetype i l0 -> tagged h' archetype i l0.
Proof.
  intros H Ht. destruct (Nat.eq_dec l0 l) as [->|Hne].
  - eapply tag_card_sets; eassumption.
  - unfold tagged, fields_at in *.
    now rewrite (tag_card_writes archetype i l _ _ _ H l0 Hne).
Qed.

Lemma tag_all_sets archetype i deck (h h' : gmap loc object) :
  each (tag_card archetype i) deck h = Returns (tt, h') ->
  (forall l, tagged h archetype i l -> tagged h' archetype i l) /\
  Forall (tagged h' archetype i) deck.
Proof.
  revert h. induction deck as [|l ls IH]; intros h H.
  - injection H as <-. split; [auto|constructor].
  - cbn [each] in H. apply cbind_returns in H as ([] & h1 & E1 & E2).
    destruct (IH _ E2) as (Hstay & Hall). split; [|constructor].
    + intros l0 Hl0. apply Hstay. eapply tag_card_stays; eassumption.
    + apply Hstay. eapply tag_card_sets; eassumption.
    + exact Hall.
Qed.

Lemma tagged_kept (h h' : gmap loc object) archetype i l :
  (forall l o, h !! l = Some o -> h' !! l = Some o) ->
  tagged h archetype i l -> tagged h' archetype i l.
Proof.
  intros Hkeep Ht. unfold tagged, fields_at in *.
  destruct (h !! l) as [o|] eqn:E.
  - now rewrite (Hkeep _ _ E).
  - destruct Ht as [Ht _]. rewrite lookup_empty in Ht. discriminate.
Qed.

Lemma run_drafts_store_tags cards runs first archetype distribution
      g (h : gmap loc object) decks g' h' :
  run_drafts_store cards runs first archetype distribution (g, h)
  = Returns (decks, (g', h')) ->
  length decks = runs /\
  forall i deck, nth_error decks i = Some deck ->
    exists current,
      (distribution = None -> current = archetype) /\
      Forall (tagged h' current (first + i)) deck.
Proof.
  revert first g h decks g' h'.
  induction runs as [|runs IH]; intros first g h decks g' h' H.
  - injection H as <- <- <-. split; [reflexivity|].
    intros [|i] deck Hd; discriminate.
  - cbn [run_drafts_store] in H.
    apply cbind_returns in H as (h0 & w0 & E0 & H).
    apply with_store_returns in E0 as (h0' & E0 & ->). injection E0 as <- <-.
    apply cbind_returns in H as (pool & w1 & E1 & H).
    apply with_rng_returns in E1 as (g1 & _ & ->).
    apply cbind_returns in H as (current & w2 & E2 & H).
    assert (Hw2 : (exists g2, w2 = (g2, h)) /\ (distribution = None -> current = archetype)).
    { destruct distribution as [items|].
      - apply cbind_returns in E2 as (r & w & Er & E2).
        apply with_rng_returns in Er as (g2 & _ & ->). injection E2 as <- <-.
        split; [eauto|discriminate].
      - injection E2 as <- <-. split; [eauto|reflexivity]. }
    destruct Hw2 as ((g2 & ->) & Hcur).
    apply cbind_returns in H as (deck & w3 & E3 & H).
    apply with_store_returns in E3 as (h1 & E3 & ->).
    apply cbind_returns in H as ([] & w4 & E4 & H).
    apply with_store_returns in E4 as (h2 & E4 & ->).
    apply cbind_returns in H as (rest & [g3 h3] & E5 & H).
    injection H as <- <- <-.
    apply tag_all_sets in E4 as (_ & Htags).
    pose proof (run_drafts_store_frame _ _ _ _ _ _ _ _ _ _ E5) as (Hkeep & _).
    apply IH in E5 as (Hlen & Hrest).
    split; [cbn [length]; now rewrite Hlen|].
    intros [|i] d Hd.
    + injection Hd as <-. exists current. split; [exact Hcur|].
      rewrite Nat.add_0_r. eapply List.Forall_impl; [|exact Htags].
      intros l. now apply tagged_kept.
    + cbn [nth_error] in Hd. destruct (Hrest i d Hd) as (cur & Hc & Hall).
      exists cur. split; [exact Hc|].
      now replace (first + S i) with (S first + i) by lia.
Qed.

(** X20: in the store that a simulation leaves, every card object of
    the deck at index i carries draft_number i and the archetype of its
    run, the same for all cards of the deck; no later run and no shared
    land object overwrites them. There are num_drafts decks, and without
    a distribution (None or an empty dict) the archetype is the
    argument. *)
Theorem decks_carry_their_tags cards_in_set num_drafts archetype
        archetype_distribution g (h : gmap loc object) decks g' h' :
  simulate_drafts_store cards_in_set num_drafts archetype archetype_distribution (g, h)
  = Returns (decks, (g', h')) ->
  length decks = num_drafts /\
  forall i deck, nth_error decks i = Some deck ->
    exists current,
      (truthy archetype_distribution = None -> current = archetype) /\
      Forall (tagged h' current i) deck.
Proof.
  unfold simulate_drafts_store. intros H.
  apply cbind_returns in H as (distribution & w & Hd & H).
  assert (Hw : w = (g, h) /\ (truthy archetype_distribution = None -> distribution = None)).
  { destruct (truthy archetype_distribution) as [items|].
    - apply cbind_returns in Hd as (items' & w' & Hv & Hd).
      apply lift_returns in Hv as (_ & ->). injection Hd as <- <-.
      split; [reflexivity|discriminate].
    - injection Hd as <- <-. split; reflexivity. }
  destruct Hw as (-> & Hnone).
  apply run_drafts_store_tags in H as (Hlen & Htags).
  split; [exact Hlen|]. intros i deck Hi.
  destruct (Htags i deck Hi) as (current & Hc & Hall).
  exists current. split; [|exact Hall]. intros Hn. apply Hc, Hnone, Hn.
Qed.

Lemma decks_carry_their_tags_witness :
  let cards_in_set := fst sample_store in
  let h := snd sample_store in
  let run := returned ([], (zero_rng, ∅))
                      (simulate_drafts_store cards_in_set 2 "RW" None (zero_rng, h)) in
  length (fst run) = 2 /\
  forall i deck, nth_error (fst run) i = Some deck ->
    exists current,
      (truthy (@None (list (string * number))) = None -> current = "RW") /\
      Forall (tagged (snd (snd run)) current i) deck.
Proof.
  intros cards_in_set h run.
  assert (E : simulate_drafts_store cards_in_set 2 "RW" None (zero_rng, h)
              = Returns (fst run, (fst (snd run), snd (snd run))))
    by (vm_cast_no_check
          (eq_refl (Returns (fst run, (fst (snd run), snd (snd run)))))).
  exact (decks_carry_their_tags cards_in_set 2 "RW" None zero_rng h
           (fst run) (fst (snd run)) (snd (snd run)) E).
Defined.
